(** * Edmonds-Karp maximum flow: a shallow embedding of
      [edmonds_karp_algorithm.py] and the properties of its solver.

    The Python program keeps [Edge] objects that point at each other
    through their [residual] attribute and are shared between the
    adjacency lists and the [previous] array of the search.  The embedding
    keeps all [Edge] objects in one store (a list, the address of an object
    being its position) and lets adjacency lists, [previous] and
    [residual] hold addresses, so that a flow update through one reference
    is seen through every other one. *)

From Stdlib Require Import ZArith Lia.
From stdpp Require Import base numbers list.

Open Scope Z_scope.

(** ** Outcomes of running Python code *)

(** The exceptions the modelled statements can raise.  [IndexError] comes
    from subscripting a list out of range, [AttributeError] from reading
    [.flow] of the integer placeholder [0] an [Edge] is born with.
    [DanglingReference] has no Python counterpart: it is what the model
    answers when an address is not allocated in the store. *)
Inductive exn := IndexError | AttributeError | DanglingReference.

(** A statement returns, raises, or (for a loop run with a bound on its
    iterations) is cut off. *)
Inductive outcome (A : Type) :=
| Return (a : A)
| Raise (e : exn)
| Timeout.
Arguments Return {A} a.
Arguments Raise {A} e.
Arguments Timeout {A}.

Definition bind {A B} (m : outcome A) (k : A → outcome B) : outcome B :=
  match m with
  | Return a => k a
  | Raise e => Raise e
  | Timeout => Timeout
  end.

Notation "'let*' x ':=' m 'in' k" := (bind m (fun x => k))
  (at level 10, x name, m at level 100, k at level 200, only parsing).

(** ** Python list subscripting *)

(** [l[i]] accepts [-len(l) <= i < len(l)], a negative index counting
    from the end; any other index raises [IndexError]. *)
Definition py_index (len : nat) (i : Z) : option nat :=
  if (0 <=? i) && (i <? Z.of_nat len) then Some (Z.to_nat i)
  else if (- Z.of_nat len <=? i) && (i <? 0) then Some (Z.to_nat (i + Z.of_nat len))
  else None.

Definition py_get {A} (l : list A) (i : Z) : outcome A :=
  match py_index (length l) i with
  | Some k => match l !! k with Some x => Return x | None => Raise IndexError end
  | None => Raise IndexError
  end.

Definition py_set {A} (l : list A) (i : Z) (x : A) : outcome (list A) :=
  match py_index (length l) i with
  | Some k => Return (<[k := x]> l)
  | None => Raise IndexError
  end.

(** ** class Edge *)

(** [residual] is [None] for the integer placeholder [0] set by
    [Edge.__init__] and [Some a] for a reference to the [Edge] at
    address [a]. *)
Record Edge := mkEdge {
  capacity : Z;
  from_node : Z;
  to_node : Z;
  flow : Z;
  residual : option nat
}.

(** [Edge.__init__] *)
Definition Edge_init (capacity from_node to_node : Z) : Edge :=
  {| capacity := capacity;
     from_node := from_node - 1;
     to_node := to_node - 1;
     flow := 0;
     residual := None |}.

(** [Edge.remaining_capacity] *)
Definition remaining_capacity (e : Edge) : Z := capacity e - flow e.

Definition set_residual (e : Edge) (r : nat) : Edge :=
  {| capacity := capacity e; from_node := from_node e; to_node := to_node e;
     flow := flow e; residual := Some r |}.

Definition set_flow (e : Edge) (f : Z) : Edge :=
  {| capacity := capacity e; from_node := from_node e; to_node := to_node e;
     flow := f; residual := residual e |}.

(** ** class Graph *)

(** [graph] is [self.graph], the per-node lists of edge references;
    [edges] is the store of the [Edge] objects created so far. *)
Record Graph := mkGraph {
  num_nodes : Z;
  source : Z;
  sink : Z;
  graph : list (list nat);
  edges : list Edge
}.

(** [Graph.__init__]: [[0] * num_nodes] is the empty list when
    [num_nodes <= 0], and nothing in the constructor inspects [source]
    or [sink]. *)
Definition Graph_init (num_nodes source sink : Z) : Graph :=
  {| num_nodes := num_nodes;
     source := source - 1;
     sink := sink - 1;
     graph := replicate (Z.to_nat num_nodes) [];
     edges := [] |}.

Definition with_graph (g : Graph) (adj : list (list nat)) : Graph :=
  {| num_nodes := num_nodes g; source := source g; sink := sink g;
     graph := adj; edges := edges g |}.

Definition with_edges (g : Graph) (E : list Edge) : Graph :=
  {| num_nodes := num_nodes g; source := source g; sink := sink g;
     graph := graph g; edges := E |}.

(** [self.graph[i].append(a)] *)
Definition append_at (adj : list (list nat)) (i : Z) (a : nat)
  : outcome (list (list nat)) :=
  match py_index (length adj) i with
  | Some k => Return (alter (fun row => row ++ [a]) k adj)
  | None => Raise IndexError
  end.

(** [Graph.add_edge].  Both [Edge] objects are created and linked before
    the adjacency lists are touched, so they exist (and the first append
    has happened) even when a subscript raises. *)
Definition add_edge (g : Graph) (from_node to_node capacity : Z)
  : outcome unit * Graph :=
  let d := length (edges g) in
  let r := S d in
  let directed_edge := set_residual (Edge_init capacity from_node to_node) r in
  let residual_edge := set_residual (Edge_init 0 to_node from_node) d in
  let g0 := with_edges g (edges g ++ [directed_edge; residual_edge]) in
  match append_at (graph g0) (from_node - 1) d with
  | Return adj1 =>
      let g1 := with_graph g0 adj1 in
      match append_at (graph g1) (to_node - 1) r with
      | Return adj2 => (Return tt, with_graph g1 adj2)
      | Raise e => (Raise e, g1)
      | Timeout => (Timeout, g1)
      end
  | Raise e => (Raise e, g0)
  | Timeout => (Timeout, g0)
  end.

(** Dereferencing an address of the store. *)
Definition deref (E : list Edge) (a : nat) : outcome Edge :=
  match E !! a with
  | Some e => Return e
  | None => Raise DanglingReference
  end.

(** *** The breadth first search of [Graph.bfs] *)

Record bfs_state := mkBfs {
  bfs_queue : list Z;
  visited : list bool;
  previous : list (option nat)
}.

(** Body of [for edge in self.graph[current_vertex]].  Python's [and]
    evaluates [visited[edge.to_node]] only when the edge has remaining
    capacity. *)
Definition visit_edge (E : list Edge) (st : bfs_state) (a : nat)
  : outcome bfs_state :=
  let* edge := deref E a in
  if 0 <? remaining_capacity edge then
    let* seen := py_get (visited st) (to_node edge) in
    if negb seen then
      let* visited' := py_set (visited st) (to_node edge) true in
      let* previous' := py_set (previous st) (to_node edge) (Some a) in
      Return {| bfs_queue := bfs_queue st ++ [to_node edge];
                visited := visited';
                previous := previous' |}
    else Return st
  else Return st.

Fixpoint visit_edges (E : list Edge) (st : bfs_state) (row : list nat)
  : outcome bfs_state :=
  match row with
  | [] => Return st
  | a :: row' => let* st' := visit_edge E st a in visit_edges E st' row'
  end.

(** [while len(bfs_queue) != 0], with a bound on the iterations *)
Fixpoint bfs_loop (fuel : nat) (g : Graph) (st : bfs_state)
  : outcome bfs_state :=
  match bfs_queue st with
  | [] => Return st
  | current_vertex :: rest =>
      match fuel with
      | O => Timeout
      | S fuel' =>
          let st1 := {| bfs_queue := rest; visited := visited st;
                        previous := previous st |} in
          if current_vertex =? sink g then Return st1
          else
            let* row := py_get (graph g) current_vertex in
            let* st2 := visit_edges (edges g) st1 row in
            bfs_loop fuel' g st2
      end
  end.

(** [min(network_flow, x)] where [network_flow] starts as [math.inf]
    ([None]) and [x] is an integer. *)
Definition py_min (network_flow : option Z) (x : Z) : Z :=
  match network_flow with
  | None => x
  | Some m => Z.min m x
  end.

(** First backtracking loop of [Graph.bfs].  It is entered with
    [edge = previous[self.sink]], known not to be [None], so the test of
    the [while] is taken at the end of each round. *)
Fixpoint bottleneck_loop (fuel : nat) (E : list Edge)
    (previous : list (option nat)) (network_flow : option Z) (a : nat)
  : outcome Z :=
  match fuel with
  | O => Timeout
  | S fuel' =>
      let* edge := deref E a in
      let network_flow' := py_min network_flow (remaining_capacity edge) in
      let* next := py_get previous (from_node edge) in
      match next with
      | None => Return network_flow'
      | Some a' => bottleneck_loop fuel' E previous (Some network_flow') a'
      end
  end.

(** [edge.flow += network_flow; edge.residual.flow -= network_flow] *)
Definition push_flow (E : list Edge) (a : nat) (network_flow : Z)
  : outcome unit * list Edge :=
  match E !! a with
  | None => (Raise DanglingReference, E)
  | Some edge =>
      let E1 := <[a := set_flow edge (flow edge + network_flow)]> E in
      match residual edge with
      | None => (Raise AttributeError, E1)
      | Some r =>
          match E1 !! r with
          | None => (Raise DanglingReference, E1)
          | Some redge =>
              (Return tt, <[r := set_flow redge (flow redge - network_flow)]> E1)
          end
      end
  end.

(** Second backtracking loop of [Graph.bfs]. *)
Fixpoint augment_loop (fuel : nat) (previous : list (option nat))
    (network_flow : Z) (edge : option nat) (E : list Edge)
  : outcome unit * list Edge :=
  match edge with
  | None => (Return tt, E)
  | Some a =>
      match fuel with
      | O => (Timeout, E)
      | S fuel' =>
          match push_flow E a network_flow with
          | (Return _, E') =>
              match E' !! a with
              | None => (Raise DanglingReference, E')
              | Some edge' =>
                  match py_get previous (from_node edge') with
                  | Return next => augment_loop fuel' previous network_flow next E'
                  | Raise e => (Raise e, E')
                  | Timeout => (Timeout, E')
                  end
              end
          | (Raise e, E') => (Raise e, E')
          | (Timeout, E') => (Timeout, E')
          end
      end
  end.

(** Python's [n * [x]] for a possibly negative [n]. *)
Definition py_repeat {A} (x : A) (n : Z) : list A := replicate (Z.to_nat n) x.

(** State of the search when the [while] loop of [Graph.bfs] is entered. *)
Definition bfs_start (g : Graph) : outcome bfs_state :=
  let* visited0 := py_set (py_repeat false (num_nodes g)) (source g) true in
  Return {| bfs_queue := [source g];
            visited := visited0;
            previous := py_repeat None (num_nodes g) |}.

(** The search part of [Graph.bfs]: the [previous] array it leaves. *)
Definition bfs_search (g : Graph) : outcome (list (option nat)) :=
  let* st0 := bfs_start g in
  let* st := bfs_loop (Z.to_nat (num_nodes g)) g st0 in
  Return (previous st).

(** [Graph.bfs], its second backtracking loop cut off after [rounds]
    rounds: the graph it answers with a [Timeout] is the graph as that
    loop has left it after [rounds] updates. *)
Definition bfs_rounds (rounds : nat) (g : Graph) : outcome Z * Graph :=
  match bfs_search g with
  | Return previous =>
      match py_get previous (sink g) with
      | Return None => (Return 0, g)
      | Return (Some a) =>
          let n := Z.to_nat (num_nodes g) in
          match bottleneck_loop n (edges g) previous None a with
          | Return network_flow =>
              match augment_loop rounds previous network_flow (Some a) (edges g) with
              | (Return _, E') => (Return network_flow, with_edges g E')
              | (Raise e, E') => (Raise e, with_edges g E')
              | (Timeout, E') => (Timeout, with_edges g E')
              end
          | Raise e => (Raise e, g)
          | Timeout => (Timeout, g)
          end
      | Raise e => (Raise e, g)
      | Timeout => (Timeout, g)
      end
  | Raise e => (Raise e, g)
  | Timeout => (Timeout, g)
  end.

(** [Graph.bfs].  Each node is put in the queue at most once and the
    predecessor chain visits a node at most once, which gives the bounds
    handed to the three loops. *)
Definition bfs (g : Graph) : outcome Z * Graph :=
  bfs_rounds (Z.to_nat (num_nodes g)) g.

(** The [while flow > 0] loop of [Graph.edmonds_karp]. *)
Fixpoint edmonds_karp_loop (fuel : nat) (g : Graph) (max_flow flow : Z)
  : outcome Z * Graph :=
  if 0 <? flow then
    match fuel with
    | O => (Timeout, g)
    | S fuel' =>
        match bfs g with
        | (Return flow', g') =>
            edmonds_karp_loop fuel' g' (max_flow + flow') flow'
        | (Raise e, g') => (Raise e, g')
        | (Timeout, g') => (Timeout, g')
        end
    end
  else (Return max_flow, g).

(** [Graph.edmonds_karp], with a bound on the number of searches. *)
Definition edmonds_karp (fuel : nat) (g : Graph) : outcome Z * Graph :=
  edmonds_karp_loop fuel g 0 1.

(** A network as the callers make it: the constructor followed by a
    sequence of [add_edge] calls (a call that raises leaves the graph as
    it was when the exception left [add_edge]). *)
Definition add_edges (g : Graph) (calls : list (Z * Z * Z)) : Graph :=
  fold_left (fun g '(u, v, c) => snd (add_edge g u v c)) calls g.

Definition build (n s t : Z) (calls : list (Z * Z * Z)) : Graph :=
  add_edges (Graph_init n s t) calls.

(** The two networks of the [__main__] block. *)
Definition scenario1_calls : list (Z * Z * Z) :=
  [(1,2,5); (1,3,10); (2,4,5); (2,5,20); (3,5,5); (3,6,20); (4,7,10);
   (4,8,5); (5,7,100); (6,9,2); (8,7,100); (7,10,5); (9,10,10)].

Definition scenario1 : Graph := build 10 1 10 scenario1_calls.

Definition scenario2_calls : list (Z * Z * Z) :=
  [(1,2,5); (1,3,10); (1,4,5); (3,2,15); (3,6,20); (2,5,10); (6,4,5);
   (4,7,10); (5,6,25); (5,8,10); (6,9,30); (7,9,5); (7,10,10); (9,5,15);
   (9,10,5); (8,11,5); (9,11,15); (10,11,10)].

Definition scenario2 : Graph := build 11 1 11 scenario2_calls.

(** One edge of capacity 5 from node 1, the source, to node 2, the sink. *)
Definition one_edge : Graph := build 2 1 2 [(1, 2, 5)].

(** * Vocabulary of the properties *)

(** ** Arguments *)

(** [i] is a subscript Python accepts for a list of length [len]. *)
Definition subscript_ok (len : nat) (i : Z) : Prop :=
  - Z.of_nat len <= i < Z.of_nat len.

(** ** The store of edges *)

(** Every edge of the store has a residual, another edge of the store,
    whose residual it is and whose flow is the opposite of its own. *)
Definition paired (E : list Edge) : Prop :=
  ∀ a e, E !! a = Some e →
    ∃ r e', residual e = Some r ∧ r ≠ a ∧ E !! r = Some e'
            ∧ residual e' = Some a ∧ flow e = - flow e'.

(** The references kept in [previous] are allocated. *)
Definition allocated (E : list Edge) (previous : list (option nat)) : Prop :=
  ∀ k a, previous !! k = Some (Some a) → (a < length E)%nat.

(** The references kept in [previous] are to edges with remaining
    capacity. *)
Definition usable (E : list Edge) (previous : list (option nat)) : Prop :=
  ∀ k a, previous !! k = Some (Some a) →
    ∃ e, E !! a = Some e ∧ 0 < remaining_capacity e.

(** The states a caller can bring a graph to: construction, [add_edge]
    (returning or raising), and solving, stopped anywhere between two
    updates of the flow along a path. *)
Inductive reachable : Graph → Prop :=
| reach_init n s t : reachable (Graph_init n s t)
| reach_add_edge g u v c : reachable g → reachable (snd (add_edge g u v c))
| reach_bfs_rounds g rounds : reachable g → reachable (snd (bfs_rounds rounds g))
| reach_edmonds_karp g fuel : reachable g → reachable (snd (edmonds_karp fuel g)).

(** The edge without its flow: what no statement of the solver changes. *)
Definition erase (e : Edge) : Edge := set_flow e 0.

(** Two stores that differ in the flows only. *)
Definition same_shape (E E' : list Edge) : Prop := erase <$> E = erase <$> E'.

(** The store after the two assignments of [push_flow] on the edge [e] at
    [a] and its residual [er] at [r]. *)
Definition pushed (E : list Edge) (a r : nat) (e er : Edge) (b : Z) : list Edge :=
  <[r := set_flow er (flow er - b)]> (<[a := set_flow e (flow e + b)]> E).

(** The store after the second backtracking loop has gone through the
    edges of [p]. *)
Definition push_all (E : list Edge) (p : list nat) (b : Z) : list Edge :=
  fold_left (fun E a => snd (push_flow E a b)) p E.

(** No edge carries more than its capacity. *)
Definition feasible (E : list Edge) : Prop :=
  ∀ a e, E !! a = Some e → 0 <= remaining_capacity e.

(** Sum of [f] over the edges of the store. *)
Definition total (f : Edge → Z) (E : list Edge) : Z :=
  foldr (fun e acc => f e + acc) 0 E.

(** Flow leaving node [v], over all edges of the store (an edge into [v]
    counts through its residual, whose flow is the opposite). *)
Definition net_out (E : list Edge) (v : Z) : Z :=
  total (fun e => if from_node e =? v then flow e else 0) E.

(** ** Networks *)

(** [add_edge] allocates a forward edge at an even address and its
    residual, of capacity 0 and reversed, right after it. *)
Definition twins (E : list Edge) : Prop :=
  ∀ k d, E !! (2 * k)%nat = Some d →
    ∃ r, E !! S (2 * k) = Some r
         ∧ residual d = Some (S (2 * k)) ∧ residual r = Some (2 * k)%nat
         ∧ from_node r = to_node d ∧ to_node r = from_node d
         ∧ capacity r = 0 ∧ 0 <= capacity d.

(** What holds of a network built with arguments in range, whatever the
    flows: the nodes are [0 .. num_nodes - 1], each adjacency list holds
    the edges leaving its node and every edge is in the list of the node
    it leaves. *)
Record well_formed (g : Graph) : Prop := {
  wf_nodes : 0 < num_nodes g;
  wf_rows : length (graph g) = Z.to_nat (num_nodes g);
  wf_source : 0 <= source g < num_nodes g;
  wf_sink : 0 <= sink g < num_nodes g;
  wf_distinct : source g ≠ sink g;
  wf_row : ∀ u row a, graph g !! u = Some row → a ∈ row →
             ∃ e, edges g !! a = Some e ∧ from_node e = Z.of_nat u;
  wf_edge : ∀ a e, edges g !! a = Some e →
              0 <= from_node e < num_nodes g ∧ 0 <= to_node e < num_nodes g
              ∧ ∃ row, graph g !! Z.to_nat (from_node e) = Some row ∧ a ∈ row;
  wf_twins : twins (edges g)
}.

(** The invariant of solving. *)
Record sound (g : Graph) : Prop := {
  sound_wf : well_formed g;
  sound_paired : paired (edges g);
  sound_feasible : feasible (edges g)
}.

(** [chain E s v p]: the edges of [p], last edge first, lead from [s]
    to [v]. *)
Inductive chain (E : list Edge) (s : Z) : Z → list nat → Prop :=
| chain_nil : chain E s s []
| chain_cons v a e p :
    E !! a = Some e → to_node e = v → chain E s (from_node e) p →
    chain E s v (a :: p).

(** An augmenting path: a chain of edges with remaining capacity from
    the source to the sink. *)
Definition augmenting (g : Graph) (p : list nat) : Prop :=
  chain (edges g) (source g) (sink g) p
  ∧ ∀ a, a ∈ p → ∃ e, edges g !! a = Some e ∧ 0 < remaining_capacity e.

(** The residual of an edge runs the other way. *)
Definition reversed (E : list Edge) : Prop :=
  ∀ a e r er, E !! a = Some e → residual e = Some r → E !! r = Some er →
    from_node er = to_node e.

(** ** The search *)

(** Node [v] is marked in [visited]. *)
Definition seen (vis : list bool) (v : Z) : Prop :=
  0 <= v ∧ vis !! Z.to_nat v = Some true.

(** [walk E s prev v p]: following [prev] back from [v] goes through the
    edges [p] and ends at [s]; it is the path the two backtracking loops
    of [bfs] go through. *)
Inductive walk (E : list Edge) (s : Z) (prev : list (option nat))
  : Z → list nat → Prop :=
| walk_nil : walk E s prev s []
| walk_cons v a e p :
    0 <= v → prev !! Z.to_nat v = Some (Some a) → E !! a = Some e →
    walk E s prev (from_node e) p → walk E s prev v (a :: p).

(** Number of nodes marked in [visited]. *)
Fixpoint trues (l : list bool) : nat :=
  match l with
  | [] => 0
  | b :: l' => (if b then 1 else 0) + trues l'
  end.

(** Invariant of the [while] loop of the search: the marked nodes are
    those with a recorded path back to the source, through edges with
    remaining capacity, and such a path is shorter than the number of
    marked nodes. *)
Record bfs_inv (g : Graph) (st : bfs_state) : Prop := {
  inv_len_vis : length (visited st) = Z.to_nat (num_nodes g);
  inv_len_prev : length (previous st) = Z.to_nat (num_nodes g);
  inv_queue : ∀ v, v ∈ bfs_queue st → seen (visited st) v;
  inv_source : seen (visited st) (source g);
  inv_source_prev : previous st !! Z.to_nat (source g) = Some None;
  inv_prev : ∀ k a, previous st !! k = Some (Some a) →
    ∃ e, edges g !! a = Some e ∧ to_node e = Z.of_nat k
         ∧ 0 < remaining_capacity e ∧ seen (visited st) (from_node e)
         ∧ visited st !! k = Some true;
  inv_walk : ∀ v, seen (visited st) v →
    ∃ p, walk (edges g) (source g) (previous st) v p
         ∧ (length p < trues (visited st))%nat
}.

(** The new state when an edge leads to a node not seen before. *)
Definition discover (st : bfs_state) (a : nat) (w : Z) : bfs_state :=
  {| bfs_queue := bfs_queue st ++ [w];
     visited := <[Z.to_nat w := true]> (visited st);
     previous := <[Z.to_nat w := Some a]> (previous st) |}.

(** [b] is the least remaining capacity along [p], or the running
    minimum [m] when that is smaller. *)
Definition least (g : Graph) (m : option Z) (p : list nat) (b : Z) : Prop :=
  (∀ z, m = Some z → b <= z)
  ∧ (∀ a e, a ∈ p → edges g !! a = Some e → b <= remaining_capacity e)
  ∧ (m = Some b
     ∨ ∃ a e, a ∈ p ∧ edges g !! a = Some e ∧ remaining_capacity e = b).

(** ** Callers *)

(** An [add_edge] call [(from_node, to_node, capacity)] between nodes of
    a network of [n] nodes, with a non-negative capacity. *)
Definition valid_call (n : Z) (call : Z * Z * Z) : Prop :=
  1 <= call.1.1 <= n ∧ 1 <= call.1.2 <= n ∧ 0 <= call.2.

(** What the documentation of the constructor and of [add_edge] asks of
    the caller: a node count that is positive, a source and a sink that
    are two different nodes, edges between nodes, with a non-negative
    capacity. *)
Definition valid_network (n s t : Z) (calls : list (Z * Z * Z)) : Prop :=
  0 < n ∧ 1 <= s <= n ∧ 1 <= t <= n ∧ s ≠ t ∧ Forall (valid_call n) calls.

(** ** Accounts of flow and capacity *)

(** Capacity of the edges leaving the source. *)
Definition out_capacity (g : Graph) : Z :=
  total (fun e => if from_node e =? source g then capacity e else 0) (edges g).

(** Remaining capacity on the edges leaving the source: it bounds the
    number of searches still to come. *)
Definition source_slack (g : Graph) : Z :=
  out_capacity g - net_out (edges g) (source g).

(** The forward edges of the store, in the order of the [add_edge] calls
    that made them: the edges at the even addresses. *)
Fixpoint forward_edges (E : list Edge) : list Edge :=
  match E with
  | d :: _ :: E' => d :: forward_edges E'
  | _ => []
  end.

(** The [add_edge] call a forward edge comes from. *)
Definition call_of (e : Edge) : Z * Z * Z :=
  (from_node e + 1, to_node e + 1, capacity e).

(** Flow on the forward edges into and out of a node. *)
Definition inflow (E : list Edge) (v : Z) : Z :=
  total (fun e => if to_node e =? v then flow e else 0) (forward_edges E).

Definition outflow (E : list Edge) (v : Z) : Z :=
  total (fun e => if from_node e =? v then flow e else 0) (forward_edges E).

(** Sum of the capacities asked for the edges leaving, and entering, a
    node (numbered from 1, as the callers do). *)
Definition capacity_leaving (s : Z) (calls : list (Z * Z * Z)) : Z :=
  foldr (fun call acc => (if call.1.1 =? s then call.2 else 0) + acc) 0 calls.

Definition capacity_entering (t : Z) (calls : list (Z * Z * Z)) : Z :=
  foldr (fun call acc => (if call.1.2 =? t then call.2 else 0) + acc) 0 calls.

(** ** Solving *)

(** The states solving goes through, from [g0]: any number of searches,
    possibly stopped between two updates of the flow, and of complete
    solves. *)
Inductive solving (g0 : Graph) : Graph → Prop :=
| solving_start : solving g0 g0
| solving_bfs g rounds : solving g0 g → solving g0 (snd (bfs_rounds rounds g))
| solving_edmonds_karp g fuel :
    solving g0 g → solving g0 (snd (edmonds_karp fuel g)).

(** ** The search by layers *)

(** [depth g prev v k]: the path recorded in [prev] from the source to
    [v] has [k] edges. *)
Definition depth (g : Graph) (prev : list (option nat)) (v : Z) (k : nat) : Prop :=
  ∃ p, walk (edges g) (source g) prev v p ∧ length p = k.

(** The queue holds its nodes by increasing depth. *)
Fixpoint ascending (g : Graph) (prev : list (option nat)) (q : list Z) : Prop :=
  match q with
  | [] => True
  | v :: q' =>
      (∀ v' k k', v' ∈ q' → depth g prev v k → depth g prev v' k' → (k <= k')%nat)
      ∧ ascending g prev q'
  end.

(** Every edge with remaining capacity that leaves [v] leads to a node
    with a recorded path, at most one edge longer than the one of [v]. *)
Definition closed_node (g : Graph) (prev : list (option nat)) (v : Z) : Prop :=
  ∀ a e, edges g !! a = Some e → from_node e = v → 0 < remaining_capacity e →
    ∃ k k', depth g prev v k ∧ depth g prev (to_node e) k' ∧ (k' <= S k)%nat.

(** While the edges leaving [u], at depth [h], are gone through: [todo]
    are the edges still to come and [done] the nodes whose edges have
    all been gone through. *)
Record scanning (g : Graph) (u : Z) (h : nat) (done : Z → Prop)
    (todo : list nat) (st : bfs_state) : Prop := {
  sc_depth : depth g (previous st) u h;
  sc_queue : ∀ v k, v ∈ bfs_queue st → depth g (previous st) v k → (h <= k)%nat;
  sc_sorted : ascending g (previous st) (bfs_queue st);
  sc_bound : ∀ v k, depth g (previous st) v k → (k <= S h)%nat;
  sc_done : ∀ v, done v → closed_node g (previous st) v;
  sc_cover : ∀ v, seen (visited st) v → v ∈ bfs_queue st ∨ done v ∨ v = u;
  sc_scanned : ∀ a e, edges g !! a = Some e → from_node e = u →
    0 < remaining_capacity e → a ∉ todo →
    ∃ k, depth g (previous st) (to_node e) k
}.

(** Between two rounds of the [while] loop. *)
Record layered (g : Graph) (done : Z → Prop) (st : bfs_state) : Prop := {
  la_sorted : ascending g (previous st) (bfs_queue st);
  la_bound : ∀ u rest h v k, bfs_queue st = u :: rest →
    depth g (previous st) u h → depth g (previous st) v k → (k <= S h)%nat;
  la_done : ∀ v, done v → closed_node g (previous st) v;
  la_cover : ∀ v, seen (visited st) v → v ∈ bfs_queue st ∨ done v;
  la_sink : ¬ done (sink g)
}.

(** What the search guarantees about the [previous] it leaves: the path
    recorded for the sink, if any, has no more edges than any augmenting
    path; and no path is recorded only if there is no augmenting path. *)
Definition search_post (g : Graph) (prev : list (option nat)) : Prop :=
  (∀ p q, walk (edges g) (source g) prev (sink g) p → augmenting g q →
          (length p <= length q)%nat)
  ∧ (prev !! Z.to_nat (sink g) = Some None → ∀ q, ¬ augmenting g q).

(** Edge [a] of the store leaves node [u]. *)
Definition leaves (E : list Edge) (u : nat) (a : nat) : bool :=
  match E !! a with
  | Some e => from_node e =? Z.of_nat u
  | None => false
  end.

(** The edges of the store that leave node [u], in the order they were
    created. *)
Definition leaving (E : list Edge) (u : nat) : list nat :=
  List.filter (leaves E u) (seq 0 (length E)).

(** ** Flows and cuts *)

(** A flow on the network [g]: a store [F] with the edges of [g], whose
    forward edges carry between 0 and their capacity and in which every
    node but the source and the sink receives as much as it sends. *)
Record flow_on (g : Graph) (F : list Edge) : Prop := {
  fo_shape : same_shape (edges g) F;
  fo_capacity : ∀ d, d ∈ forward_edges F → 0 <= flow d <= capacity d;
  fo_conservation : ∀ x, 0 <= x < num_nodes g → x ≠ source g → x ≠ sink g →
    inflow F x = outflow F x
}.

(** The value of a flow: what leaves the source, net. *)
Definition flow_value (g : Graph) (F : list Edge) : Z :=
  outflow F (source g) - inflow F (source g).

(** Node [v] is marked in [vis]. *)
Definition marked (vis : list bool) (v : Z) : bool :=
  (0 <=? v) && match vis !! Z.to_nat v with Some true => true | _ => false end.

(** Sum of [f] over the nodes [0 .. n - 1]. *)
Fixpoint node_sum (n : nat) (f : Z → Z) : Z :=
  match n with
  | O => 0
  | S n' => node_sum n' f + f (Z.of_nat n')
  end.

(** Capacity of the forward edges that go from the set [S] of nodes to
    the other nodes. *)
Definition cut_capacity (S : Z → bool) (E : list Edge) : Z :=
  total (fun d => if S (from_node d) && negb (S (to_node d)) then capacity d else 0)
    (forward_edges E).

(** Flow on the forward edges that leave [S] minus flow on those that
    enter it. *)
Definition cut_flow (S : Z → bool) (E : list Edge) : Z :=
  total (fun d => (if S (from_node d) then flow d else 0)
                  - (if S (to_node d) then flow d else 0))
    (forward_edges E).

(** The marks left by a search that did not reach the sink: the source
    is marked, the sink is not, and no edge with remaining capacity
    leads from a marked node to one that is not. *)
Definition closed_marks (g : Graph) (vis : list bool) : Prop :=
  marked vis (source g) = true ∧ marked vis (sink g) = false
  ∧ ∀ a e, edges g !! a = Some e → 0 < remaining_capacity e →
      marked vis (from_node e) = true → marked vis (to_node e) = true.

(** Capacity asked, in a sequence of [add_edge] calls, for the edges
    that go from the set [S] of nodes to the other nodes ([S] is on the
    indices the code uses, one less than the numbers of the callers). *)
Definition cut_of_calls (S : Z → bool) (calls : list (Z * Z * Z)) : Z :=
  foldr (fun call acc =>
           (if S (call.1.1 - 1) && negb (S (call.1.2 - 1)) then call.2 else 0)
           + acc) 0 calls.

(** The states between complete searches, from [g0]. *)
Inductive searched (g0 : Graph) : Graph → Prop :=
| searched_start : searched g0 g0
| searched_bfs g : searched g0 g → searched g0 (snd (bfs g)).

(** Proves [valid_network] of given numbers. *)
Ltac valid_network_tac :=
  unfold valid_network, valid_call;
  repeat match goal with
         | |- _ ∧ _ => split
         | |- Forall _ _ => constructor
         end; simpl; lia.

(** * Properties *)

(** ** Subscripts *)

Lemma py_index_in_range (len : nat) (i : Z) :
  0 <= i < Z.of_nat len → py_index len i = Some (Z.to_nat i).
Proof.
  intros Hi. unfold py_index.
  destruct (0 <=? i) eqn:H0; [|lia].
  destruct (i <? Z.of_nat len) eqn:H1; [reflexivity|lia].
Qed.

Lemma py_index_Some (len : nat) (i : Z) (k : nat) :
  py_index len i = Some k →
  (k < len)%nat ∧ - Z.of_nat len <= i < Z.of_nat len.
Proof.
  unfold py_index.
  destruct (0 <=? i) eqn:H0; destruct (i <? Z.of_nat len) eqn:H1; simpl;
    try (intros [= <-]; lia);
    destruct (- Z.of_nat len <=? i) eqn:H2; destruct (i <? 0) eqn:H3; simpl;
    try (intros [= <-]; lia); discriminate.
Qed.

Lemma py_index_None (len : nat) (i : Z) :
  py_index len i = None ↔ ¬ (- Z.of_nat len <= i < Z.of_nat len).
Proof.
  unfold py_index.
  destruct (0 <=? i) eqn:H0; destruct (i <? Z.of_nat len) eqn:H1; simpl;
    try (split; [discriminate | lia]);
    destruct (- Z.of_nat len <=? i) eqn:H2; destruct (i <? 0) eqn:H3; simpl;
    try (split; [discriminate | lia]); split; (reflexivity || lia).
Qed.

Lemma py_get_in_range {A} (l : list A) (i : Z) (x : A) :
  0 <= i → l !! Z.to_nat i = Some x → py_get l i = Return x.
Proof.
  intros Hi Hx. unfold py_get.
  rewrite py_index_in_range, Hx; [reflexivity|].
  apply lookup_lt_Some in Hx. lia.
Qed.

Lemma py_set_in_range {A} (l : list A) (i : Z) (x : A) :
  0 <= i < Z.of_nat (length l) → py_set l i x = Return (<[Z.to_nat i := x]> l).
Proof. intros Hi. unfold py_set. now rewrite py_index_in_range. Qed.

(** ** The solve loop and its bound *)

Lemma edmonds_karp_loop_more_fuel (fuel extra : nat) g max_flow flow v g' :
  edmonds_karp_loop fuel g max_flow flow = (Return v, g') →
  edmonds_karp_loop (fuel + extra) g max_flow flow = (Return v, g').
Proof.
  revert g max_flow flow. induction fuel as [|fuel IH]; intros g max_flow flow.
  - simpl. destruct (0 <? flow) eqn:Hf; [discriminate|].
    intros [= <- <-]. destruct extra; simpl; now rewrite Hf.
  - simpl. destruct (0 <? flow); [|easy].
    destruct (bfs g) as [[fl| |] g1]; try easy. apply IH.
Qed.

Lemma edmonds_karp_more_fuel (fuel fuel' : nat) g v g' :
  edmonds_karp fuel g = (Return v, g') → (fuel <= fuel')%nat →
  edmonds_karp fuel' g = (Return v, g').
Proof.
  intros H Hle. replace fuel' with (fuel + (fuel' - fuel))%nat by lia.
  now apply edmonds_karp_loop_more_fuel.
Qed.

(** ** Scenario 1 *)

(** C1: on the first network of the [__main__] block (nodes 1..10, source
    1, sink 10, the thirteen edges in the order given) [edmonds_karp]
    returns exactly 7; three searches are needed, and any larger bound on
    the number of searches gives the same answer. *)
Theorem scenario1_max_flow (fuel : nat) :
  (3 <= fuel)%nat → fst (edmonds_karp fuel scenario1) = Return 7.
Proof.
  intros Hfuel.
  destruct (edmonds_karp 3 scenario1) as [r g'] eqn:H3.
  assert (Hr : r = Return 7) by (apply (f_equal fst) in H3; vm_compute in H3; congruence).
  subst r. now rewrite (edmonds_karp_more_fuel 3 fuel _ _ _ H3 Hfuel).
Qed.

Lemma scenario1_max_flow_witness :
  (3 <= 5)%nat ∧ fst (edmonds_karp 5 scenario1) = Return 7.
Proof. split; [lia | apply (scenario1_max_flow 5); lia]. Defined.

(** The second network of the [__main__] block has maximum flow 20. *)
Example scenario2_max_flow : fst (edmonds_karp 5 scenario2) = Return 20.
Proof. vm_compute. reflexivity. Qed.

(** ** Argument checking *)

Lemma append_at_Return adj i a :
  subscript_ok (length adj) i →
  ∃ adj', append_at adj i a = Return adj' ∧ length adj' = length adj.
Proof.
  intros Hi. unfold append_at.
  destruct (py_index (length adj) i) as [k|] eqn:Hk.
  - eexists; split; [reflexivity|]. apply length_alter.
  - apply py_index_None in Hk. contradiction.
Qed.

Lemma append_at_Raise adj i a :
  ¬ subscript_ok (length adj) i → append_at adj i a = Raise IndexError.
Proof.
  intros Hi. unfold append_at.
  now rewrite (proj2 (py_index_None (length adj) i) Hi).
Qed.

(** The claim of C2 fails on the code: nothing is checked.  A negative
    capacity and an endpoint 0 are accepted by [add_edge]; a graph with no
    node, and one whose source is its sink, are constructed; the first
    only fails when it is solved, the second never. *)
Lemma no_argument_checking :
  fst (add_edge (Graph_init 2 1 2) 1 2 (-5)) = Return tt
  ∧ capacity <$> edges (snd (add_edge (Graph_init 2 1 2) 1 2 (-5))) !! 0%nat = Some (-5)
  ∧ fst (add_edge (Graph_init 2 1 2) 0 2 5) = Return tt
  ∧ graph (Graph_init 0 1 1) = []
  ∧ fst (edmonds_karp 1 (Graph_init 0 1 1)) = Raise IndexError
  ∧ fst (edmonds_karp 1 (Graph_init 3 2 2)) = Return 0.
Proof. repeat split; reflexivity. Qed.

(** C2, as the code has it: the constructor stores what it is given
    (one empty adjacency list per node, none for a non-positive node
    count; source and sink one less than given) and cannot fail.
    [add_edge] never looks at the capacity: it returns when both
    [from_node - 1] and [to_node - 1] are subscripts Python accepts for
    the adjacency list (from minus its length up to its length,
    excluded), and raises [IndexError] otherwise. *)
Theorem add_edge_raises_iff (n s t : Z) (g : Graph) (u v c : Z) :
  (num_nodes (Graph_init n s t) = n
   ∧ source (Graph_init n s t) = s - 1
   ∧ sink (Graph_init n s t) = t - 1
   ∧ graph (Graph_init n s t) = replicate (Z.to_nat n) []
   ∧ edges (Graph_init n s t) = [])
  ∧ (fst (add_edge g u v c) = Return tt
     ↔ subscript_ok (length (graph g)) (u - 1)
       ∧ subscript_ok (length (graph g)) (v - 1))
  ∧ (fst (add_edge g u v c) = Raise IndexError
     ↔ ¬ (subscript_ok (length (graph g)) (u - 1)
          ∧ subscript_ok (length (graph g)) (v - 1))).
Proof.
  split; [repeat split|].
  unfold add_edge. cbn [graph with_edges with_graph].
  destruct (decide (subscript_ok (length (graph g)) (u - 1))) as [Hu|Hu].
  - destruct (append_at_Return (graph g) (u - 1) (length (edges g)) Hu)
      as (adj1 & -> & Hlen).
    destruct (decide (subscript_ok (length (graph g)) (v - 1))) as [Hv|Hv].
    + rewrite <- Hlen in Hv.
      destruct (append_at_Return adj1 (v - 1) (S (length (edges g))) Hv)
        as (adj2 & -> & _).
      rewrite Hlen in Hv. cbn. split; split; try tauto; try discriminate.
    + rewrite <- Hlen in Hv. rewrite (append_at_Raise _ _ _ Hv).
      rewrite Hlen in Hv. cbn. split; split; try tauto; try discriminate.
  - rewrite (append_at_Raise _ _ _ Hu). cbn.
    split; split; try tauto; try discriminate.
Qed.

(** ** The store of edges: pairing of an edge and its residual *)

Lemma paired_nil : paired [].
Proof. intros a e H. rewrite lookup_nil in H. discriminate. Qed.

Lemma paired_alloc E d r :
  paired E →
  residual d = Some (S (length E)) → residual r = Some (length E) →
  flow d = 0 → flow r = 0 →
  paired (E ++ [d; r]).
Proof.
  intros HE Hd Hr Hfd Hfr a e Ha.
  assert (Hd' : (E ++ [d; r]) !! length E = Some d).
  { rewrite lookup_app_r by lia. now rewrite Nat.sub_diag. }
  assert (Hr' : (E ++ [d; r]) !! S (length E) = Some r).
  { rewrite lookup_app_r by lia.
    now replace (S (length E) - length E)%nat with 1%nat by lia. }
  destruct (decide (a < length E)%nat) as [Hlt|Hge].
  - rewrite lookup_app_l in Ha by assumption.
    destruct (HE a e Ha) as (r0 & e' & H1 & H2 & H3 & H4 & H5).
    exists r0, e'. repeat split; try assumption.
    rewrite lookup_app_l; [assumption|]. now apply lookup_lt_Some in H3.
  - rewrite lookup_app_r in Ha by lia.
    destruct (a - length E)%nat as [|[|k]] eqn:Hk; simpl in Ha.
    + injection Ha as <-. exists (S (length E)), r.
      repeat split; try assumption; try lia.
      rewrite Hr. f_equal. lia.
    + injection Ha as <-. exists (length E), d.
      repeat split; try assumption; try lia.
      rewrite Hd. f_equal. lia.
    + rewrite lookup_nil in Ha. discriminate.
Qed.

Lemma push_flow_paired E a b :
  paired E → (a < length E)%nat →
  ∃ E', push_flow E a b = (Return tt, E') ∧ paired E' ∧ length E' = length E.
Proof.
  intros HE Ha. unfold push_flow.
  destruct (lookup_lt_is_Some_2 E a Ha) as [e He]. rewrite He.
  destruct (HE a e He) as (r & er & Hr & Hne & Her & Hra & Hfl).
  rewrite Hr, list_lookup_insert_ne, Her by congruence.
  eexists; split; [reflexivity|]. split; [|now rewrite !length_insert].
  pose proof (lookup_lt_Some _ _ _ Her) as Hrlt.
  assert (Hnew_a : <[r:=set_flow er (flow er - b)]>
                     (<[a:=set_flow e (flow e + b)]> E) !! a
                   = Some (set_flow e (flow e + b))).
  { rewrite list_lookup_insert_ne by congruence.
    now apply list_lookup_insert_eq. }
  assert (Hnew_r : <[r:=set_flow er (flow er - b)]>
                     (<[a:=set_flow e (flow e + b)]> E) !! r
                   = Some (set_flow er (flow er - b))).
  { apply list_lookup_insert_eq. now rewrite length_insert. }
  intros x ex Hx.
  destruct (decide (x = r)) as [->|Hxr].
  { rewrite Hnew_r in Hx. injection Hx as <-.
    exists a, (set_flow e (flow e + b)). simpl. repeat split; try assumption; try congruence.
    lia. }
  destruct (decide (x = a)) as [->|Hxa].
  { rewrite Hnew_a in Hx. injection Hx as <-.
    exists r, (set_flow er (flow er - b)). simpl. repeat split; try assumption.
    lia. }
  rewrite !list_lookup_insert_ne in Hx by congruence.
  destruct (HE x ex Hx) as (rx & ex' & H1 & H2 & H3 & H4 & H5).
  exists rx, ex'. repeat split; try assumption.
  rewrite !list_lookup_insert_ne; [assumption| |].
  - intros ->. rewrite He in H3. injection H3 as <-. congruence.
  - intros ->. rewrite Her in H3. injection H3 as <-. congruence.
Qed.

Lemma py_get_Return {A} (l : list A) i x :
  py_get l i = Return x → ∃ k, py_index (length l) i = Some k ∧ l !! k = Some x.
Proof.
  unfold py_get. destruct (py_index (length l) i) as [k|]; [|discriminate].
  destruct (l !! k) eqn:Hk; [|discriminate]. intros [= <-]. now exists k.
Qed.

Lemma py_set_Return {A} (l : list A) i x l' :
  py_set l i x = Return l' →
  ∃ k, py_index (length l) i = Some k ∧ l' = <[k := x]> l.
Proof.
  unfold py_set. destruct (py_index (length l) i) as [k|]; [|discriminate].
  intros [= <-]. now exists k.
Qed.

Lemma deref_Return E a e : deref E a = Return e ↔ E !! a = Some e.
Proof.
  unfold deref. destruct (E !! a); split; intros H; try discriminate;
    injection H as <-; reflexivity.
Qed.

Lemma bind_Return {A B} (m : outcome A) (k : A → outcome B) b :
  bind m k = Return b → ∃ a, m = Return a ∧ k a = Return b.
Proof. destruct m; simpl; intros H; try discriminate. now exists a. Qed.

Lemma usable_allocated E previous : usable E previous → allocated E previous.
Proof.
  intros H k a Hk. destruct (H k a Hk) as (e & He & _).
  now apply lookup_lt_Some in He.
Qed.

Lemma usable_insert E previous k a e :
  usable E previous → E !! a = Some e → 0 < remaining_capacity e →
  usable E (<[k := Some a]> previous).
Proof.
  intros Hp Ha Hcap j x Hj.
  destruct (decide (j = k)) as [->|Hne].
  - destruct (decide (k < length previous)%nat).
    + rewrite list_lookup_insert_eq in Hj by assumption.
      injection Hj as <-. eauto.
    + rewrite list_insert_ge in Hj by lia. eauto.
  - rewrite list_lookup_insert_ne in Hj by congruence. eauto.
Qed.

Lemma visit_edge_usable E st a st' :
  visit_edge E st a = Return st' →
  usable E (previous st) → usable E (previous st').
Proof.
  unfold visit_edge. intros H Hp.
  apply bind_Return in H as (e & He & H). apply deref_Return in He.
  destruct (0 <? remaining_capacity e) eqn:Hcap; [|now injection H as <-].
  apply bind_Return in H as (seen & _ & H).
  destruct (negb seen); [|now injection H as <-].
  apply bind_Return in H as (vis' & _ & H).
  apply bind_Return in H as (prev' & Hset & H). injection H as <-. simpl.
  apply py_set_Return in Hset as (k & _ & ->).
  apply usable_insert with e; [assumption..|lia].
Qed.

Lemma visit_edges_usable E row st st' :
  visit_edges E st row = Return st' →
  usable E (previous st) → usable E (previous st').
Proof.
  revert st. induction row as [|a row IH]; simpl; intros st H Hp.
  - now injection H as <-.
  - apply bind_Return in H as (st1 & H1 & H). eauto using visit_edge_usable.
Qed.

Lemma bfs_loop_usable fuel g st st' :
  bfs_loop fuel g st = Return st' →
  usable (edges g) (previous st) → usable (edges g) (previous st').
Proof.
  revert st. induction fuel as [|fuel IH]; intros st; simpl;
    destruct (bfs_queue st) as [|u rest]; intros H Hp;
    try discriminate; try (now injection H as <-).
  destruct (u =? sink g); [now injection H as <-|].
  apply bind_Return in H as (row & _ & H).
  apply bind_Return in H as (st2 & H2 & H).
  apply IH in H; [assumption|].
  now apply (visit_edges_usable _ _ _ _ H2).
Qed.

Lemma bfs_search_usable g previous :
  bfs_search g = Return previous → usable (edges g) previous.
Proof.
  unfold bfs_search, bfs_start. intros H.
  apply bind_Return in H as (st0 & H0 & H).
  apply bind_Return in H0 as (vis & _ & H0). injection H0 as <-.
  apply bind_Return in H as (st & Hloop & H). injection H as <-.
  apply (bfs_loop_usable _ _ _ _ Hloop). simpl.
  intros k a Hk. unfold py_repeat in Hk.
  apply lookup_replicate in Hk as [? _]. discriminate.
Qed.

Lemma bfs_search_allocated g previous :
  bfs_search g = Return previous → allocated (edges g) previous.
Proof. intros H. now apply usable_allocated, bfs_search_usable. Qed.

(** The bottleneck of a recorded path is positive: the search records
    only edges with remaining capacity and the store does not change
    between the search and the first backtracking loop. *)
Lemma bottleneck_loop_positive fuel E previous m a b :
  usable E previous →
  (∃ e, E !! a = Some e ∧ 0 < remaining_capacity e) →
  (∀ z, m = Some z → 0 < z) →
  bottleneck_loop fuel E previous m a = Return b → 0 < b.
Proof.
  intros Hp. revert m a. induction fuel as [|fuel IH]; intros m a Ha Hm; simpl;
    [discriminate|].
  destruct Ha as (e & He & Hcap). unfold deref. rewrite He. simpl.
  assert (Hmin : 0 < py_min m (remaining_capacity e)).
  { destruct m as [z|]; simpl; [|assumption]. specialize (Hm z eq_refl). lia. }
  intros H. apply bind_Return in H as (next & Hnext & H).
  destruct next as [a'|]; [|now injection H as <-].
  apply py_get_Return in Hnext as (k & _ & Hk).
  apply IH in H; [assumption|eauto|]. now intros z [= <-].
Qed.

(** A search either finds no path, returns 0 and leaves the graph as it
    was, or returns a positive bottleneck. *)
Lemma bfs_rounds_zero_or_positive rounds g fl g' :
  bfs_rounds rounds g = (Return fl, g') → (fl = 0 ∧ g' = g) ∨ 0 < fl.
Proof.
  unfold bfs_rounds.
  destruct (bfs_search g) as [previous| |] eqn:Hs; try discriminate.
  destruct (py_get previous (sink g)) as [[a|]| |] eqn:Hsink; try discriminate.
  - destruct (bottleneck_loop _ _ _ _ _) as [b| |] eqn:Hb; try discriminate.
    destruct (augment_loop _ _ _ _ _) as [[u|e|] E']; try discriminate.
    intros [= <- <-]. right.
    pose proof (bfs_search_usable _ _ Hs) as Hp.
    apply py_get_Return in Hsink as (k & _ & Hk).
    apply (bottleneck_loop_positive _ _ _ _ _ _ Hp (Hp k a Hk)) in Hb;
      [assumption|discriminate].
  - intros [= <- <-]. now left.
Qed.

Lemma augment_loop_paired fuel previous b edge E :
  paired E → allocated E previous →
  (∀ a, edge = Some a → (a < length E)%nat) →
  paired (snd (augment_loop fuel previous b edge E))
  ∧ length (snd (augment_loop fuel previous b edge E)) = length E.
Proof.
  revert edge E. induction fuel as [|fuel IH]; intros edge E HE Hp Hedge.
  - destruct edge; simpl; auto.
  - destruct edge as [a|]; simpl; [|auto].
    destruct (push_flow_paired E a b HE (Hedge a eq_refl)) as (E' & -> & HE' & Hlen).
    destruct (E' !! a) as [e'|]; [|simpl; auto].
    destruct (py_get previous (from_node e')) as [next| |] eqn:Hnext; simpl; auto.
    apply py_get_Return in Hnext as (k & _ & Hk).
    destruct (IH next E') as [H1 H2].
    + assumption.
    + intros j x Hj. rewrite Hlen. eauto.
    + intros x ->. rewrite Hlen. eauto.
    + split; [assumption | congruence].
Qed.

Lemma bfs_rounds_paired rounds g :
  paired (edges g) → paired (edges (snd (bfs_rounds rounds g))).
Proof.
  intros HE. unfold bfs_rounds.
  destruct (bfs_search g) as [previous| |] eqn:Hs; try assumption.
  destruct (py_get previous (sink g)) as [[a|]| |] eqn:Hsink; try assumption.
  destruct (bottleneck_loop _ _ _ _ _) as [b| |]; try assumption.
  pose proof (bfs_search_allocated _ _ Hs) as Hp.
  apply py_get_Return in Hsink as (k & _ & Hk).
  destruct (augment_loop_paired rounds previous b (Some a) (edges g) HE Hp) as [H _].
  { intros x [= <-]. eauto. }
  destruct (augment_loop rounds previous b (Some a) (edges g)) as [[u|e|] E'];
    exact H.
Qed.

Lemma edmonds_karp_loop_paired fuel g max_flow flow :
  paired (edges g) →
  paired (edges (snd (edmonds_karp_loop fuel g max_flow flow))).
Proof.
  revert g max_flow flow. induction fuel as [|fuel IH]; intros g m f HE; simpl.
  - destruct (0 <? f); assumption.
  - destruct (0 <? f); [|assumption].
    pose proof (bfs_rounds_paired (Z.to_nat (num_nodes g)) g HE) as H.
    fold (bfs g) in H.
    destruct (bfs g) as [[fl|e|] g1]; simpl in H; auto.
Qed.

Lemma add_edge_paired g u v c :
  paired (edges g) → paired (edges (snd (add_edge g u v c))).
Proof.
  intros HE. unfold add_edge.
  assert (paired (edges g ++
            [set_residual (Edge_init c u v) (S (length (edges g)));
             set_residual (Edge_init 0 v u) (length (edges g))]))
    by (apply paired_alloc; auto).
  destruct (append_at _ (u - 1) _) as [adj1| |]; try assumption.
  cbn [graph with_graph].
  destruct (append_at _ (v - 1) _) as [adj2| |]; assumption.
Qed.

Lemma reachable_paired g : reachable g → paired (edges g).
Proof.
  induction 1.
  - apply paired_nil.
  - now apply add_edge_paired.
  - now apply bfs_rounds_paired.
  - now apply edmonds_karp_loop_paired.
Qed.

(** C3: in every state a graph can be brought to (after construction,
    after any [add_edge], between any two updates of the flow inside
    [bfs], after [bfs] and after [edmonds_karp]) every edge [e] of the
    store has a residual [e.residual] in the store with
    [e.residual.residual] being [e] itself and
    [e.flow == - e.residual.flow]. *)
Theorem residual_flow_opposite (g : Graph) (a : nat) (e : Edge) :
  reachable g → edges g !! a = Some e →
  ∃ r e', residual e = Some r ∧ edges g !! r = Some e'
          ∧ residual e' = Some a ∧ flow e = - flow e'.
Proof.
  intros Hg Ha. destruct (reachable_paired g Hg a e Ha) as (r & e' & ? & ? & ? & ? & ?).
  now exists r, e'.
Qed.

(** ** Pushing flow along a list of edges *)

Lemma same_shape_refl E : same_shape E E.
Proof. reflexivity. Qed.

Lemma same_shape_trans E1 E2 E3 :
  same_shape E1 E2 → same_shape E2 E3 → same_shape E1 E3.
Proof. unfold same_shape. congruence. Qed.

Lemma same_shape_length E E' : same_shape E E' → length E = length E'.
Proof.
  intros H. apply (f_equal length) in H. now rewrite !length_fmap in H.
Qed.

Lemma same_shape_lookup E E' a e :
  same_shape E E' → E !! a = Some e →
  ∃ e', E' !! a = Some e' ∧ capacity e' = capacity e
        ∧ from_node e' = from_node e ∧ to_node e' = to_node e
        ∧ residual e' = residual e.
Proof.
  intros H Ha. apply (f_equal (fun l => l !! a)) in H.
  rewrite !list_lookup_fmap, Ha in H. simpl in H.
  destruct (E' !! a) as [e'|]; [|discriminate].
  injection H as H1 H2 H3 H4. now exists e'.
Qed.

Lemma same_shape_sym E E' : same_shape E E' → same_shape E' E.
Proof. unfold same_shape. congruence. Qed.

Lemma same_shape_insert E a e f :
  E !! a = Some e → same_shape E (<[a := set_flow e f]> E).
Proof.
  intros Ha. unfold same_shape. rewrite list_fmap_insert.
  symmetry. apply list_insert_id. now rewrite list_lookup_fmap, Ha.
Qed.

Lemma push_flow_pushed E a e b :
  paired E → E !! a = Some e →
  ∃ r er, residual e = Some r ∧ r ≠ a ∧ E !! r = Some er
          ∧ flow e = - flow er
          ∧ push_flow E a b = (Return tt, pushed E a r e er b).
Proof.
  intros HE He. destruct (HE a e He) as (r & er & Hr & Hne & Her & Hra & Hfl).
  exists r, er. repeat split; try assumption.
  unfold push_flow, pushed. now rewrite He, Hr, list_lookup_insert_ne, Her by congruence.
Qed.

Lemma lookup_pushed E a r e er b x :
  E !! a = Some e → E !! r = Some er → r ≠ a →
  pushed E a r e er b !! x =
    if decide (x = a) then Some (set_flow e (flow e + b))
    else if decide (x = r) then Some (set_flow er (flow er - b))
    else E !! x.
Proof.
  intros He Her Hne. unfold pushed.
  apply lookup_lt_Some in He as Ha. apply lookup_lt_Some in Her as Hr.
  destruct (decide (x = a)) as [->|Hxa].
  - rewrite list_lookup_insert_ne by congruence.
    now apply list_lookup_insert_eq.
  - destruct (decide (x = r)) as [->|Hxr].
    + apply list_lookup_insert_eq. now rewrite length_insert.
    + now rewrite !list_lookup_insert_ne by congruence.
Qed.

Lemma same_shape_pushed E a r e er b :
  E !! a = Some e → E !! r = Some er → r ≠ a →
  same_shape E (pushed E a r e er b).
Proof.
  intros He Her Hne. unfold pushed.
  eapply same_shape_trans; [apply (same_shape_insert E a e), He|].
  apply same_shape_insert. now rewrite list_lookup_insert_ne by congruence.
Qed.

Lemma push_all_cons E a p b :
  push_all E (a :: p) b = push_all (snd (push_flow E a b)) p b.
Proof. reflexivity. Qed.

(** Pushing [b] along distinct edges that each have at least [b] left
    keeps the flows opposite and within the capacities. *)
Lemma push_all_feasible p : ∀ E b,
  paired E → feasible E → 0 <= b → NoDup p →
  (∀ a, a ∈ p → ∃ e, E !! a = Some e ∧ b <= remaining_capacity e) →
  paired (push_all E p b) ∧ feasible (push_all E p b)
  ∧ same_shape E (push_all E p b).
Proof.
  induction p as [|a p IH]; intros E b HP HF Hb Hnd Hcap.
  - simpl. auto using same_shape_refl.
  - rewrite push_all_cons.
    destruct (Hcap a) as (e & He & Hbe); [left|].
    destruct (push_flow_pushed E a e b HP He) as (r & er & Hr & Hne & Her & Hfl & Hpush).
    destruct (push_flow_paired E a b HP) as (E1 & Hpush1 & HP1 & _);
      [now apply lookup_lt_Some in He|].
    rewrite Hpush in Hpush1. injection Hpush1 as <-.
    rewrite Hpush. simpl.
    apply NoDup_cons in Hnd as [Hnotin Hnd].
    assert (HF1 : feasible (pushed E a r e er b)).
    { intros x ex. rewrite (lookup_pushed E a r e er b x He Her Hne).
      repeat case_decide; intros Hx.
      - injection Hx as <-. unfold remaining_capacity in *. simpl. lia.
      - injection Hx as <-. specialize (HF r er Her).
        unfold remaining_capacity in *. simpl. lia.
      - eauto. }
    destruct (IH (pushed E a r e er b) b HP1 HF1 Hb Hnd) as (H1 & H2 & H3).
    { intros x Hx. rewrite (lookup_pushed E a r e er b x He Her Hne).
      destruct (Hcap x) as (ex & Hex & Hbx); [now right|].
      repeat case_decide.
      - subst x. contradiction.
      - subst x. eexists; split; [reflexivity|].
        rewrite Her in Hex. injection Hex as <-.
        unfold remaining_capacity in *. simpl. lia.
      - eauto. }
    repeat split; try assumption.
    eapply same_shape_trans; [|exact H3]. now apply same_shape_pushed.
Qed.

(** ** Sums over the store *)

Lemma total_insert f E a e e' :
  E !! a = Some e → total f (<[a := e']> E) = total f E - f e + f e'.
Proof.
  revert a. induction E as [|x E IH]; intros a Ha; [now rewrite lookup_nil in Ha|].
  destruct a as [|a]; simpl in *.
  - injection Ha as ->. lia.
  - rewrite (IH a Ha). lia.
Qed.

Lemma total_ext f f' E :
  (∀ e, e ∈ E → f e = f' e) → total f E = total f' E.
Proof.
  induction E as [|x E IH]; intros H; simpl; [reflexivity|].
  rewrite H by left. rewrite IH; [reflexivity|]. intros e He. apply H. now right.
Qed.

Lemma total_le f f' E :
  (∀ e, e ∈ E → f e <= f' e) → total f E <= total f' E.
Proof.
  induction E as [|x E IH]; intros H; simpl; [lia|].
  specialize (H x) as Hx. specialize (Hx ltac:(left)).
  assert (total f E <= total f' E) by (apply IH; intros e He; apply H; now right).
  lia.
Qed.

Lemma total_nonneg f E : (∀ e, e ∈ E → 0 <= f e) → 0 <= total f E.
Proof.
  induction E as [|x E IH]; intros H; simpl; [lia|].
  specialize (H x) as Hx. specialize (Hx ltac:(left)).
  assert (0 <= total f E) by (apply IH; intros e He; apply H; now right).
  lia.
Qed.

Lemma net_out_pushed E a r e er b v :
  E !! a = Some e → E !! r = Some er → r ≠ a →
  from_node er = to_node e →
  net_out (pushed E a r e er b) v =
    net_out E v + (if from_node e =? v then b else 0)
                - (if to_node e =? v then b else 0).
Proof.
  intros He Her Hne Hfrom. unfold net_out, pushed.
  rewrite (total_insert _ _ r er) by (now rewrite list_lookup_insert_ne by congruence).
  rewrite (total_insert _ _ a e) by assumption.
  simpl. rewrite Hfrom.
  destruct (from_node e =? v); destruct (to_node e =? v); lia.
Qed.

(** ** Well-formed networks *)

Lemma twins_reversed E : twins E → reversed E.
Proof.
  intros HT a e r er He Hr Her.
  destruct (Nat.Even_or_Odd a) as [[k ->]|[k ->]].
  - destruct (HT k e He) as (r' & Hr' & Hres & _ & Hfrom & _).
    assert (r = S (2 * k)) by congruence. subst r. congruence.
  - replace (2 * k + 1)%nat with (S (2 * k)) in He by lia.
    destruct (lookup_lt_is_Some_2 E (2 * k)%nat) as [d Hd].
    { apply lookup_lt_Some in He. lia. }
    destruct (HT k d Hd) as (r' & Hr' & _ & Hres & _ & Hto & _).
    assert (r' = e) by congruence. subst r'.
    assert (r = (2 * k)%nat) by congruence. subst r. congruence.
Qed.

Lemma twins_same_shape E E' : same_shape E E' → twins E → twins E'.
Proof.
  intros HS HT k d' Hd'.
  destruct (same_shape_lookup E' E _ _ (same_shape_sym _ _ HS) Hd')
    as (d & Hd & Hc & Hf & Ht & Hr).
  destruct (HT k d Hd) as (r & Hr0 & H1 & H2 & H3 & H4 & H5 & H6).
  destruct (same_shape_lookup E E' _ _ HS Hr0) as (r' & Hr' & Hc' & Hf' & Ht' & Hres').
  exists r'. repeat split; congruence || lia.
Qed.

Lemma well_formed_same_shape g E' :
  well_formed g → same_shape (edges g) E' → well_formed (with_edges g E').
Proof.
  intros [] HS. split; simpl; try assumption.
  - intros u row a Hrow Ha. destruct (wf_row0 u row a Hrow Ha) as (e & He & Hf).
    destruct (same_shape_lookup _ _ _ _ HS He) as (e' & He' & _ & Hf' & _).
    exists e'. split; congruence.
  - intros a e' He'.
    destruct (same_shape_lookup _ _ _ _ (same_shape_sym _ _ HS) He')
      as (e & He & _ & Hf & Ht & _).
    destruct (wf_edge0 a e He) as (H1 & H2 & H3). rewrite <- Hf, <- Ht in *. auto.
  - now apply (twins_same_shape (edges g)).
Qed.

Lemma chain_same_shape E E' s v p :
  same_shape E E' → chain E s v p → chain E' s v p.
Proof.
  intros HS. induction 1 as [|v a e p He Hto _ IH]; [constructor|].
  destruct (same_shape_lookup _ _ _ _ HS He) as (e' & He' & _ & Hf & Ht & _).
  apply chain_cons with e'; [assumption|congruence|]. now rewrite Hf.
Qed.

(** Pushing [b] along a chain from [s] to [v] moves [b] units of net
    outflow from [v] to [s] and leaves every other node as it was. *)
Lemma net_out_push_all p : ∀ E s v b x,
  paired E → reversed E → chain E s v p →
  net_out (push_all E p b) x =
    net_out E x + (if s =? x then b else 0) - (if v =? x then b else 0).
Proof.
  induction p as [|a p IH]; intros E s v b x HP HR Hch.
  - inversion Hch; subst. simpl. lia.
  - inversion Hch as [|v' a' e p' He Hto Hrest]; subst.
    rewrite push_all_cons.
    destruct (push_flow_pushed E a e b HP He) as (r & er & Hr & Hne & Her & Hfl & Hpush).
    destruct (push_flow_paired E a b HP) as (E1 & Hpush1 & HP1 & _);
      [now apply lookup_lt_Some in He|].
    rewrite Hpush in Hpush1. injection Hpush1 as <-. rewrite Hpush. simpl.
    pose proof (same_shape_pushed E a r e er b He Her Hne) as HS.
    rewrite (IH _ s (from_node e) b x HP1).
    + rewrite (net_out_pushed E a r e er b x He Her Hne (HR _ _ _ _ He Hr Her)). lia.
    + intros a1 e1 r1 er1 H1 H2 H3.
      destruct (same_shape_lookup _ _ _ _ (same_shape_sym _ _ HS) H1)
        as (e1' & He1' & _ & Hf1 & Ht1 & Hr1).
      destruct (same_shape_lookup _ _ _ _ (same_shape_sym _ _ HS) H3)
        as (er1' & Her1' & _ & Hf2 & Ht2 & Hr2).
      rewrite <- Hf2, <- Ht1. apply (HR a1 e1' r1 er1'); congruence.
    + now apply (chain_same_shape E).
Qed.

(** ** The search of [bfs] on a well-formed network *)

Lemma trues_le l : (trues l <= length l)%nat.
Proof. induction l as [|[] l IH]; simpl; lia. Qed.

Lemma trues_insert l k :
  l !! k = Some false → trues (<[k := true]> l) = S (trues l).
Proof.
  revert k. induction l as [|b l IH]; intros k Hk; [now rewrite lookup_nil in Hk|].
  destruct k as [|k]; simpl in *.
  - injection Hk as ->. reflexivity.
  - rewrite (IH k Hk). lia.
Qed.

Lemma seen_insert vis k v : seen vis v → seen (<[k := true]> vis) v.
Proof.
  intros [H0 Hv]. split; [assumption|].
  destruct (decide (k = Z.to_nat v)) as [->|Hne].
  - apply list_lookup_insert_eq. now apply lookup_lt_Some in Hv.
  - now rewrite list_lookup_insert_ne.
Qed.

Lemma walk_mono E s prev prev' v p :
  (∀ j y, prev !! j = Some (Some y) → prev' !! j = Some (Some y)) →
  walk E s prev v p → walk E s prev' v p.
Proof.
  intros Hmono. induction 1; [constructor|]. eapply walk_cons; eauto.
Qed.

Lemma visit_edge_cases g st a e :
  well_formed g →
  length (visited st) = Z.to_nat (num_nodes g) →
  length (previous st) = Z.to_nat (num_nodes g) →
  edges g !! a = Some e →
  (visit_edge (edges g) st a = Return st
   ∧ (remaining_capacity e <= 0 ∨ seen (visited st) (to_node e)))
  ∨ (visit_edge (edges g) st a = Return (discover st a (to_node e))
     ∧ 0 < remaining_capacity e
     ∧ visited st !! Z.to_nat (to_node e) = Some false).
Proof.
  intros Hwf Hlv Hlp He. unfold visit_edge, deref. rewrite He. simpl.
  destruct (wf_edge g Hwf a e He) as (_ & Hto & _).
  destruct (0 <? remaining_capacity e) eqn:Hcap; [|left; split; [reflexivity|lia]].
  destruct (lookup_lt_is_Some_2 (visited st) (Z.to_nat (to_node e))) as [b Hb]; [lia|].
  rewrite (py_get_in_range _ _ b) by (assumption || lia). simpl.
  destruct b; simpl.
  - left. split; [reflexivity|]. right. split; [lia|assumption].
  - right. rewrite !py_set_in_range by lia. simpl.
    split; [reflexivity|]. split; [lia|assumption].
Qed.

Lemma unseen_no_previous g st k :
  bfs_inv g st → visited st !! k = Some false → previous st !! k = Some None.
Proof.
  intros Hinv Hk.
  destruct (lookup_lt_is_Some_2 (previous st) k) as [[a|] Ha].
  - rewrite (inv_len_prev _ _ Hinv), <- (inv_len_vis _ _ Hinv).
    now apply lookup_lt_Some in Hk.
  - destruct (inv_prev _ _ Hinv k a Ha) as (_ & _ & _ & _ & _ & ?). congruence.
  - assumption.
Qed.

Lemma discover_inv g st a e :
  well_formed g → bfs_inv g st → edges g !! a = Some e →
  0 < remaining_capacity e → seen (visited st) (from_node e) →
  visited st !! Z.to_nat (to_node e) = Some false →
  bfs_inv g (discover st a (to_node e)).
Proof.
  intros Hwf Hinv He Hcap Hfrom Hnew.
  destruct (wf_edge g Hwf a e He) as (_ & Hto & _).
  pose proof (unseen_no_previous _ _ _ Hinv Hnew) as Hnone.
  assert (Hkeep : ∀ j y, previous st !! j = Some (Some y) →
            <[Z.to_nat (to_node e) := Some a]> (previous st) !! j = Some (Some y)).
  { intros j y Hj. rewrite list_lookup_insert_ne; [assumption|]. congruence. }
  destruct Hinv as [Hlv Hlp Hq Hs Hsp Hp Hw]. split; simpl.
  - now rewrite length_insert.
  - now rewrite length_insert.
  - intros v Hv. apply elem_of_app in Hv as [Hv|Hv].
    + now apply seen_insert, Hq.
    + apply list_elem_of_singleton in Hv as ->. split; [lia|].
      apply list_lookup_insert_eq. lia.
  - now apply seen_insert.
  - rewrite list_lookup_insert_ne; [assumption|].
    destruct Hs as [_ Hs]. congruence.
  - intros k x Hk.
    destruct (decide (k = Z.to_nat (to_node e))) as [->|Hne].
    + rewrite list_lookup_insert_eq in Hk by lia. injection Hk as <-.
      exists e. repeat split; try assumption; try lia.
      * destruct Hfrom. lia.
      * apply seen_insert. assumption.
      * apply list_lookup_insert_eq. lia.
    + rewrite list_lookup_insert_ne in Hk by congruence.
      destruct (Hp k x Hk) as (e' & H1 & H2 & H3 & H4 & H5).
      exists e'. repeat split; try assumption.
      * destruct H4. assumption.
      * now apply seen_insert.
      * rewrite list_lookup_insert_ne; [assumption|congruence].
  - intros v [Hv0 Hv]. rewrite (trues_insert _ _ Hnew).
    destruct (decide (Z.to_nat v = Z.to_nat (to_node e))) as [Heq|Hne].
    + assert (v = to_node e) by lia. subst v.
      destruct (Hw _ Hfrom) as (p & Hp1 & Hp2).
      exists (a :: p). split; [|simpl; lia].
      apply walk_cons with e; try assumption.
      * apply list_lookup_insert_eq. lia.
      * now apply (walk_mono _ _ (previous st)).
    + rewrite list_lookup_insert_ne in Hv by congruence.
      destruct (Hw v (conj Hv0 Hv)) as (p & Hp1 & Hp2).
      exists p. split; [|lia]. now apply (walk_mono _ _ (previous st)).
Qed.

Lemma visit_edge_inv g st a e :
  well_formed g → bfs_inv g st → edges g !! a = Some e →
  seen (visited st) (from_node e) →
  ∃ st', visit_edge (edges g) st a = Return st' ∧ bfs_inv g st'
         ∧ (∀ v, seen (visited st) v → seen (visited st') v)
         ∧ (length (bfs_queue st') + trues (visited st)
            = length (bfs_queue st) + trues (visited st'))%nat.
Proof.
  intros Hwf Hinv He Hfrom.
  destruct (visit_edge_cases g st a e Hwf (inv_len_vis _ _ Hinv)
              (inv_len_prev _ _ Hinv) He) as [[-> _]|(-> & Hcap & Hnew)].
  - exists st. auto.
  - eexists; split; [reflexivity|]. split; [now apply discover_inv|].
    split; [intros v; apply seen_insert|].
    simpl. rewrite (trues_insert _ _ Hnew), length_app. simpl. lia.
Qed.

Lemma visit_edges_inv g row : ∀ st u,
  well_formed g → bfs_inv g st → seen (visited st) u →
  (∀ a, a ∈ row → ∃ e, edges g !! a = Some e ∧ from_node e = u) →
  ∃ st', visit_edges (edges g) st row = Return st' ∧ bfs_inv g st'
         ∧ (∀ v, seen (visited st) v → seen (visited st') v)
         ∧ (length (bfs_queue st') + trues (visited st)
            = length (bfs_queue st) + trues (visited st'))%nat.
Proof.
  induction row as [|a row IH]; intros st u Hwf Hinv Hu Hrow; simpl.
  - exists st. auto.
  - destruct (Hrow a) as (e & He & Hfrom); [left|]. subst u.
    destruct (visit_edge_inv g st a e Hwf Hinv He Hu) as (st1 & -> & Hinv1 & Hmono1 & Hm1).
    simpl.
    destruct (IH st1 (from_node e) Hwf Hinv1 (Hmono1 _ Hu)) as (st2 & -> & Hinv2 & Hmono2 & Hm2).
    { intros x Hx. apply Hrow. now right. }
    exists st2. split; [reflexivity|]. split; [assumption|].
    split; [auto|lia].
Qed.

Lemma bfs_loop_inv g : ∀ fuel st,
  well_formed g → bfs_inv g st →
  (length (bfs_queue st) + Z.to_nat (num_nodes g) <= fuel + trues (visited st))%nat →
  ∃ st', bfs_loop fuel g st = Return st' ∧ bfs_inv g st'.
Proof.
  induction fuel as [|fuel IH]; intros st Hwf Hinv Hfuel.
  - pose proof (trues_le (visited st)) as Hle.
    rewrite (inv_len_vis _ _ Hinv) in Hle.
    destruct (bfs_queue st) eqn:Hq; simpl in Hfuel; [|lia].
    exists st. simpl. now rewrite Hq.
  - simpl. destruct (bfs_queue st) as [|u rest] eqn:Hq; [now exists st|].
    set (st1 := {| bfs_queue := rest; visited := visited st; previous := previous st |}).
    assert (Hinv1 : bfs_inv g st1).
    { destruct Hinv as [Hlv Hlp Hqs Hs Hsp Hp Hw]. split; simpl; try assumption.
      intros v Hv. apply Hqs. rewrite Hq. now right. }
    destruct (u =? sink g); [now exists st1|].
    assert (Hu : seen (visited st) u).
    { apply (inv_queue _ _ Hinv). rewrite Hq. left. }
    destruct Hu as [Hu0 Hu].
    destruct (lookup_lt_is_Some_2 (graph g) (Z.to_nat u)) as [row Hrow].
    { rewrite (wf_rows g Hwf), <- (inv_len_vis _ _ Hinv).
      now apply lookup_lt_Some in Hu. }
    rewrite (py_get_in_range _ _ row Hu0 Hrow). simpl.
    destruct (visit_edges_inv g row st1 u Hwf Hinv1 (conj Hu0 Hu))
      as (st2 & -> & Hinv2 & _ & Hm).
    { intros a Ha. destruct (wf_row g Hwf _ _ _ Hrow Ha) as (e & He & Hf).
      exists e. split; [assumption|lia]. }
    simpl. apply IH; try assumption.
    simpl in Hm, Hfuel. lia.
Qed.

Lemma trues_replicate_false n : trues (replicate n false) = 0%nat.
Proof. induction n; simpl; lia. Qed.

Lemma bfs_start_inv g :
  well_formed g →
  ∃ st0, bfs_start g = Return st0 ∧ bfs_inv g st0
         ∧ (length (bfs_queue st0) + Z.to_nat (num_nodes g)
            <= Z.to_nat (num_nodes g) + trues (visited st0))%nat.
Proof.
  intros Hwf. pose proof (wf_source g Hwf) as Hs. unfold bfs_start, py_repeat.
  rewrite py_set_in_range by (rewrite length_replicate; lia). simpl.
  eexists; split; [reflexivity|].
  assert (Hfalse : replicate (Z.to_nat (num_nodes g)) false !! Z.to_nat (source g)
                   = Some false) by (apply lookup_replicate_2; lia).
  split; [split; simpl|simpl].
  - now rewrite length_insert, length_replicate.
  - now rewrite length_replicate.
  - intros v Hv. apply list_elem_of_singleton in Hv as ->. split; [lia|].
    apply list_lookup_insert_eq. rewrite length_replicate. lia.
  - split; [lia|]. apply list_lookup_insert_eq. rewrite length_replicate. lia.
  - apply lookup_replicate_2. lia.
  - intros k a Hk. apply lookup_replicate in Hk as [? _]. discriminate.
  - intros v [Hv0 Hv]. rewrite (trues_insert _ _ Hfalse), trues_replicate_false.
    destruct (decide (Z.to_nat (source g) = Z.to_nat v)) as [Heq|Hne].
    + assert (v = source g) by lia. subst v. exists []. split; [constructor|simpl; lia].
    + rewrite list_lookup_insert_ne in Hv by assumption.
      apply lookup_replicate in Hv as [? _]. discriminate.
  - rewrite (trues_insert _ _ Hfalse), trues_replicate_false. lia.
Qed.

(** On a well-formed network the search returns, and what it leaves in
    [previous] satisfies the invariant. *)
Lemma bfs_search_inv g :
  well_formed g → ∃ st, bfs_search g = Return (previous st) ∧ bfs_inv g st.
Proof.
  intros Hwf. unfold bfs_search.
  destruct (bfs_start_inv g Hwf) as (st0 & -> & Hinv0 & Hfuel). simpl.
  destruct (bfs_loop_inv g _ st0 Hwf Hinv0 Hfuel) as (st & -> & Hinv). simpl.
  now exists st.
Qed.

(** *** The recorded path *)

Section Walks.
Context (g : Graph) (st : bfs_state).
Hypothesis Hwf : well_formed g.
Hypothesis Hinv : bfs_inv g st.

Lemma walk_det v p p' :
  walk (edges g) (source g) (previous st) v p →
  walk (edges g) (source g) (previous st) v p' → p = p'.
Proof.
  intros H. revert p'. induction H as [|v a e p Hv Ha He Hw IH]; intros p' H'.
  - inversion H' as [|v' a' e' q Hv' Ha' He' Hw']; subst; [reflexivity|].
    rewrite (inv_source_prev _ _ Hinv) in Ha'. discriminate.
  - inversion H' as [|v' a' e' q Hv' Ha' He' Hw']; subst.
    + rewrite (inv_source_prev _ _ Hinv) in Ha. discriminate.
    + assert (a' = a) by congruence. subst a'.
      assert (e' = e) by congruence. subst e'.
      f_equal. now apply IH.
Qed.

Lemma walk_head v a p :
  walk (edges g) (source g) (previous st) v (a :: p) →
  ∃ e, edges g !! a = Some e ∧ to_node e = v ∧ 0 < remaining_capacity e
       ∧ walk (edges g) (source g) (previous st) (from_node e) p.
Proof.
  inversion 1 as [|v' a' e q Hv Ha He Hw]; subst.
  destruct (inv_prev _ _ Hinv _ _ Ha) as (e' & He' & Hto & Hcap & _).
  assert (e' = e) by congruence. subst e'.
  exists e. repeat split; try assumption. lia.
Qed.

Lemma walk_chain v p :
  walk (edges g) (source g) (previous st) v p →
  chain (edges g) (source g) v p
  ∧ ∀ a, a ∈ p → ∃ e, edges g !! a = Some e ∧ 0 < remaining_capacity e.
Proof.
  induction p as [|a p IH] in v |- *; intros H.
  - inversion H; subst. split; [constructor|]. intros a Ha.
    now apply elem_of_nil in Ha.
  - destruct (walk_head _ _ _ H) as (e & He & Hto & Hcap & Hw).
    destruct (IH _ Hw) as [Hch Hpos]. split.
    + now apply chain_cons with e.
    + intros x Hx. apply elem_of_cons in Hx as [->|Hx]; eauto.
Qed.

Lemma walk_in v p a :
  walk (edges g) (source g) (previous st) v p → a ∈ p →
  ∃ e q, edges g !! a = Some e
         ∧ walk (edges g) (source g) (previous st) (to_node e) (a :: q)
         ∧ (length q < length p)%nat.
Proof.
  induction p as [|a0 p IH] in v |- *; intros H Ha.
  - now apply elem_of_nil in Ha.
  - destruct (walk_head _ _ _ H) as (e & He & Hto & Hcap & Hw).
    apply elem_of_cons in Ha as [->|Ha].
    + exists e, p. rewrite Hto. repeat split; try assumption. simpl. lia.
    + destruct (IH _ Hw Ha) as (e' & q & H1 & H2 & H3).
      exists e', q. repeat split; try assumption. simpl. lia.
Qed.

Lemma walk_NoDup v p : walk (edges g) (source g) (previous st) v p → NoDup p.
Proof.
  induction p as [|a p IH] in v |- *; intros H; [constructor|].
  destruct (walk_head _ _ _ H) as (e & He & Hto & Hcap & Hw).
  apply NoDup_cons. split; [|now apply (IH _ Hw)].
  intros Ha. destruct (walk_in _ _ _ Hw Ha) as (e' & q & He' & Hq & Hlen).
  assert (e' = e) by congruence. subst e'. rewrite Hto in Hq.
  pose proof (walk_det _ _ _ H Hq) as Heq. injection Heq as ->. lia.
Qed.

Lemma walk_length v p :
  walk (edges g) (source g) (previous st) v p → (length p < Z.to_nat (num_nodes g))%nat.
Proof.
  intros H.
  assert (Hseen : seen (visited st) v).
  { inversion H as [|v' a e q Hv Ha He Hw]; subst.
    - apply (inv_source _ _ Hinv).
    - destruct (inv_prev _ _ Hinv _ _ Ha) as (_ & _ & _ & _ & _ & Hvis).
      now split. }
  destruct (inv_walk _ _ Hinv v Hseen) as (p' & Hp' & Hlen).
  rewrite (walk_det _ _ _ H Hp').
  pose proof (trues_le (visited st)) as Hle.
  rewrite (inv_len_vis _ _ Hinv) in Hle. lia.
Qed.

Lemma bottleneck_loop_walk p : ∀ fuel m a e,
  edges g !! a = Some e → walk (edges g) (source g) (previous st) (from_node e) p →
  (length p < fuel)%nat →
  ∃ b, bottleneck_loop fuel (edges g) (previous st) m a = Return b
       ∧ least g m (a :: p) b.
Proof.
  induction p as [|a' p IH]; intros fuel m a e He Hw Hfuel;
    (destruct fuel as [|fuel]; [simpl in Hfuel; lia|]);
    simpl; unfold deref; rewrite He; simpl.
  - inversion Hw as [Hs|]; subst.
    pose proof (wf_source g Hwf) as Hsrc.
    rewrite (py_get_in_range _ _ None) by (lia || apply (inv_source_prev _ _ Hinv)).
    simpl. eexists; split; [reflexivity|].
    split; [|split].
    + intros z ->. simpl. lia.
    + intros x ex Hx Hex. apply list_elem_of_singleton in Hx as ->.
      assert (ex = e) by congruence. subst ex.
      destruct m; simpl; lia.
    + destruct m as [z|]; simpl.
      * destruct (Z.min_spec z (remaining_capacity e)) as [[_ ->]|[_ ->]];
          [left; reflexivity|].
        right. exists a, e. repeat split; try assumption. left.
      * right. exists a, e. repeat split; try assumption. left.
  - inversion Hw as [|v x e' q Hv Ha' He' Hw']; subst.
    rewrite (py_get_in_range _ _ (Some a')) by assumption. simpl.
    destruct (IH fuel (Some (py_min m (remaining_capacity e))) a' e' He' Hw')
      as (b & -> & Hm & Hall & Hex); [simpl in Hfuel; lia|].
    exists b. split; [reflexivity|].
    specialize (Hm _ eq_refl).
    split; [|split].
    + intros z ->. simpl in Hm. lia.
    + intros x ex Hx Hex'. apply elem_of_cons in Hx as [->|Hx]; [|eauto].
      assert (ex = e) by congruence. subst ex.
      destruct m; simpl in Hm; lia.
    + destruct Hex as [Hex|(x & ex & Hx & Hex1 & Hex2)].
      * injection Hex as Hex. destruct m as [z|]; simpl in Hex.
        -- destruct (Z.min_spec z (remaining_capacity e)) as [[_ Hmin]|[_ Hmin]];
             rewrite Hmin in Hex; [left; congruence|].
           right. exists a, e. repeat split; try assumption. left.
        -- right. exists a, e. repeat split; try assumption. left.
      * right. exists x, ex. repeat split; try assumption. now right.
Qed.

Lemma augment_loop_walk p b : ∀ fuel a e E',
  same_shape (edges g) E' → paired E' → edges g !! a = Some e →
  walk (edges g) (source g) (previous st) (from_node e) p →
  augment_loop fuel (previous st) b (Some a) E'
  = (if decide (length (a :: p) <= fuel)%nat then Return tt else Timeout,
     push_all E' (take fuel (a :: p)) b).
Proof.
  induction p as [|a' p IH]; intros fuel a e E' HS HP He Hw;
    (destruct fuel as [|fuel]; [reflexivity|]).
  - destruct (same_shape_lookup _ _ _ _ HS He) as (e0 & He0 & _ & Hf0 & _).
    destruct (push_flow_pushed E' a e0 b HP He0)
      as (r & er & Hr & Hne & Her & Hfl & Hpush).
    cbn [augment_loop take]. rewrite push_all_cons, Hpush. cbn [snd].
    rewrite (lookup_pushed E' a r e0 er b a He0 Her Hne).
    rewrite decide_True by reflexivity. cbn [from_node set_flow].
    inversion Hw as [Hs|]; subst. rewrite Hf0, <- Hs.
    pose proof (wf_source g Hwf) as Hsrc.
    rewrite (py_get_in_range _ _ None) by (lia || apply (inv_source_prev _ _ Hinv)).
    destruct fuel; reflexivity.
  - destruct (same_shape_lookup _ _ _ _ HS He) as (e0 & He0 & _ & Hf0 & _).
    destruct (push_flow_pushed E' a e0 b HP He0)
      as (r & er & Hr & Hne & Her & Hfl & Hpush).
    destruct (push_flow_paired E' a b HP) as (E1 & Hpush1 & HP1 & _);
      [now apply lookup_lt_Some in He0|].
    rewrite Hpush in Hpush1. injection Hpush1 as <-.
    cbn [augment_loop take]. rewrite push_all_cons, Hpush. cbn [snd].
    rewrite (lookup_pushed E' a r e0 er b a He0 Her Hne).
    rewrite decide_True by reflexivity. cbn [from_node set_flow].
    inversion Hw as [|v x e' q Hv Ha' He' Hw']; subst.
    rewrite Hf0, (py_get_in_range _ _ (Some a')) by assumption.
    rewrite (IH fuel a' e' _ (same_shape_trans _ _ _ HS
               (same_shape_pushed E' a r e0 er b He0 Her Hne)) HP1 He' Hw').
    f_equal. repeat case_decide; simpl in *; reflexivity || lia.
Qed.

End Walks.

(** *** What one search does *)

(** On a well-formed network [bfs] never raises and is never cut off.
    Either the sink has no predecessor and the graph is returned as it
    was, with 0; or the predecessors lead back from the sink to the
    source along [p], the least remaining capacity along [p] is returned
    and has been pushed along [p] (along its first [rounds] edges when the
    second loop is stopped after [rounds] rounds). *)
Lemma bfs_rounds_spec g :
  well_formed g → paired (edges g) →
  ∃ st, bfs_search g = Return (previous st) ∧ bfs_inv g st ∧
    ((previous st !! Z.to_nat (sink g) = Some None
      ∧ ∀ rounds, bfs_rounds rounds g = (Return 0, g))
     ∨ (∃ p b, walk (edges g) (source g) (previous st) (sink g) p
         ∧ p ≠ [] ∧ least g None p b ∧ 0 < b
         ∧ ∀ rounds, bfs_rounds rounds g =
             (if decide (length p <= rounds)%nat then Return b else Timeout,
              with_edges g (push_all (edges g) (take rounds p) b)))).
Proof.
  intros Hwf HP. destruct (bfs_search_inv g Hwf) as (st & Hsearch & Hinv).
  exists st. split; [assumption|]. split; [assumption|].
  pose proof (wf_sink g Hwf) as Hsink.
  destruct (lookup_lt_is_Some_2 (previous st) (Z.to_nat (sink g))) as [[a|] Ha].
  { rewrite (inv_len_prev _ _ Hinv). lia. }
  - right.
    destruct (inv_prev _ _ Hinv _ _ Ha) as (e & He & Hto & Hcap & Hfrom & Hvis).
    destruct (inv_walk _ _ Hinv (sink g)) as (p & Hp & _); [split; [lia|assumption]|].
    inversion Hp as [Hs|v a' e' q Hv Ha' He' Hw']; subst.
    { pose proof (wf_distinct g Hwf). congruence. }
    assert (a' = a) by congruence. subst a'.
    assert (e' = e) by congruence. subst e'.
    pose proof (walk_length g st Hinv _ _ Hp) as Hlen. simpl in Hlen.
    destruct (bottleneck_loop_walk g st Hwf Hinv q (Z.to_nat (num_nodes g)) None a e
                He Hw') as (b & Hb & Hleast); [lia|].
    exists (a :: q), b. split; [assumption|]. split; [discriminate|].
    split; [assumption|]. split.
    { destruct Hleast as (_ & _ & [?|(x & ex & Hx & Hex & <-)]); [discriminate|].
      destruct (walk_chain g st Hinv _ _ Hp) as [_ Hpos].
      destruct (Hpos x Hx) as (ex' & Hex' & ?). congruence. }
    intros rounds. unfold bfs_rounds.
    rewrite Hsearch, (py_get_in_range _ _ (Some a)) by (lia || assumption).
    rewrite Hb.
    rewrite (augment_loop_walk g st Hwf Hinv q b rounds a e (edges g)
               (same_shape_refl _) HP He Hw').
    case_decide; reflexivity.
  - left. split; [assumption|]. intros rounds. unfold bfs_rounds.
    now rewrite Hsearch, (py_get_in_range _ _ None) by (lia || assumption).
Qed.

Lemma sound_with_edges g E' :
  sound g → same_shape (edges g) E' → paired E' → feasible E' →
  sound (with_edges g E').
Proof.
  intros [Hwf _ _] HS HP HF. split; simpl; try assumption.
  now apply well_formed_same_shape.
Qed.

Lemma least_le g p b a e :
  least g None p b → a ∈ p → edges g !! a = Some e → b <= remaining_capacity e.
Proof. intros (_ & H & _). apply H. Qed.

(** Every state [bfs] goes through between two updates of its second
    loop, and the state it ends in, is sound. *)
Lemma bfs_rounds_sound rounds g : sound g → sound (snd (bfs_rounds rounds g)).
Proof.
  intros Hs. destruct Hs as [Hwf HP HF].
  destruct (bfs_rounds_spec g Hwf HP) as (st & _ & Hinv & [[_ H]|(p & b & Hw & _ & Hl & Hb & H)]);
    rewrite (H rounds); simpl; [now split|].
  destruct (walk_chain g st Hinv _ _ Hw) as [_ Hpos].
  destruct (push_all_feasible (take rounds p) (edges g) b HP HF) as (H1 & H2 & H3).
  - lia.
  - eapply sublist_NoDup; [apply (walk_NoDup g st Hinv _ _ Hw)|apply sublist_take].
  - intros a Ha. apply subseteq_take in Ha.
    destruct (Hpos a Ha) as (e & He & _). exists e. split; [assumption|].
    now apply (least_le g p b a e).
  - apply sound_with_edges; [split|..]; assumption.
Qed.

Lemma bfs_sound g : sound g → sound (snd (bfs g)).
Proof. apply bfs_rounds_sound. Qed.

Lemma bfs_returns g :
  sound g → ∃ b g', bfs g = (Return b, g') ∧ ((b = 0 ∧ g' = g) ∨ 0 < b).
Proof.
  intros [Hwf HP HF]. unfold bfs.
  destruct (bfs_rounds_spec g Hwf HP) as (st & _ & Hinv & [[_ H]|(p & b & Hw & _ & Hl & Hb & H)]);
    rewrite H.
  - exists 0, g. auto.
  - pose proof (walk_length g st Hinv _ _ Hw).
    rewrite decide_True by lia. eauto.
Qed.

Lemma edmonds_karp_loop_sound fuel : ∀ g max_flow flow,
  sound g → sound (snd (edmonds_karp_loop fuel g max_flow flow)).
Proof.
  induction fuel as [|fuel IH]; intros g m f Hs; simpl.
  - destruct (0 <? f); assumption.
  - destruct (0 <? f); [|assumption].
    pose proof (bfs_sound g Hs) as H.
    destruct (bfs g) as [[fl|e|] g1]; simpl in H; auto.
Qed.

(** ** Building a network with arguments in range *)

Lemma append_at_in_range adj i a :
  0 <= i < Z.of_nat (length adj) →
  append_at adj i a = Return (alter (fun row => row ++ [a]) (Z.to_nat i) adj).
Proof. intros Hi. unfold append_at. now rewrite py_index_in_range. Qed.

Lemma lookup_alter_snoc (adj : list (list nat)) k a j row' :
  alter (fun row => row ++ [a]) k adj !! j = Some row' →
  ∃ row, adj !! j = Some row ∧ (row' = row ∨ (j = k ∧ row' = row ++ [a])).
Proof.
  destruct (decide (k = j)) as [->|Hne].
  - rewrite list_lookup_alter_eq. destruct (adj !! j) as [row|]; [|discriminate].
    simpl. intros [= <-]. exists row. auto.
  - rewrite list_lookup_alter_ne by assumption. intros H. exists row'. auto.
Qed.

Lemma alter_snoc_lookup (adj : list (list nat)) k a j row :
  adj !! j = Some row →
  ∃ row', alter (fun row => row ++ [a]) k adj !! j = Some row'
          ∧ (∀ x, x ∈ row → x ∈ row') ∧ (j = k → a ∈ row').
Proof.
  intros Hj. destruct (decide (k = j)) as [->|Hne].
  - rewrite list_lookup_alter_eq, Hj. simpl. eexists; split; [reflexivity|].
    split; intros; apply elem_of_app; [now left|right; apply list_elem_of_singleton; reflexivity].
  - rewrite list_lookup_alter_ne by assumption. exists row. split; [assumption|].
    split; [auto|congruence].
Qed.

Lemma twins_even E : twins E → ∃ k, length E = (2 * k)%nat.
Proof.
  intros HT. destruct (Nat.Even_or_Odd (length E)) as [[k Hk]|[k Hk]]; [eauto|].
  destruct (lookup_lt_is_Some_2 E (2 * k)%nat) as [d Hd]; [lia|].
  destruct (HT k d Hd) as (r & Hr & _). apply lookup_lt_Some in Hr. lia.
Qed.

Lemma twins_alloc E d r :
  twins E →
  residual d = Some (S (length E)) → residual r = Some (length E) →
  from_node r = to_node d → to_node r = from_node d →
  capacity r = 0 → 0 <= capacity d →
  twins (E ++ [d; r]).
Proof.
  intros HT Hd Hr Hf Ht Hc Hcd k x Hx.
  destruct (twins_even E HT) as [h Hlen].
  destruct (decide (k < h)%nat) as [Hlt|Hge].
  - rewrite lookup_app_l in Hx by lia.
    destruct (HT k x Hx) as (y & Hy & Hrest). exists y.
    split; [|assumption]. rewrite lookup_app_l; [assumption|].
    now apply lookup_lt_Some in Hy.
  - destruct (decide (k = h)) as [->|Hne].
    + rewrite <- Hlen in *. rewrite lookup_app_r in Hx by lia.
      rewrite Nat.sub_diag in Hx. injection Hx as <-.
      exists r. rewrite lookup_app_r by lia.
      replace (S (length E) - length E)%nat with 1%nat by lia.
      repeat split; assumption.
    + apply lookup_lt_Some in Hx. rewrite length_app in Hx. simpl in Hx. lia.
Qed.

Lemma add_edge_in_range g u v c :
  1 <= u <= Z.of_nat (length (graph g)) → 1 <= v <= Z.of_nat (length (graph g)) →
  add_edge g u v c =
    (Return tt,
     {| num_nodes := num_nodes g; source := source g; sink := sink g;
        graph := alter (fun row => row ++ [S (length (edges g))]) (Z.to_nat (v - 1))
                   (alter (fun row => row ++ [length (edges g)]) (Z.to_nat (u - 1))
                      (graph g));
        edges := edges g ++ [set_residual (Edge_init c u v) (S (length (edges g)));
                             set_residual (Edge_init 0 v u) (length (edges g))] |}).
Proof.
  intros Hu Hv. unfold add_edge. simpl.
  rewrite append_at_in_range by lia. simpl.
  rewrite append_at_in_range by (rewrite length_alter; lia).
  reflexivity.
Qed.

Lemma add_edge_sound g u v c :
  sound g → valid_call (num_nodes g) (u, v, c) →
  fst (add_edge g u v c) = Return tt
  ∧ sound (snd (add_edge g u v c))
  ∧ num_nodes (snd (add_edge g u v c)) = num_nodes g
  ∧ source (snd (add_edge g u v c)) = source g
  ∧ sink (snd (add_edge g u v c)) = sink g
  ∧ edges (snd (add_edge g u v c))
    = edges g ++ [set_residual (Edge_init c u v) (S (length (edges g)));
                  set_residual (Edge_init 0 v u) (length (edges g))].
Proof.
  intros [Hwf HP HF] (Hu & Hv & Hc). simpl in Hu, Hv, Hc.
  pose proof (wf_rows g Hwf) as Hrows.
  rewrite add_edge_in_range by lia.
  cbn [fst snd num_nodes source sink edges].
  split; [reflexivity|]. split; [|auto].
  split; [split|..]; cbn [num_nodes source sink graph edges]; try apply Hwf.
  - now rewrite !length_alter.
  - intros j row' a Hj Ha.
    apply lookup_alter_snoc in Hj as (row1 & Hj & Hrow1).
    apply lookup_alter_snoc in Hj as (row & Hj & Hrow).
    assert (Hold : ∀ x, x ∈ row →
      ∃ e, (edges g ++ [set_residual (Edge_init c u v) (S (length (edges g)));
                        set_residual (Edge_init 0 v u) (length (edges g))]) !! x = Some e
           ∧ from_node e = Z.of_nat j).
    { intros x Hx. destruct (wf_row g Hwf j row x Hj Hx) as (e & He & Hfe).
      exists e. split; [|assumption]. rewrite lookup_app_l; [assumption|].
      now apply lookup_lt_Some in He. }
    assert (Hnew_d : j = Z.to_nat (u - 1) →
      ∃ e, (edges g ++ [set_residual (Edge_init c u v) (S (length (edges g)));
                        set_residual (Edge_init 0 v u) (length (edges g))])
             !! length (edges g) = Some e ∧ from_node e = Z.of_nat j).
    { intros ->. eexists. rewrite lookup_app_r, Nat.sub_diag by lia.
      split; [reflexivity|]. simpl. lia. }
    assert (Hnew_r : j = Z.to_nat (v - 1) →
      ∃ e, (edges g ++ [set_residual (Edge_init c u v) (S (length (edges g)));
                        set_residual (Edge_init 0 v u) (length (edges g))])
             !! S (length (edges g)) = Some e ∧ from_node e = Z.of_nat j).
    { intros ->. eexists. rewrite lookup_app_r by lia.
      replace (S (length (edges g)) - length (edges g))%nat with 1%nat by lia.
      split; [reflexivity|]. simpl. lia. }
    destruct Hrow1 as [->|[-> ->]]; destruct Hrow as [->|[Hju ->]];
      repeat (apply elem_of_app in Ha as [Ha|Ha]);
      try (apply list_elem_of_singleton in Ha as ->); auto.
  - intros a e Ha.
    assert (Hrow : ∀ j row, graph g !! j = Some row →
      ∃ row', alter (fun row => row ++ [S (length (edges g))]) (Z.to_nat (v - 1))
                (alter (fun row => row ++ [length (edges g)]) (Z.to_nat (u - 1)) (graph g))
                !! j = Some row'
              ∧ (∀ x, x ∈ row → x ∈ row')
              ∧ (j = Z.to_nat (u - 1) → length (edges g) ∈ row')
              ∧ (j = Z.to_nat (v - 1) → S (length (edges g)) ∈ row')).
    { intros j row Hj.
      destruct (alter_snoc_lookup _ (Z.to_nat (u - 1)) (length (edges g)) _ _ Hj)
        as (row1 & Hj1 & Hsub1 & Hin1).
      destruct (alter_snoc_lookup _ (Z.to_nat (v - 1)) (S (length (edges g))) _ _ Hj1)
        as (row2 & Hj2 & Hsub2 & Hin2).
      exists row2. repeat split; auto. }
    destruct (decide (a < length (edges g))%nat) as [Hlt|Hge].
    + rewrite lookup_app_l in Ha by assumption.
      destruct (wf_edge g Hwf a e Ha) as (H1 & H2 & row & Hr & Hin).
      destruct (Hrow _ _ Hr) as (row' & Hr' & Hsub & _).
      repeat split; try lia. exists row'. auto.
    + rewrite lookup_app_r in Ha by lia.
      destruct (a - length (edges g))%nat as [|[|k]] eqn:Hk; simpl in Ha;
        [| |now rewrite lookup_nil in Ha]; injection Ha as <-; simpl.
      * destruct (lookup_lt_is_Some_2 (graph g) (Z.to_nat (u - 1))) as [row Hr]; [lia|].
        destruct (Hrow _ _ Hr) as (row' & Hr' & _ & Hin & _).
        repeat split; try lia. exists row'. split; [assumption|].
        replace a with (length (edges g)) by lia. auto.
      * destruct (lookup_lt_is_Some_2 (graph g) (Z.to_nat (v - 1))) as [row Hr]; [lia|].
        destruct (Hrow _ _ Hr) as (row' & Hr' & _ & _ & Hin).
        repeat split; try lia. exists row'. split; [assumption|].
        replace a with (S (length (edges g))) by lia. auto.
  - apply twins_alloc; simpl; try reflexivity; try lia. apply Hwf.
  - apply paired_alloc; auto.
  - intros a e Ha.
    destruct (decide (a < length (edges g))%nat) as [Hlt|Hge].
    + rewrite lookup_app_l in Ha by assumption. eauto.
    + rewrite lookup_app_r in Ha by lia.
      destruct (a - length (edges g))%nat as [|[|k]] eqn:Hk; simpl in Ha;
        [| |now rewrite lookup_nil in Ha]; injection Ha as <-;
        unfold remaining_capacity; simpl; lia.
Qed.

Lemma Graph_init_sound n s t :
  0 < n → 1 <= s <= n → 1 <= t <= n → s ≠ t → sound (Graph_init n s t).
Proof.
  intros Hn Hs Ht Hst. split; [split|..]; simpl; try lia.
  - now rewrite length_replicate.
  - intros u row a Hrow Ha. apply lookup_replicate in Hrow as [-> _].
    now apply elem_of_nil in Ha.
  - intros a e Ha. now rewrite lookup_nil in Ha.
  - intros k d Hd. now rewrite lookup_nil in Hd.
  - apply paired_nil.
  - intros a e Ha. now rewrite lookup_nil in Ha.
Qed.

Lemma add_edges_sound calls : ∀ g,
  sound g → Forall (valid_call (num_nodes g)) calls →
  sound (add_edges g calls)
  ∧ num_nodes (add_edges g calls) = num_nodes g
  ∧ source (add_edges g calls) = source g
  ∧ sink (add_edges g calls) = sink g.
Proof.
  induction calls as [|[[u v] c] calls IH]; intros g Hs Hcalls; [simpl; auto|].
  apply Forall_cons in Hcalls as [Hcall Hcalls].
  destruct (add_edge_sound g u v c Hs Hcall) as (_ & Hs1 & Hn & Hsrc & Hsnk & _).
  unfold add_edges. simpl. fold (add_edges (snd (add_edge g u v c)) calls).
  destruct (IH (snd (add_edge g u v c)) Hs1) as (H1 & H2 & H3 & H4).
  { now rewrite Hn. }
  split; [assumption|]. repeat split; congruence.
Qed.

Lemma build_sound n s t calls :
  valid_network n s t calls → sound (build n s t calls).
Proof.
  intros (Hn & Hs & Ht & Hst & Hcalls).
  apply add_edges_sound; [now apply Graph_init_sound|assumption].
Qed.

(** ** One search as a step of the solver *)

Lemma with_edges_id g : with_edges g (edges g) = g.
Proof. now destruct g. Qed.

(** A search that returns leaves a sound network with the same edges,
    up to their flows, and has moved the returned amount of net outflow
    from the sink to the source. *)
Lemma bfs_step g b g' :
  sound g → bfs g = (Return b, g') →
  sound g' ∧ 0 <= b
  ∧ (∃ E', g' = with_edges g E' ∧ same_shape (edges g) E')
  ∧ ∀ x, net_out (edges g') x =
         net_out (edges g) x + (if source g =? x then b else 0)
                             - (if sink g =? x then b else 0).
Proof.
  intros Hs Hbfs. pose proof (bfs_sound g Hs) as Hs'. rewrite Hbfs in Hs'.
  simpl in Hs'. split; [assumption|].
  destruct Hs as [Hwf HP HF]. unfold bfs in Hbfs.
  destruct (bfs_rounds_spec g Hwf HP)
    as (st & _ & Hinv & [[_ H]|(p & b' & Hw & _ & Hl & Hb & H)]);
    rewrite H in Hbfs.
  - injection Hbfs as <- <-. split; [lia|]. split.
    + exists (edges g). now rewrite with_edges_id.
    + intros x. destruct (source g =? x); destruct (sink g =? x); lia.
  - pose proof (walk_length g st Hinv _ _ Hw) as Hlen.
    rewrite decide_True in Hbfs by lia. rewrite take_ge in Hbfs by lia.
    injection Hbfs as <- <-. split; [lia|].
    destruct (walk_chain g st Hinv _ _ Hw) as [Hch Hpos].
    split.
    + eexists; split; [reflexivity|].
      apply (push_all_feasible p (edges g) b' HP HF); [lia| |].
      * apply (walk_NoDup g st Hinv _ _ Hw).
      * intros a Ha. destruct (Hpos a Ha) as (e & He & _). exists e.
        split; [assumption|]. now apply (least_le g p b' a e).
    + intros x. simpl.
      apply net_out_push_all; [assumption| |assumption].
      apply twins_reversed, Hwf.
Qed.

(** ** The solve loop *)

(** When the loop returns, the last search it made found nothing. *)
Lemma edmonds_karp_loop_last fuel : ∀ g max_flow flow v g',
  edmonds_karp_loop fuel g max_flow flow = (Return v, g') → 0 < flow →
  bfs g' = (Return 0, g').
Proof.
  induction fuel as [|fuel IH]; intros g m f v g' H Hf; simpl in H;
    destruct (0 <? f) eqn:Hpos; try discriminate; try lia.
  destruct (bfs g) as [[fl|e|] g1] eqn:Hbfs; try discriminate.
  destruct (bfs_rounds_zero_or_positive _ _ _ _ Hbfs) as [[-> ->]|Hfl].
  - destruct fuel; simpl in H; injection H as <- <-; assumption.
  - eauto.
Qed.

(** What the loop has done when it returns. *)
Lemma edmonds_karp_loop_spec fuel : ∀ g max_flow flow v g',
  sound g → edmonds_karp_loop fuel g max_flow flow = (Return v, g') →
  sound g' ∧ max_flow <= v
  ∧ (∃ E', g' = with_edges g E' ∧ same_shape (edges g) E')
  ∧ ∀ x, net_out (edges g') x =
         net_out (edges g) x + (if source g =? x then v - max_flow else 0)
                             - (if sink g =? x then v - max_flow else 0).
Proof.
  induction fuel as [|fuel IH]; intros g m f v g' Hs H; simpl in H;
    destruct (0 <? f) eqn:Hpos; try discriminate.
  1, 3: injection H as <- <-; split; [assumption|]; split; [lia|]; split;
    [exists (edges g); now rewrite with_edges_id|];
    intros x; rewrite Z.sub_diag;
    destruct (source g =? x); destruct (sink g =? x); lia.
  destruct (bfs g) as [[fl|e|] g1] eqn:Hbfs; try discriminate.
  destruct (bfs_step g fl g1 Hs Hbfs) as (Hs1 & Hfl & (E1 & -> & HS1) & Hnet1).
  destruct (IH _ _ _ _ _ Hs1 H) as (Hs' & Hv & (E' & -> & HS') & Hnet').
  split; [assumption|]. split; [lia|]. split.
  - exists E'. split; [reflexivity|]. simpl in HS'.
    now apply (same_shape_trans _ E1).
  - intros x. rewrite Hnet', Hnet1. simpl.
    destruct (source g =? x); destruct (sink g =? x); lia.
Qed.

Lemma total_fmap (f : Edge → Z) (h : Edge → Edge) E :
  total f (h <$> E) = total (fun e => f (h e)) E.
Proof. induction E as [|e E IH]; csimpl; [reflexivity|]. now rewrite IH. Qed.

Lemma total_same_shape f E E' :
  same_shape E E' → (∀ e, f (erase e) = f e) → total f E = total f E'.
Proof.
  intros HS Hf.
  rewrite <- (total_ext (fun e => f (erase e)) f E) by auto.
  rewrite <- (total_ext (fun e => f (erase e)) f E') by auto.
  rewrite <- (total_fmap f erase E), <- (total_fmap f erase E').
  unfold same_shape in HS. now rewrite HS.
Qed.

Lemma source_slack_nonneg g : feasible (edges g) → 0 <= source_slack g.
Proof.
  intros HF. unfold source_slack, out_capacity, net_out.
  enough (total (fun e => if from_node e =? source g then flow e else 0) (edges g)
          <= total (fun e => if from_node e =? source g then capacity e else 0) (edges g))
    by lia.
  apply total_le. intros e He. apply list_elem_of_lookup_1 in He as [a Ha].
  specialize (HF a e Ha). unfold remaining_capacity in HF.
  destruct (from_node e =? source g); lia.
Qed.

Lemma out_capacity_with_edges g E' :
  same_shape (edges g) E' → out_capacity (with_edges g E') = out_capacity g.
Proof.
  intros HS. unfold out_capacity. simpl. symmetry.
  now apply total_same_shape.
Qed.

Lemma edmonds_karp_loop_returns fuel : ∀ g max_flow flow,
  sound g → (Z.to_nat (source_slack g) < fuel)%nat →
  ∃ v g', edmonds_karp_loop fuel g max_flow flow = (Return v, g').
Proof.
  induction fuel as [|fuel IH]; intros g m f Hs Hfuel; [lia|]. simpl.
  destruct (0 <? f); [|eauto].
  destruct (bfs_returns g Hs) as (b & g1 & Hbfs & Hb). rewrite Hbfs.
  destruct Hb as [[-> ->]|Hb].
  - destruct fuel; simpl; eauto.
  - destruct (bfs_step g b g1 Hs Hbfs) as (Hs1 & _ & (E1 & -> & HS1) & Hnet1).
    apply IH; [assumption|].
    pose proof (source_slack_nonneg _ (sound_feasible _ Hs1)) as Hnn.
    unfold source_slack in *. rewrite out_capacity_with_edges in * by assumption.
    rewrite Hnet1 in *. simpl in *. rewrite Z.eqb_refl in *.
    pose proof (wf_distinct g (sound_wf _ Hs)) as Hne.
    destruct (sink g =? source g) eqn:Heq; [lia|]. lia.
Qed.

(** ** Forward edges *)

Lemma pair_ind (P : list Edge → Prop) :
  P [] → (∀ x, P [x]) → (∀ x y l, P l → P (x :: y :: l)) → ∀ l, P l.
Proof.
  intros H0 H1 H2 l. enough (P l ∧ ∀ x, P (x :: l)) by tauto.
  induction l as [|y l [IH1 IH2]]; auto.
Qed.

Lemma forward_edges_snoc E d r :
  (∃ k, length E = (2 * k)%nat) →
  forward_edges (E ++ [d; r]) = forward_edges E ++ [d].
Proof.
  induction E as [|x|x y E IH] using pair_ind; intros [k Hk]; simpl in *.
  - reflexivity.
  - lia.
  - rewrite IH; [reflexivity|]. exists (k - 1)%nat. lia.
Qed.

Lemma forward_edges_lookup E : ∀ k d,
  forward_edges E !! k = Some d ↔
  E !! (2 * k)%nat = Some d ∧ is_Some (E !! S (2 * k)).
Proof.
  induction E as [|x|x y E IH] using pair_ind; intros k d.
  - simpl. rewrite !lookup_nil. split; [discriminate|intros [? _]; discriminate].
  - simpl. rewrite lookup_nil. split; [discriminate|].
    intros [_ [z Hz]]. destruct k; discriminate.
  - destruct k as [|k].
    + simpl. split; [intros H; split; [assumption|eauto]|tauto].
    + replace (2 * S k)%nat with (S (S (2 * k))) by lia. simpl. apply IH.
Qed.

Lemma forward_edges_fmap (h : Edge → Edge) E :
  forward_edges (h <$> E) = h <$> forward_edges E.
Proof.
  induction E as [|x|x y E IH] using pair_ind; csimpl; try reflexivity.
  now rewrite IH.
Qed.

Lemma call_of_erase e : call_of (erase e) = call_of e.
Proof. reflexivity. Qed.

Lemma forward_calls_same_shape E E' :
  same_shape E E' →
  call_of <$> forward_edges E = call_of <$> forward_edges E'.
Proof.
  intros HS. apply (f_equal forward_edges) in HS.
  rewrite !forward_edges_fmap in HS.
  apply (f_equal (fmap call_of)) in HS.
  rewrite <- !list_fmap_compose in HS. exact HS.
Qed.

(** The store of a network built with arguments in range: one forward
    edge per call, in order, with the endpoints and the capacity of the
    call, and no flow anywhere. *)
Lemma add_edges_forward calls : ∀ g,
  sound g → Forall (valid_call (num_nodes g)) calls →
  call_of <$> forward_edges (edges (add_edges g calls))
  = (call_of <$> forward_edges (edges g)) ++ calls
  ∧ (Forall (fun e => flow e = 0) (edges g) →
     Forall (fun e => flow e = 0) (edges (add_edges g calls))).
Proof.
  induction calls as [|[[u v] c] calls IH]; intros g Hs Hcalls.
  - simpl. now rewrite app_nil_r.
  - apply Forall_cons in Hcalls as [Hcall Hcalls].
    destruct (add_edge_sound g u v c Hs Hcall) as (_ & Hs1 & Hn & _ & _ & HE).
    unfold add_edges. simpl. fold (add_edges (snd (add_edge g u v c)) calls).
    destruct (IH (snd (add_edge g u v c)) Hs1) as [H1 H2]; [now rewrite Hn|].
    rewrite H1, HE. split.
    + rewrite forward_edges_snoc by (apply twins_even, Hs).
      rewrite fmap_app, <- app_assoc. f_equal. simpl. unfold call_of. simpl.
      do 3 f_equal; lia.
    + intros H0. apply H2. rewrite HE. apply Forall_app. split; [assumption|].
      repeat constructor.
Qed.

Lemma build_forward n s t calls :
  valid_network n s t calls →
  call_of <$> forward_edges (edges (build n s t calls)) = calls
  ∧ Forall (fun e => flow e = 0) (edges (build n s t calls)).
Proof.
  intros (Hn & Hs & Ht & Hst & Hcalls).
  destruct (add_edges_forward calls (Graph_init n s t)) as [H1 H2];
    [now apply Graph_init_sound|assumption|].
  split; [exact H1|]. apply H2. constructor.
Qed.

Lemma build_ends n s t calls :
  valid_network n s t calls →
  num_nodes (build n s t calls) = n
  ∧ source (build n s t calls) = s - 1 ∧ sink (build n s t calls) = t - 1.
Proof.
  intros (Hn & Hs & Ht & Hst & Hcalls).
  destruct (add_edges_sound calls (Graph_init n s t)) as (_ & H1 & H2 & H3);
    [now apply Graph_init_sound|assumption|].
  auto.
Qed.

(** A forward edge and its residual in a sound network. *)
Lemma sound_pair g k d :
  sound g → edges g !! (2 * k)%nat = Some d →
  ∃ r, edges g !! S (2 * k) = Some r
       ∧ from_node r = to_node d ∧ to_node r = from_node d
       ∧ capacity r = 0 ∧ flow r = - flow d ∧ 0 <= flow d <= capacity d.
Proof.
  intros [Hwf HP HF] Hd.
  destruct (wf_twins g Hwf k d Hd) as (r & Hr & Hres & _ & Hf & Ht & Hc & _).
  destruct (HP _ _ Hd) as (r0 & e' & Hres0 & _ & He' & _ & Hfl).
  assert (r0 = S (2 * k)) by congruence. subst r0.
  assert (e' = r) by congruence. subst e'.
  pose proof (HF _ _ Hd) as Hd1. pose proof (HF _ _ Hr) as Hr1.
  unfold remaining_capacity in *.
  exists r. repeat split; try assumption; lia.
Qed.

Lemma pairs_tail (P : Edge → Edge → Prop) d r E :
  (∀ k x, (d :: r :: E) !! (2 * k)%nat = Some x →
     ∃ y, (d :: r :: E) !! S (2 * k) = Some y ∧ P x y) →
  P d r ∧ ∀ k x, E !! (2 * k)%nat = Some x →
            ∃ y, E !! S (2 * k) = Some y ∧ P x y.
Proof.
  intros H. split.
  - destruct (H 0%nat d eq_refl) as (y & Hy & HP). injection Hy as <-. exact HP.
  - intros k x Hx. specialize (H (S k) x).
    replace (2 * S k)%nat with (S (S (2 * k))) in H by lia. exact (H Hx).
Qed.

(** Net outflow of a node is the flow on the forward edges leaving it
    minus the flow on the forward edges entering it; both are within the
    capacities. *)
Lemma net_out_forward_gen E x :
  (∀ k d, E !! (2 * k)%nat = Some d →
     ∃ r, E !! S (2 * k) = Some r ∧ from_node r = to_node d
          ∧ flow r = - flow d) →
  net_out E x = outflow E x - inflow E x.
Proof.
  unfold net_out, outflow, inflow.
  induction E as [|y|d r E IH] using pair_ind; intros H.
  - reflexivity.
  - destruct (H 0%nat y eq_refl) as (r & Hr & _). discriminate.
  - apply (pairs_tail (fun d r => from_node r = to_node d ∧ flow r = - flow d))
      in H as [[Hf Hfl] H].
    simpl. rewrite (IH H), Hf, Hfl.
    destruct (from_node d =? x); destruct (to_node d =? x); lia.
Qed.

Lemma net_out_forward g x :
  sound g → net_out (edges g) x = outflow (edges g) x - inflow (edges g) x.
Proof.
  intros Hs. apply net_out_forward_gen. intros k d Hd.
  destruct (sound_pair g k d Hs Hd) as (r & ? & ? & ? & ? & ? & ?). eauto.
Qed.

Lemma forward_flow_bounds g d :
  sound g → d ∈ forward_edges (edges g) → 0 <= flow d <= capacity d.
Proof.
  intros Hs Hd. apply list_elem_of_lookup_1 in Hd as [k Hk].
  apply forward_edges_lookup in Hk as [Hk _].
  destruct (sound_pair g k d Hs Hk) as (r & ? & ? & ? & ? & ? & ?). assumption.
Qed.

Lemma capacity_leaving_forward s l :
  capacity_leaving s (call_of <$> l)
  = total (fun e => if from_node e =? s - 1 then capacity e else 0) l.
Proof.
  induction l as [|e l IH]; csimpl; [reflexivity|]. rewrite IH.
  destruct (from_node e + 1 =? s) eqn:H1; destruct (from_node e =? s - 1) eqn:H2;
    lia.
Qed.

Lemma capacity_entering_forward t l :
  capacity_entering t (call_of <$> l)
  = total (fun e => if to_node e =? t - 1 then capacity e else 0) l.
Proof.
  induction l as [|e l IH]; csimpl; [reflexivity|]. rewrite IH.
  destruct (to_node e + 1 =? t) eqn:H1; destruct (to_node e =? t - 1) eqn:H2;
    lia.
Qed.

Lemma net_out_no_flow E x : Forall (fun e => flow e = 0) E → net_out E x = 0.
Proof.
  unfold net_out. induction 1 as [|e E He _ IH]; simpl; [reflexivity|].
  rewrite IH, He. destruct (from_node e =? x); reflexivity.
Qed.

Lemma out_capacity_forward g :
  sound g →
  out_capacity g
  = total (fun e => if from_node e =? source g then capacity e else 0)
      (forward_edges (edges g)).
Proof.
  intros Hs. unfold out_capacity.
  assert (H : ∀ k d, edges g !! (2 * k)%nat = Some d →
            ∃ r, edges g !! S (2 * k) = Some r ∧ capacity r = 0).
  { intros k d Hd. destruct (sound_pair g k d Hs Hd) as (r & ? & ? & ? & ? & ?).
    eauto. }
  revert H. generalize (source g) as x. generalize (edges g) as E. clear.
  induction E as [|y|d r E IH] using pair_ind; intros x H.
  - reflexivity.
  - destruct (H 0%nat y eq_refl) as (r & Hr & _). discriminate.
  - apply (pairs_tail (fun d r => capacity r = 0)) in H as [Hc H].
    simpl. rewrite (IH x H), Hc. destruct (from_node r =? x); lia.
Qed.

(** ** Solving a network built with arguments in range *)

Lemma bfs_rounds_shape rounds g :
  sound g →
  ∃ E', snd (bfs_rounds rounds g) = with_edges g E' ∧ same_shape (edges g) E'.
Proof.
  intros [Hwf HP HF].
  destruct (bfs_rounds_spec g Hwf HP)
    as (st & _ & Hinv & [[_ H]|(p & b & Hw & _ & Hl & Hb & H)]);
    rewrite (H rounds); simpl.
  - exists (edges g). now rewrite with_edges_id.
  - eexists; split; [reflexivity|].
    destruct (walk_chain g st Hinv _ _ Hw) as [_ Hpos].
    apply (push_all_feasible (take rounds p) (edges g) b HP HF); [lia| |].
    + eapply sublist_NoDup; [apply (walk_NoDup g st Hinv _ _ Hw)|apply sublist_take].
    + intros a Ha. apply subseteq_take in Ha.
      destruct (Hpos a Ha) as (e & He & _). exists e. split; [assumption|].
      now apply (least_le g p b a e).
Qed.

Lemma edmonds_karp_loop_shape fuel : ∀ g max_flow flow,
  sound g →
  ∃ E', snd (edmonds_karp_loop fuel g max_flow flow) = with_edges g E'
        ∧ same_shape (edges g) E'.
Proof.
  induction fuel as [|fuel IH]; intros g m f Hs; simpl.
  - exists (edges g). rewrite with_edges_id. now destruct (0 <? f).
  - destruct (0 <? f); [|exists (edges g); now rewrite with_edges_id].
    pose proof (bfs_sound g Hs) as Hs1.
    destruct (bfs_rounds_shape (Z.to_nat (num_nodes g)) g Hs) as (E1 & HE1 & HS1).
    fold (bfs g) in HE1.
    destruct (bfs g) as [[fl|e|] g1]; simpl in *; subst g1; eauto.
    destruct (IH (with_edges g E1) (m + fl) fl Hs1) as (E' & -> & HS').
    exists E'. split; [reflexivity|]. now apply (same_shape_trans _ E1).
Qed.

Lemma solving_sound g0 g :
  sound g0 → solving g0 g →
  sound g ∧ ∃ E', g = with_edges g0 E' ∧ same_shape (edges g0) E'.
Proof.
  intros Hs0. induction 1 as [|g rounds _ [Hs (E & -> & HS)]|g fuel _ [Hs (E & -> & HS)]].
  - split; [assumption|]. exists (edges g0). now rewrite with_edges_id.
  - split; [now apply bfs_rounds_sound|].
    destruct (bfs_rounds_shape rounds _ Hs) as (E' & -> & HS').
    exists E'. split; [reflexivity|]. now apply (same_shape_trans _ E).
  - split; [now apply edmonds_karp_loop_sound|].
    destruct (edmonds_karp_loop_shape fuel _ 0 1 Hs) as (E' & HE' & HS').
    unfold edmonds_karp. rewrite HE'.
    exists E'. split; [reflexivity|]. now apply (same_shape_trans _ E).
Qed.

Lemma solving_calls n s t calls g :
  valid_network n s t calls → solving (build n s t calls) g →
  sound g ∧ call_of <$> forward_edges (edges g) = calls
  ∧ source g = s - 1 ∧ sink g = t - 1.
Proof.
  intros Hv Hg.
  destruct (solving_sound _ _ (build_sound _ _ _ _ Hv) Hg) as [Hs (E' & -> & HS)].
  destruct (build_forward _ _ _ _ Hv) as [Hcalls _].
  destruct (build_ends _ _ _ _ Hv) as (_ & Hsrc & Hsnk).
  split; [assumption|]. split; [|now split].
  simpl. now rewrite <- (forward_calls_same_shape _ _ HS).
Qed.

(** C4: in a network built with arguments in range, at any point of
    solving (initially, between two updates of the flow inside [bfs],
    after a [bfs], after [edmonds_karp]), the edge at an even address
    [2k] is the forward edge of the [k]-th [add_edge] call, with the
    capacity asked there, and its flow is between 0 and that capacity;
    the edge after it is its residual, of capacity 0, and its flow is 0
    or negative. *)
Theorem flow_within_capacity n s t calls g k d :
  valid_network n s t calls → solving (build n s t calls) g →
  edges g !! (2 * k)%nat = Some d →
  calls !! k = Some (from_node d + 1, to_node d + 1, capacity d)
  ∧ 0 <= flow d <= capacity d
  ∧ ∃ r, edges g !! S (2 * k) = Some r
         ∧ residual d = Some (S (2 * k)) ∧ residual r = Some (2 * k)%nat
         ∧ capacity r = 0 ∧ flow r <= 0.
Proof.
  intros Hv Hg Hd.
  destruct (solving_calls _ _ _ _ _ Hv Hg) as (Hs & Hcalls & _).
  destruct (sound_pair g k d Hs Hd) as (r & Hr & _ & _ & Hc & Hfl & Hbounds).
  destruct (wf_twins g (sound_wf _ Hs) k d Hd) as (r' & Hr' & Hres & Hres' & _).
  assert (r' = r) by congruence. subst r'.
  split; [|split; [assumption|]].
  - rewrite <- Hcalls, list_lookup_fmap.
    rewrite (proj2 (forward_edges_lookup (edges g) k d)) by eauto. reflexivity.
  - exists r. repeat split; try assumption. lia.
Qed.

(** With more searches allowed than the sum of the capacities asked for
    the edges leaving the source, the solve loop runs to its end. *)
Lemma edmonds_karp_returns n s t calls fuel :
  valid_network n s t calls →
  (Z.to_nat (capacity_leaving s calls) < fuel)%nat →
  ∃ v g', edmonds_karp fuel (build n s t calls) = (Return v, g').
Proof.
  intros Hv Hfuel. pose proof (build_sound _ _ _ _ Hv) as Hs.
  destruct (build_forward _ _ _ _ Hv) as [Hcalls Hzero].
  destruct (build_ends _ _ _ _ Hv) as (_ & Hsrc & _).
  apply edmonds_karp_loop_returns; [assumption|].
  unfold source_slack. rewrite (net_out_no_flow _ _ Hzero), Z.sub_0_r.
  rewrite (out_capacity_forward _ Hs), Hsrc, <- capacity_leaving_forward.
  now rewrite Hcalls.
Qed.

(** C5: on a network built with arguments in range [edmonds_karp]
    returns, and returns a non-negative value: as soon as the bound on
    the number of searches exceeds the sum of the capacities asked for
    the edges leaving the source, the solve loop runs to its end, with
    the same value and the same final graph whatever the bound. *)
Theorem edmonds_karp_total n s t calls :
  valid_network n s t calls →
  ∃ v g', 0 <= v ∧ ∀ fuel,
    (Z.to_nat (capacity_leaving s calls) < fuel)%nat →
    edmonds_karp fuel (build n s t calls) = (Return v, g').
Proof.
  intros Hv. pose proof (build_sound _ _ _ _ Hv) as Hs.
  destruct (edmonds_karp_returns n s t calls
              (S (Z.to_nat (capacity_leaving s calls))) Hv) as (v & g' & Hek); [lia|].
  exists v, g'. split.
  - now destruct (edmonds_karp_loop_spec _ _ _ _ _ _ Hs Hek) as (_ & ? & _).
  - intros fuel Hfuel. apply (edmonds_karp_more_fuel _ fuel _ _ _ Hek). lia.
Qed.

(** C6: on a network built with arguments in range, [edmonds_karp]
    returns as soon as it is allowed enough searches, and the value it
    returns is at most the sum of the capacities of the forward edges
    leaving the source and at most the sum of the capacities of the
    forward edges entering the sink. *)
Theorem max_flow_bounded n s t calls fuel :
  valid_network n s t calls →
  ((Z.to_nat (capacity_leaving s calls) < fuel)%nat →
   ∃ v g', edmonds_karp fuel (build n s t calls) = (Return v, g'))
  ∧ ∀ v g', edmonds_karp fuel (build n s t calls) = (Return v, g') →
      v <= capacity_leaving s calls ∧ v <= capacity_entering t calls.
Proof.
  intros Hv. split; [now apply edmonds_karp_returns|].
  intros v g' Hek. pose proof (build_sound _ _ _ _ Hv) as Hs.
  destruct (build_forward _ _ _ _ Hv) as [Hcalls Hzero].
  destruct (build_ends _ _ _ _ Hv) as (_ & Hsrc & Hsnk).
  destruct (edmonds_karp_loop_spec _ _ _ _ _ _ Hs Hek)
    as (Hs' & _ & (E' & -> & HS) & Hnet).
  assert (Hne : source (build n s t calls) ≠ sink (build n s t calls))
    by apply Hs.
  rewrite <- Hcalls, (forward_calls_same_shape _ _ HS).
  rewrite capacity_leaving_forward, capacity_entering_forward.
  rewrite <- Hsrc, <- Hsnk.
  pose proof (Hnet (source (build n s t calls))) as H1.
  pose proof (Hnet (sink (build n s t calls))) as H2.
  rewrite (net_out_no_flow _ _ Hzero), Z.eqb_refl, (net_out_forward _ _ Hs') in H1.
  rewrite (net_out_no_flow _ _ Hzero), Z.eqb_refl, (net_out_forward _ _ Hs') in H2.
  destruct (sink (build n s t calls) =? source (build n s t calls)) eqn:E1; [lia|].
  destruct (source (build n s t calls) =? sink (build n s t calls)) eqn:E2; [lia|].
  simpl in *. unfold outflow, inflow in *.
  assert (Hlow : ∀ x : Edge → bool,
            0 <= total (fun e => if x e then flow e else 0) (forward_edges E')).
  { intros x. apply total_nonneg. intros e He.
    pose proof (forward_flow_bounds _ e Hs' He). destruct (x e); lia. }
  assert (Hhigh : ∀ x : Edge → bool,
            total (fun e => if x e then flow e else 0) (forward_edges E')
            <= total (fun e => if x e then capacity e else 0) (forward_edges E')).
  { intros x. apply total_le. intros e He.
    pose proof (forward_flow_bounds _ e Hs' He). destruct (x e); lia. }
  pose proof (Hlow (fun e => to_node e =? source (build n s t calls))).
  pose proof (Hlow (fun e => from_node e =? sink (build n s t calls))).
  pose proof (Hhigh (fun e => from_node e =? source (build n s t calls))).
  pose proof (Hhigh (fun e => to_node e =? sink (build n s t calls))).
  simpl in *. lia.
Qed.

(** C7: when [edmonds_karp] has returned, calling it again on the graph
    it left returns 0 (and leaves the graph as it is); and calling it on
    the network as it was before the first call (which is what a fresh
    copy of it is) returns the value of the first call, whatever the
    bound on the number of searches. *)
Theorem edmonds_karp_again fuel g v g' :
  edmonds_karp fuel g = (Return v, g') →
  (∀ fuel', (1 <= fuel')%nat → edmonds_karp fuel' g' = (Return 0, g'))
  ∧ (∀ fuel' v' g'', edmonds_karp fuel' g = (Return v', g'') → v' = v).
Proof.
  intros Hek. split.
  - intros fuel' Hfuel'.
    pose proof (edmonds_karp_loop_last _ _ _ _ _ _ Hek ltac:(lia)) as Hlast.
    destruct fuel' as [|fuel']; [lia|].
    unfold edmonds_karp. simpl. rewrite Hlast. now destruct fuel'.
  - intros fuel' v' g'' Hek'.
    pose proof (edmonds_karp_more_fuel _ (max fuel fuel') _ _ _ Hek ltac:(lia)) as H1.
    pose proof (edmonds_karp_more_fuel _ (max fuel fuel') _ _ _ Hek' ltac:(lia)) as H2.
    congruence.
Qed.

(** C9: on a network built with arguments in range, [edmonds_karp]
    returns as soon as it is allowed enough searches, and in the graph
    it leaves, at every node other than the source and the sink, the
    flow on the forward edges entering the node equals the flow on the
    forward edges leaving it. *)
Theorem flow_conservation n s t calls fuel :
  valid_network n s t calls →
  ((Z.to_nat (capacity_leaving s calls) < fuel)%nat →
   ∃ v g', edmonds_karp fuel (build n s t calls) = (Return v, g'))
  ∧ ∀ v g' node, edmonds_karp fuel (build n s t calls) = (Return v, g') →
      node ≠ s → node ≠ t →
      inflow (edges g') (node - 1) = outflow (edges g') (node - 1).
Proof.
  intros Hv. split; [now apply edmonds_karp_returns|].
  intros v g' node Hek Hns Hnt. pose proof (build_sound _ _ _ _ Hv) as Hs.
  destruct (build_forward _ _ _ _ Hv) as [_ Hzero].
  destruct (build_ends _ _ _ _ Hv) as (_ & Hsrc & Hsnk).
  destruct (edmonds_karp_loop_spec _ _ _ _ _ _ Hs Hek) as (Hs' & _ & _ & Hnet).
  specialize (Hnet (node - 1)).
  rewrite (net_out_no_flow _ _ Hzero), (net_out_forward _ _ Hs'), Hsrc, Hsnk in Hnet.
  destruct (s - 1 =? node - 1) eqn:E1; [lia|].
  destruct (t - 1 =? node - 1) eqn:E2; [lia|]. lia.
Qed.

(** C10: a [bfs] that returns 0, on any graph whatever, leaves the
    graph it was given, every field of every edge included; and at any
    point of solving a network built with arguments in range, when no
    chain of edges with remaining capacity leads from the source to the
    sink, [bfs] does return 0 with the graph as it was given. *)
Theorem bfs_without_path_is_read_only :
  (∀ g g', bfs g = (Return 0, g') → g' = g)
  ∧ ∀ n s t calls g,
      valid_network n s t calls → solving (build n s t calls) g →
      (∀ p, ¬ augmenting g p) →
      bfs g = (Return 0, g).
Proof.
  split.
  - intros g g' Hbfs.
    destruct (bfs_rounds_zero_or_positive _ _ _ _ Hbfs) as [[_ ->]|Hpos];
      [reflexivity|lia].
  - intros n s t calls g Hv Hg Hnone.
    destruct (solving_sound _ _ (build_sound _ _ _ _ Hv) Hg) as [[Hwf HP HF] _].
    destruct (bfs_rounds_spec g Hwf HP)
      as (st & _ & Hinv & [[_ H]|(p & b & Hw & _ & Hl & Hb & H)]).
    + apply H.
    + destruct (Hnone p). apply (walk_chain g st Hinv _ _ Hw).
Qed.

(** ** The search finds a shortest augmenting path *)

Lemma depth_det g st v k k' :
  bfs_inv g st → depth g (previous st) v k → depth g (previous st) v k' → k = k'.
Proof.
  intros Hinv (p & Hp & <-) (p' & Hp' & <-).
  now rewrite (walk_det g st Hinv _ _ _ Hp Hp').
Qed.

Lemma depth_of_seen g st v :
  bfs_inv g st → seen (visited st) v → ∃ k, depth g (previous st) v k.
Proof.
  intros Hinv Hv. destruct (inv_walk _ _ Hinv v Hv) as (p & Hp & _).
  exists (length p), p. auto.
Qed.

Lemma depth_seen g st v k :
  bfs_inv g st → depth g (previous st) v k → seen (visited st) v.
Proof.
  intros Hinv (p & Hp & _). inversion Hp as [|v' a e q Hv Ha He Hw]; subst.
  - apply (inv_source _ _ Hinv).
  - destruct (inv_prev _ _ Hinv _ _ Ha) as (_ & _ & _ & _ & _ & Hvis). now split.
Qed.

Lemma ascending_snoc g prev q w :
  ascending g prev q →
  (∀ v k k', v ∈ q → depth g prev v k → depth g prev w k' → (k <= k')%nat) →
  ascending g prev (q ++ [w]).
Proof.
  induction q as [|x q IH]; intros Hq Hw; simpl.
  - split; [|exact I]. intros v' k k' Hv'. now apply elem_of_nil in Hv'.
  - destruct Hq as [Hx Hq]. split.
    + intros v' k k' Hv' Hk Hk'. apply elem_of_app in Hv' as [Hv'|Hv'].
      * eauto.
      * apply list_elem_of_singleton in Hv' as ->. apply (Hw x); [left|assumption..].
    + apply IH; [assumption|]. intros v k k' Hv. apply Hw. now right.
Qed.

Lemma ascending_transfer g prev prev' q :
  (∀ v k, v ∈ q → depth g prev' v k → depth g prev v k) →
  ascending g prev q → ascending g prev' q.
Proof.
  induction q as [|x q IH]; intros Hold Hq; [exact I|].
  destruct Hq as [Hx Hq]. split.
  - intros v' k k' Hv' Hk Hk'. apply (Hx v'); [assumption|..]; apply Hold;
      try assumption; [left|now right].
  - apply IH; [|assumption]. intros v k Hv. apply Hold. now right.
Qed.

(** *** Depths when a node is discovered *)

Section Discover.
Context (g : Graph) (st : bfs_state) (a : nat) (e : Edge).
Hypothesis Hwf : well_formed g.
Hypothesis Hinv : bfs_inv g st.
Hypothesis He : edges g !! a = Some e.
Hypothesis Hcap : 0 < remaining_capacity e.
Hypothesis Hfrom : seen (visited st) (from_node e).
Hypothesis Hnew : visited st !! Z.to_nat (to_node e) = Some false.

Lemma discover_depth_mono v k :
  depth g (previous st) v k →
  depth g (previous (discover st a (to_node e))) v k.
Proof.
  intros (p & Hp & Hk). exists p. split; [|assumption].
  apply (walk_mono _ _ (previous st)); [|assumption].
  intros j y Hj. simpl. rewrite list_lookup_insert_ne; [assumption|].
  pose proof (unseen_no_previous _ _ _ Hinv Hnew). congruence.
Qed.

Lemma discover_depth_old v k :
  seen (visited st) v →
  depth g (previous (discover st a (to_node e))) v k →
  depth g (previous st) v k.
Proof.
  intros Hv Hk. destruct (depth_of_seen g st v Hinv Hv) as (k0 & Hk0).
  pose proof (discover_inv g st a e Hwf Hinv He Hcap Hfrom Hnew) as Hinv'.
  pose proof (discover_depth_mono _ _ Hk0) as Hk0'.
  now rewrite (depth_det _ _ _ _ _ Hinv' Hk Hk0').
Qed.

Lemma discover_depth_new h :
  depth g (previous st) (from_node e) h →
  depth g (previous (discover st a (to_node e))) (to_node e) (S h).
Proof.
  intros Hh. destruct (discover_depth_mono _ _ Hh) as (p & Hp & Hlen).
  destruct (wf_edge g Hwf a e He) as (_ & Hto & _).
  exists (a :: p). split; [|simpl; lia].
  apply walk_cons with e; try assumption; [lia|].
  simpl. apply list_lookup_insert_eq. rewrite (inv_len_prev _ _ Hinv). lia.
Qed.

Lemma discover_seen v :
  seen (visited (discover st a (to_node e))) v →
  v = to_node e ∨ seen (visited st) v.
Proof.
  intros [Hv0 Hv]. simpl in Hv.
  destruct (wf_edge g Hwf a e He) as (_ & Hto & _).
  destruct (decide (Z.to_nat (to_node e) = Z.to_nat v)) as [Heq|Hne].
  - left. lia.
  - right. rewrite list_lookup_insert_ne in Hv by assumption. now split.
Qed.

End Discover.

(** *** The invariant of the search by layers *)

Lemma scan_edge g u h done a todo st e st' :
  well_formed g → bfs_inv g st → scanning g u h done (a :: todo) st →
  edges g !! a = Some e → from_node e = u →
  visit_edge (edges g) st a = Return st' →
  scanning g u h done todo st'.
Proof.
  intros Hwf Hinv Hsc He Hu Hvisit.
  pose proof (depth_seen g st u h Hinv (sc_depth _ _ _ _ _ _ Hsc)) as Hseen_u.
  destruct (visit_edge_cases g st a e Hwf (inv_len_vis _ _ Hinv)
              (inv_len_prev _ _ Hinv) He) as [[Heq Hold]|(Heq & Hcap & Hnew)];
    rewrite Heq in Hvisit; injection Hvisit as <-.
  - destruct Hsc as [H1 H2 H3 H4 H5 H6 H7]. split; try assumption.
    intros a0 e0 He0 Hu0 Hcap0 Hnot.
    destruct (decide (a0 = a)) as [->|Hne].
    + assert (e0 = e) by congruence. subst e0.
      destruct Hold as [Hle|Hseen]; [lia|]. now apply depth_of_seen.
    + apply (H7 a0 e0); try assumption.
      intros Hin. apply elem_of_cons in Hin as [?|?]; contradiction.
  - subst u.
    pose proof (discover_inv g st a e Hwf Hinv He Hcap Hseen_u Hnew) as Hinv'.
    pose proof (discover_depth_new g st a e Hwf Hinv He Hnew h
                  (sc_depth _ _ _ _ _ _ Hsc)) as Hw.
    assert (Hmono := discover_depth_mono g st a e Hinv Hnew).
    assert (Hback := discover_depth_old g st a e Hwf Hinv He Hcap Hseen_u Hnew).
    destruct Hsc as [H1 H2 H3 H4 H5 H6 H7]. split.
    + now apply Hmono.
    + intros v k Hv Hk. simpl in Hv. apply elem_of_app in Hv as [Hv|Hv].
      * apply (H2 v k Hv). apply Hback; [|assumption]. now apply (inv_queue _ _ Hinv).
      * apply list_elem_of_singleton in Hv as ->.
        rewrite (depth_det _ _ _ _ _ Hinv' Hk Hw). lia.
    + simpl bfs_queue. apply ascending_snoc.
      * apply (ascending_transfer g (previous st)); [|assumption].
        intros v k Hv. apply Hback. now apply (inv_queue _ _ Hinv).
      * intros v k k' Hv Hk Hk'.
        rewrite (depth_det _ _ _ _ _ Hinv' Hk' Hw).
        apply (H4 v). apply Hback; [|assumption]. now apply (inv_queue _ _ Hinv).
    + intros v k Hk.
      destruct (discover_seen g st a e Hwf He v (depth_seen _ _ _ _ Hinv' Hk)) as [->|Hv].
      * rewrite (depth_det _ _ _ _ _ Hinv' Hk Hw). lia.
      * apply (H4 v). now apply Hback.
    + intros v Hv a0 e0 He0 Hf0 Hc0.
      destruct (H5 v Hv a0 e0 He0 Hf0 Hc0) as (k & k' & Hk & Hk' & Hle).
      exists k, k'. auto.
    + intros v Hv. destruct (discover_seen g st a e Hwf He v Hv) as [->|Hold].
      * left. simpl. apply elem_of_app. right. now apply list_elem_of_singleton.
      * destruct (H6 v Hold) as [Hq|[Hd|Hu]]; auto.
        left. simpl. apply elem_of_app. now left.
    + intros a0 e0 He0 Hu0 Hcap0 Hnot.
      destruct (decide (a0 = a)) as [->|Hne].
      * assert (e0 = e) by congruence. subst e0. eauto.
      * destruct (H7 a0 e0) as (k & Hk); try assumption; [|eauto].
        intros Hin. apply elem_of_cons in Hin as [?|?]; contradiction.
Qed.

Lemma scan_edges g u h done : ∀ todo st st',
  well_formed g → bfs_inv g st → scanning g u h done todo st →
  (∀ a, a ∈ todo → ∃ e, edges g !! a = Some e ∧ from_node e = u) →
  visit_edges (edges g) st todo = Return st' →
  scanning g u h done [] st' ∧ bfs_inv g st'.
Proof.
  induction todo as [|a todo IH]; intros st st' Hwf Hinv Hsc Hrow Hvisit;
    simpl in Hvisit.
  - injection Hvisit as <-. auto.
  - destruct (Hrow a) as (e & He & Hu); [left|].
    apply bind_Return in Hvisit as (st1 & H1 & Hvisit).
    pose proof (scan_edge g u h done a todo st e st1 Hwf Hinv Hsc He Hu H1) as Hsc1.
    assert (Hseen : seen (visited st) (from_node e)).
    { rewrite Hu. apply (depth_seen g st u h Hinv), Hsc. }
    destruct (visit_edge_inv g st a e Hwf Hinv He Hseen) as (st1' & H1' & Hinv1 & _).
    assert (st1' = st1) by congruence. subst st1'.
    apply (IH st1 st' Hwf Hinv1 Hsc1); [|assumption].
    intros x Hx. apply Hrow. now right.
Qed.

(** With [u] at the head of the queue, at depth [h]: a chain of [k]
    edges with remaining capacity from the source to [w] means that [w]
    has a recorded path of at most [k] edges, unless [k] is at least
    [h]. *)
Lemma chain_depth g st done u rest h :
  bfs_inv g st → layered g done st → bfs_queue st = u :: rest →
  depth g (previous st) u h →
  ∀ q w, chain (edges g) (source g) w q →
    (∀ a, a ∈ q → ∃ e, edges g !! a = Some e ∧ 0 < remaining_capacity e) →
    (∃ k, depth g (previous st) w k ∧ (k <= length q)%nat) ∨ (h <= length q)%nat.
Proof.
  intros Hinv Hla Hq Hh q. induction q as [|a q IH]; intros w Hch Hpos.
  - inversion Hch; subst. left. exists 0%nat. split; [|lia].
    exists []. split; [constructor|reflexivity].
  - inversion Hch as [|w' a' e q' He Hto Hrest]; subst.
    destruct (IH (from_node e) Hrest) as [(k & Hk & Hle)|Hle];
      [intros x Hx; apply Hpos; now right| |right; simpl; lia].
    destruct (la_cover _ _ _ Hla _ (depth_seen _ _ _ _ Hinv Hk)) as [Hin|Hdone].
    + right. rewrite Hq in Hin. pose proof (la_sorted _ _ _ Hla) as Hasc.
      rewrite Hq in Hasc. destruct Hasc as [Hhead _].
      apply elem_of_cons in Hin as [Heq|Hin].
      * rewrite Heq in Hk. rewrite (depth_det _ _ _ _ _ Hinv Hh Hk). simpl. lia.
      * specialize (Hhead _ _ _ Hin Hh Hk). simpl. lia.
    + left. destruct (Hpos a) as (e' & He' & Hcap); [left|].
      assert (e' = e) by congruence. subst e'.
      destruct (la_done _ _ _ Hla _ Hdone a e He eq_refl Hcap) as (k1 & k2 & Hk1 & Hk2 & Hle').
      rewrite (depth_det _ _ _ _ _ Hinv Hk1 Hk) in Hle'.
      exists k2. split; [assumption|simpl; lia].
Qed.

(** With an empty queue, every node a chain of edges with remaining
    capacity leads to has a recorded path. *)
Lemma chain_seen g st done :
  bfs_inv g st → layered g done st → bfs_queue st = [] →
  ∀ q w, chain (edges g) (source g) w q →
    (∀ a, a ∈ q → ∃ e, edges g !! a = Some e ∧ 0 < remaining_capacity e) →
    ∃ k, depth g (previous st) w k.
Proof.
  intros Hinv Hla Hq q. induction q as [|a q IH]; intros w Hch Hpos.
  - inversion Hch; subst. exists 0%nat, []. split; [constructor|reflexivity].
  - inversion Hch as [|w' a' e q' He Hto Hrest]; subst.
    destruct (IH (from_node e) Hrest) as (k & Hk);
      [intros x Hx; apply Hpos; now right|].
    destruct (la_cover _ _ _ Hla _ (depth_seen _ _ _ _ Hinv Hk)) as [Hin|Hdone].
    + rewrite Hq in Hin. now apply elem_of_nil in Hin.
    + destruct (Hpos a) as (e' & He' & Hcap); [left|].
      assert (e' = e) by congruence. subst e'.
      destruct (la_done _ _ _ Hla _ Hdone a e He eq_refl Hcap) as (k1 & k2 & _ & Hk2 & _).
      eauto.
Qed.

Lemma bfs_loop_shortest g : ∀ fuel st done st',
  well_formed g → bfs_inv g st → layered g done st →
  bfs_loop fuel g st = Return st' → search_post g (previous st').
Proof.
  assert (Hempty : ∀ st done, well_formed g → bfs_inv g st → layered g done st →
            bfs_queue st = [] → search_post g (previous st)).
  { intros st done Hwf Hinv Hla Hq.
    assert (Hnone : ∀ q, ¬ augmenting g q).
    { intros q [Hch Hpos].
      destruct (chain_seen g st done Hinv Hla Hq q _ Hch Hpos) as (k & Hk).
      destruct (la_cover _ _ _ Hla _ (depth_seen _ _ _ _ Hinv Hk)) as [Hin|Hdone].
      - rewrite Hq in Hin. now apply elem_of_nil in Hin.
      - now apply (la_sink _ _ _ Hla). }
    split; [|auto]. intros p q _ Hq'. now destruct (Hnone q). }
  induction fuel as [|fuel IH]; intros st done st' Hwf Hinv Hla Hloop; simpl in Hloop;
    destruct (bfs_queue st) as [|u rest] eqn:Hq; try discriminate;
    try (injection Hloop as <-; now apply (Hempty st done)).
  assert (Hu : seen (visited st) u).
  { apply (inv_queue _ _ Hinv). rewrite Hq. left. }
  destruct (depth_of_seen g st u Hinv Hu) as (h & Hh).
  destruct (u =? sink g) eqn:Hsink.
  - injection Hloop as <-. simpl. apply Z.eqb_eq in Hsink. subst u. split.
    + intros p q Hp [Hch Hpos].
      assert (Hp' : depth g (previous st) (sink g) (length p)) by (now exists p).
      rewrite <- (depth_det _ _ _ _ _ Hinv Hh Hp').
      destruct (chain_depth g st done _ rest h Hinv Hla Hq Hh q _ Hch Hpos)
        as [(k & Hk & Hle)|Hle]; [|assumption].
      now rewrite (depth_det _ _ _ _ _ Hinv Hh Hk).
    + intros Hnone. destruct Hh as (p & Hp & _).
      inversion Hp as [Hs|v a e p' Hv Ha He Hw]; subst.
      * pose proof (wf_distinct g Hwf). congruence.
      * congruence.
  - apply bind_Return in Hloop as (row & Hrow & Hloop).
    apply bind_Return in Hloop as (st2 & Hvisit & Hloop).
    destruct Hu as [Hu0 Hu].
    apply py_get_Return in Hrow as (j & Hj & Hrow).
    rewrite py_index_in_range in Hj.
    2:{ apply lookup_lt_Some in Hu. rewrite (inv_len_vis _ _ Hinv) in Hu.
        rewrite (wf_rows g Hwf). lia. }
    injection Hj as <-.
    set (st1 := {| bfs_queue := rest; visited := visited st; previous := previous st |}) in *.
    assert (Hinv1 : bfs_inv g st1).
    { destruct Hinv as [Hlv Hlp Hqs Hs Hsp Hp Hw]. split; simpl; try assumption.
      intros v Hv. apply Hqs. rewrite Hq. now right. }
    assert (Hsc1 : scanning g u h done row st1).
    { pose proof (la_sorted _ _ _ Hla) as Hasc. rewrite Hq in Hasc.
      destruct Hasc as [Hhead Hasc]. split; simpl; try assumption.
      - intros v k Hv Hk. now apply (Hhead v h k).
      - intros v k Hk. now apply (la_bound _ _ _ Hla u rest h v k).
      - apply Hla.
      - intros v Hv. destruct (la_cover _ _ _ Hla v Hv) as [Hin|Hd]; [|auto].
        rewrite Hq in Hin. apply elem_of_cons in Hin as [->|Hin]; auto.
      - intros a e He Hf _ Hnot. exfalso. apply Hnot.
        destruct (wf_edge g Hwf a e He) as (_ & _ & row' & Hrow' & Hin).
        rewrite Hf in Hrow'. congruence. }
    destruct (scan_edges g u h done row st1 st2 Hwf Hinv1 Hsc1) as [Hsc2 Hinv2];
      [|assumption|].
    { intros a Ha. destruct (wf_row g Hwf _ _ _ Hrow Ha) as (e & He & Hf).
      exists e. split; [assumption|lia]. }
    apply (IH st2 (fun v => done v ∨ v = u) st' Hwf Hinv2); [|assumption].
    destruct Hsc2 as [H1 H2 H3 H4 H5 H6 H7]. split.
    + assumption.
    + intros u2 rest2 h2 v k Hq2 Hh2 Hk.
      assert (h <= h2)%nat by (apply (H2 u2); [rewrite Hq2; left|assumption]).
      specialize (H4 v k Hk). lia.
    + intros v [Hv| ->]; [now apply H5|].
      intros a e He Hf Hcap. destruct (H7 a e He Hf Hcap) as (k & Hk).
      { intros Hin. now apply elem_of_nil in Hin. }
      exists h, k. repeat split; try assumption. now apply (H4 (to_node e)).
    + intros v Hv. destruct (H6 v Hv) as [?|[?|?]]; auto.
    + intros [Hd|Heq]; [now apply (la_sink _ _ _ Hla)|].
      apply Z.eqb_neq in Hsink. congruence.
Qed.

Lemma bfs_start_layered g st0 :
  well_formed g → bfs_start g = Return st0 → layered g (fun _ => False) st0.
Proof.
  intros Hwf. pose proof (wf_source g Hwf) as Hs. unfold bfs_start, py_repeat.
  rewrite py_set_in_range by (rewrite length_replicate; lia). simpl.
  intros [= <-].
  assert (Hwalk : ∀ v p, walk (edges g) (source g)
                    (replicate (Z.to_nat (num_nodes g)) None) v p → p = []).
  { intros v p Hp. inversion Hp as [|v' a e q Hv Ha He Hw]; subst; [reflexivity|].
    apply lookup_replicate in Ha as [? _]. discriminate. }
  split; simpl.
  - split; [|exact I]. intros v' k k' Hv'. now apply elem_of_nil in Hv'.
  - intros u rest h v k _ _ (p & Hp & <-). rewrite (Hwalk _ _ Hp). simpl. lia.
  - intros v [].
  - intros v [Hv0 Hv]. left. apply list_elem_of_singleton.
    destruct (decide (Z.to_nat (source g) = Z.to_nat v)) as [Heq|Hne]; [lia|].
    rewrite list_lookup_insert_ne in Hv by assumption.
    apply lookup_replicate in Hv as [? _]. discriminate.
  - tauto.
Qed.

Lemma bfs_search_post g prev :
  well_formed g → bfs_search g = Return prev → search_post g prev.
Proof.
  intros Hwf Hsearch. unfold bfs_search in Hsearch.
  destruct (bfs_start_inv g Hwf) as (st0 & Hstart & Hinv0 & _).
  rewrite Hstart in Hsearch. simpl in Hsearch.
  apply bind_Return in Hsearch as (st & Hloop & Hsearch). injection Hsearch as <-.
  apply (bfs_loop_shortest g (Z.to_nat (num_nodes g)) st0 (fun _ => False) st
           Hwf Hinv0); [|assumption].
  now apply bfs_start_layered.
Qed.

(** ** What one search does to the flows *)

(** The store after [b] has been pushed along distinct edges [p]: each
    edge keeps everything but its flow, which has gained [b] if the edge
    is in [p] and lost [b] if its residual is. *)
Lemma push_all_lookup p : ∀ E b,
  paired E → NoDup p → (∀ a, a ∈ p → (a < length E)%nat) →
  length (push_all E p b) = length E
  ∧ ∀ x e r, E !! x = Some e → residual e = Some r →
      ∃ e', push_all E p b !! x = Some e'
            ∧ capacity e' = capacity e ∧ from_node e' = from_node e
            ∧ to_node e' = to_node e ∧ residual e' = residual e
            ∧ flow e' = flow e + (if decide (x ∈ p) then b else 0)
                               - (if decide (r ∈ p) then b else 0).
Proof.
  induction p as [|a p IH]; intros E b HP Hnd Hall.
  - split; [reflexivity|]. intros x e r Hx Hr. exists e.
    rewrite !decide_False by apply not_elem_of_nil.
    split; [exact Hx|]. repeat split; lia.
  - apply NoDup_cons in Hnd as [Hnotin Hnd].
    destruct (lookup_lt_is_Some_2 E a) as [ea Hea]; [apply Hall; left|].
    destruct (HP a ea Hea) as (ra & er & Hra & Hne & Her & Hera & Hfl).
    destruct (push_flow_pushed E a ea b HP Hea)
      as (ra' & er' & Hra' & _ & Her' & _ & Hpush).
    assert (ra' = ra) by congruence. subst ra'.
    assert (er' = er) by congruence. subst er'.
    destruct (push_flow_paired E a b HP) as (E1 & Hpush1 & HP1 & Hlen1);
      [now apply lookup_lt_Some in Hea|].
    rewrite Hpush in Hpush1. injection Hpush1 as <-.
    rewrite push_all_cons, Hpush. cbn [snd].
    destruct (IH (pushed E a ra ea er b) b HP1 Hnd) as [Hlen IHx].
    { intros a' Ha'. rewrite Hlen1. apply Hall. now right. }
    split; [congruence|]. intros x e r Hx Hr.
    pose proof (lookup_pushed E a ra ea er b x Hea Her Hne) as Hlk.
    destruct (decide (x = a)) as [->|Hxa].
    + assert (e = ea) by congruence. subst e.
      assert (r = ra) by congruence. subst r.
      destruct (IHx a _ ra Hlk Hra) as (e' & He' & Hc & Hf & Ht & Hres & Hflow).
      exists e'. split; [exact He'|]. cbn [set_flow capacity from_node to_node
        residual flow] in *. repeat split; try assumption.
      rewrite Hflow, (decide_True (P := a ∈ a :: p)) by left.
      rewrite (decide_False (P := a ∈ p)) by assumption.
      destruct (decide (ra ∈ p)) as [Hin|Hout].
      * rewrite decide_True by (now right). lia.
      * rewrite decide_False; [lia|]. intros [?|?]%elem_of_cons; congruence.
    + destruct (decide (x = ra)) as [->|Hxr].
      * assert (e = er) by congruence. subst e.
        assert (r = a) by congruence. subst r.
        destruct (IHx ra _ a Hlk Hera) as (e' & He' & Hc & Hf & Ht & Hres & Hflow).
        exists e'. split; [exact He'|]. cbn [set_flow capacity from_node to_node
          residual flow] in *. repeat split; try assumption.
        rewrite Hflow, (decide_True (P := a ∈ a :: p)) by left.
        rewrite (decide_False (P := a ∈ p)) by assumption.
        destruct (decide (ra ∈ p)) as [Hin|Hout].
        -- rewrite decide_True by (now right). lia.
        -- rewrite decide_False; [lia|]. intros [?|?]%elem_of_cons; congruence.
      * rewrite Hx in Hlk.
        destruct (IHx x e r Hlk Hr) as (e' & He' & Hc & Hf & Ht & Hres & Hflow).
        exists e'. split; [exact He'|]. repeat split; try assumption.
        assert (Hra_ne : r ≠ a).
        { intros ->. destruct (HP x e Hx) as (r0 & e0 & Hr0 & _ & He0 & He0x & _).
          assert (r0 = a) by congruence. subst r0.
          assert (e0 = ea) by congruence. subst e0. congruence. }
        rewrite Hflow.
        assert (Hx_iff : x ∈ a :: p ↔ x ∈ p).
        { rewrite elem_of_cons. tauto. }
        assert (Hr_iff : r ∈ a :: p ↔ r ∈ p).
        { rewrite elem_of_cons. tauto. }
        destruct (decide (x ∈ p)) as [Hin|Hout];
          destruct (decide (r ∈ p)) as [Hin'|Hout'];
          destruct (decide (x ∈ a :: p)); destruct (decide (r ∈ a :: p));
          tauto || lia.
Qed.

(** The path a search records does not go through an edge and through
    its residual. *)
Lemma walk_avoids_residuals g st v p a e r :
  well_formed g → paired (edges g) → bfs_inv g st →
  walk (edges g) (source g) (previous st) v p →
  a ∈ p → edges g !! a = Some e → residual e = Some r → r ∉ p.
Proof.
  intros Hwf HP Hinv Hw Ha He Hr Hin.
  pose proof (twins_reversed _ (wf_twins g Hwf)) as Hrev.
  destruct (HP a e He) as (r0 & er & Hr0 & _ & Her & Hera & _).
  assert (r0 = r) by congruence. subst r0.
  destruct (walk_in g st Hinv v p a Hw Ha) as (e1 & q & He1 & Hq & _).
  assert (e1 = e) by congruence. subst e1.
  destruct (walk_in g st Hinv v p r Hw Hin) as (e2 & q' & He2 & Hq' & _).
  assert (e2 = er) by congruence. subst e2.
  destruct (walk_head g st Hinv _ _ _ Hq) as (e1 & He1' & _ & _ & Hq1).
  assert (e1 = e) by congruence. subst e1.
  destruct (walk_head g st Hinv _ _ _ Hq') as (e2 & He2' & _ & _ & Hq2).
  assert (e2 = er) by congruence. subst e2.
  rewrite (Hrev a e r er He Hr Her) in Hq2.
  rewrite <- (Hrev r er a e Her Hera He) in Hq'.
  pose proof (walk_det g st Hinv _ _ _ Hq1 Hq') as H1.
  pose proof (walk_det g st Hinv _ _ _ Hq2 Hq) as H2.
  subst q. apply (f_equal length) in H2. simpl in H2. lia.
Qed.

(** C8: at any point of solving a network built with arguments in
    range, [bfs] returns a value [b], 0 or positive.  When [b] is
    positive, its predecessor array records a path [p] (last edge
    first) from the source to the sink through edges with remaining
    capacity; no such path has fewer edges; [b] is the least remaining
    capacity along [p], as it was when [bfs] was called; and [bfs] has
    augmented along [p]: in the graph it leaves, the flow of each edge
    of [p] has gained [b], the flow of the residual of each edge of [p]
    has lost [b], and every other flow, every capacity, endpoint and
    residual link, the adjacency lists, the source and the sink are as
    they were.  When there is no such path, [bfs] returns 0; and when it
    returns 0 there is none and the graph is left as it was. *)
Theorem bfs_augments_shortest_path n s t calls g :
  valid_network n s t calls → solving (build n s t calls) g →
  ∃ b g',
    bfs g = (Return b, g') ∧ 0 <= b
    ∧ (0 < b →
       ∃ previous p,
         bfs_search g = Return previous
         ∧ walk (edges g) (source g) previous (sink g) p
         ∧ augmenting g p
         ∧ (∀ q, augmenting g q → (length p <= length q)%nat)
         ∧ (∀ a e, a ∈ p → edges g !! a = Some e → b <= remaining_capacity e)
         ∧ (∃ a e, a ∈ p ∧ edges g !! a = Some e ∧ remaining_capacity e = b)
         ∧ num_nodes g' = num_nodes g ∧ source g' = source g
         ∧ sink g' = sink g ∧ graph g' = graph g
         ∧ length (edges g') = length (edges g)
         ∧ ∀ x e, edges g !! x = Some e →
             ∃ r e', residual e = Some r ∧ edges g' !! x = Some e'
               ∧ capacity e' = capacity e ∧ from_node e' = from_node e
               ∧ to_node e' = to_node e ∧ residual e' = residual e
               ∧ (x ∈ p → flow e' = flow e + b)
               ∧ (r ∈ p → flow e' = flow e - b)
               ∧ (x ∉ p → r ∉ p → flow e' = flow e))
    ∧ ((∀ q, ¬ augmenting g q) → b = 0)
    ∧ (b = 0 → g' = g ∧ ∀ q, ¬ augmenting g q).
Proof.
  intros Hv Hg.
  destruct (solving_sound _ _ (build_sound _ _ _ _ Hv) Hg) as [[Hwf HP HF] _].
  destruct (bfs_rounds_spec g Hwf HP)
    as (st & Hsearch & Hinv & [[Hnone H]|(p & b & Hw & _ & Hl & Hb & H)]);
    unfold bfs; rewrite H.
  - exists 0, g. split; [reflexivity|]. split; [lia|]. split; [lia|].
    split; [reflexivity|]. intros _. split; [reflexivity|].
    now apply (bfs_search_post g _ Hwf Hsearch).
  - pose proof (walk_length g st Hinv _ _ Hw) as Hlen.
    rewrite decide_True by lia. rewrite take_ge by lia.
    pose proof (walk_chain g st Hinv _ _ Hw) as Haug.
    eexists b, _. split; [reflexivity|]. split; [lia|]. split; [|split].
    + intros _. exists (previous st), p. split; [assumption|]. split; [assumption|].
      split; [exact Haug|]. split.
      { intros q Hq. now apply (bfs_search_post g _ Hwf Hsearch). }
      destruct Hl as (_ & Hall & [?|Hex]); [discriminate|].
      split; [exact Hall|]. split; [exact Hex|].
      destruct (push_all_lookup p (edges g) b HP (walk_NoDup g st Hinv _ _ Hw))
        as [Hsame Hlookup].
      { intros a Ha. destruct (proj2 Haug a Ha) as (e & He & _).
        now apply lookup_lt_Some in He. }
      cbn [num_nodes source sink graph edges with_edges].
      do 4 (split; [reflexivity|]). split; [exact Hsame|].
      intros x e Hx.
      destruct (HP x e Hx) as (r & er & Hr & _ & Her & Hrx & _).
      destruct (Hlookup x e r Hx Hr) as (e' & He' & Hc & Hf & Ht & Hres & Hflow).
      exists r, e'. split; [exact Hr|]. split; [exact He'|].
      do 4 (split; [assumption|]).
      split; [|split].
      * intros Hin.
        pose proof (walk_avoids_residuals g st _ p x e r Hwf HP Hinv Hw Hin Hx Hr).
        rewrite Hflow, decide_True, decide_False by assumption. lia.
      * intros Hin.
        pose proof (walk_avoids_residuals g st _ p r er x Hwf HP Hinv Hw Hin Her Hrx).
        rewrite Hflow, decide_False, decide_True by assumption. lia.
      * intros Hout Hout'.
        rewrite Hflow, !decide_False by assumption. lia.
    + intros Hnone. now destruct (Hnone p).
    + lia.
Qed.

(** ** The theorems at work on concrete networks *)

Lemma one_edge_valid : valid_network 2 1 2 [(1, 2, 5)].
Proof. valid_network_tac. Defined.

Lemma scenario1_valid : valid_network 10 1 10 scenario1_calls.
Proof. unfold scenario1_calls. valid_network_tac. Defined.

Lemma residual_flow_opposite_witness :
  reachable (snd (edmonds_karp 2 one_edge))
  ∧ ∃ e, edges (snd (edmonds_karp 2 one_edge)) !! 0%nat = Some e
         ∧ ∃ r e', residual e = Some r
                   ∧ edges (snd (edmonds_karp 2 one_edge)) !! r = Some e'
                   ∧ residual e' = Some 0%nat ∧ flow e = - flow e'.
Proof.
  assert (Hr : reachable (snd (edmonds_karp 2 one_edge))).
  { apply reach_edmonds_karp.
    apply (reach_add_edge (Graph_init 2 1 2) 1 2 5), reach_init. }
  split; [exact Hr|].
  exists {| capacity := 5; from_node := 0; to_node := 1; flow := 5;
            residual := Some 1%nat |}.
  split; [reflexivity|].
  apply (residual_flow_opposite _ 0 _ Hr). reflexivity.
Defined.

Lemma flow_within_capacity_witness :
  ∃ d, edges (snd (edmonds_karp 2 one_edge)) !! (2 * 0)%nat = Some d
       ∧ [(1, 2, 5)] !! 0%nat = Some (from_node d + 1, to_node d + 1, capacity d)
       ∧ 0 <= flow d <= capacity d
       ∧ ∃ r, edges (snd (edmonds_karp 2 one_edge)) !! S (2 * 0) = Some r
              ∧ residual d = Some (S (2 * 0)) ∧ residual r = Some (2 * 0)%nat
              ∧ capacity r = 0 ∧ flow r <= 0.
Proof.
  exists {| capacity := 5; from_node := 0; to_node := 1; flow := 5;
            residual := Some 1%nat |}.
  split; [reflexivity|].
  apply (flow_within_capacity 2 1 2 [(1, 2, 5)] (snd (edmonds_karp 2 one_edge)) 0).
  - exact one_edge_valid.
  - apply solving_edmonds_karp, solving_start.
  - reflexivity.
Defined.

Lemma edmonds_karp_total_witness :
  valid_network 10 1 10 scenario1_calls
  ∧ ∃ v g', 0 <= v ∧ ∀ fuel,
      (Z.to_nat (capacity_leaving 1 scenario1_calls) < fuel)%nat →
      edmonds_karp fuel (build 10 1 10 scenario1_calls) = (Return v, g').
Proof.
  split; [exact scenario1_valid|].
  apply (edmonds_karp_total 10 1 10 scenario1_calls scenario1_valid).
Defined.

Lemma max_flow_bounded_witness :
  edmonds_karp 3 (build 10 1 10 scenario1_calls)
  = (Return 7, snd (edmonds_karp 3 (build 10 1 10 scenario1_calls)))
  ∧ 7 <= capacity_leaving 1 scenario1_calls
  ∧ 7 <= capacity_entering 10 scenario1_calls.
Proof.
  assert (H : edmonds_karp 3 (build 10 1 10 scenario1_calls)
              = (Return 7, snd (edmonds_karp 3 (build 10 1 10 scenario1_calls))))
    by (vm_compute; reflexivity).
  split; [exact H|].
  apply (proj2 (max_flow_bounded 10 1 10 scenario1_calls 3 scenario1_valid) 7 _ H).
Defined.

Lemma edmonds_karp_again_witness :
  edmonds_karp 3 (build 10 1 10 scenario1_calls)
  = (Return 7, snd (edmonds_karp 3 (build 10 1 10 scenario1_calls)))
  ∧ (∀ fuel', (1 <= fuel')%nat →
       edmonds_karp fuel' (snd (edmonds_karp 3 (build 10 1 10 scenario1_calls)))
       = (Return 0, snd (edmonds_karp 3 (build 10 1 10 scenario1_calls))))
  ∧ (∀ fuel' v' g'',
       edmonds_karp fuel' (build 10 1 10 scenario1_calls) = (Return v', g'') →
       v' = 7).
Proof.
  assert (H : edmonds_karp 3 (build 10 1 10 scenario1_calls) = (Return 7, snd (edmonds_karp 3 (build 10 1 10 scenario1_calls))))
    by (vm_compute; reflexivity).
  split; [exact H|].
  apply (edmonds_karp_again 3 (build 10 1 10 scenario1_calls) 7 _ H).
Defined.

Lemma bfs_augments_shortest_path_witness :
  ∃ b g',
    bfs (build 10 1 10 scenario1_calls) = (Return b, g') ∧ 0 <= b
    ∧ (0 < b →
       ∃ previous p,
         bfs_search (build 10 1 10 scenario1_calls) = Return previous
         ∧ walk (edges (build 10 1 10 scenario1_calls))
             (source (build 10 1 10 scenario1_calls)) previous
             (sink (build 10 1 10 scenario1_calls)) p
         ∧ augmenting (build 10 1 10 scenario1_calls) p
         ∧ (∀ q, augmenting (build 10 1 10 scenario1_calls) q →
                 (length p <= length q)%nat)
         ∧ (∀ a e, a ∈ p → edges (build 10 1 10 scenario1_calls) !! a = Some e →
                   b <= remaining_capacity e)
         ∧ (∃ a e, a ∈ p ∧ edges (build 10 1 10 scenario1_calls) !! a = Some e
                   ∧ remaining_capacity e = b)
         ∧ num_nodes g' = num_nodes (build 10 1 10 scenario1_calls)
         ∧ source g' = source (build 10 1 10 scenario1_calls)
         ∧ sink g' = sink (build 10 1 10 scenario1_calls)
         ∧ graph g' = graph (build 10 1 10 scenario1_calls)
         ∧ length (edges g') = length (edges (build 10 1 10 scenario1_calls))
         ∧ ∀ x e, edges (build 10 1 10 scenario1_calls) !! x = Some e →
             ∃ r e', residual e = Some r ∧ edges g' !! x = Some e'
               ∧ capacity e' = capacity e ∧ from_node e' = from_node e
               ∧ to_node e' = to_node e ∧ residual e' = residual e
               ∧ (x ∈ p → flow e' = flow e + b)
               ∧ (r ∈ p → flow e' = flow e - b)
               ∧ (x ∉ p → r ∉ p → flow e' = flow e))
    ∧ ((∀ q, ¬ augmenting (build 10 1 10 scenario1_calls) q) → b = 0)
    ∧ (b = 0 → g' = build 10 1 10 scenario1_calls
               ∧ ∀ q, ¬ augmenting (build 10 1 10 scenario1_calls) q).
Proof.
  apply (bfs_augments_shortest_path 10 1 10 scenario1_calls _
           scenario1_valid (solving_start _)).
Defined.

Lemma flow_conservation_witness :
  edmonds_karp 3 (build 10 1 10 scenario1_calls)
  = (Return 7, snd (edmonds_karp 3 (build 10 1 10 scenario1_calls)))
  ∧ inflow (edges (snd (edmonds_karp 3 (build 10 1 10 scenario1_calls)))) (5 - 1)
    = outflow (edges (snd (edmonds_karp 3 (build 10 1 10 scenario1_calls)))) (5 - 1).
Proof.
  assert (H : edmonds_karp 3 (build 10 1 10 scenario1_calls)
              = (Return 7, snd (edmonds_karp 3 (build 10 1 10 scenario1_calls))))
    by (vm_compute; reflexivity).
  split; [exact H|].
  apply (proj2 (flow_conservation 10 1 10 scenario1_calls 3 scenario1_valid) 7 _ 5 H);
    lia.
Defined.

Lemma one_edge_saturated q : ¬ augmenting (snd (edmonds_karp 2 (build 2 1 2 [(1, 2, 5)]))) q.
Proof.
  intros [Hch Hpos]. inversion Hch as [|v a e p He Hto Hrest]; subst.
  destruct (Hpos a) as (e' & He' & Hcap); [left|].
  assert (e' = e) by congruence. subst e'.
  destruct a as [|[|a]]; vm_compute in He; [| |discriminate];
    injection He as <-; [vm_compute in Hcap|vm_compute in Hto]; discriminate.
Defined.

Lemma bfs_without_path_is_read_only_witness :
  bfs (snd (edmonds_karp 2 (build 2 1 2 [(1, 2, 5)])))
  = (Return 0, snd (edmonds_karp 2 (build 2 1 2 [(1, 2, 5)]))).
Proof.
  apply (proj2 bfs_without_path_is_read_only 2 1 2 [(1, 2, 5)]).
  - exact one_edge_valid.
  - apply solving_edmonds_karp, solving_start.
  - exact one_edge_saturated.
Defined.

(** * Further properties of the code *)

(** ** What solving never touches *)

Lemma push_flow_same_shape E a b : same_shape E (snd (push_flow E a b)).
Proof.
  unfold push_flow. destruct (E !! a) as [e|] eqn:He; [|apply same_shape_refl].
  pose proof (same_shape_insert E a e (flow e + b) He) as H1.
  destruct (residual e) as [r|]; [|exact H1].
  destruct (<[a:=set_flow e (flow e + b)]> E !! r) as [er|] eqn:Her; [|exact H1].
  simpl. eapply same_shape_trans; [exact H1|]. now apply same_shape_insert.
Qed.

Lemma augment_loop_same_shape fuel previous b : ∀ edge E,
  same_shape E (snd (augment_loop fuel previous b edge E)).
Proof.
  induction fuel as [|fuel IH]; intros [a|] E; simpl; try apply same_shape_refl.
  pose proof (push_flow_same_shape E a b) as H1.
  destruct (push_flow E a b) as [[[]|e|] E1]; simpl in *; try exact H1.
  destruct (E1 !! a) as [e1|]; [|exact H1].
  destruct (py_get previous (from_node e1)) as [next|e|]; simpl; try exact H1.
  eapply same_shape_trans; [exact H1|apply IH].
Qed.

Lemma bfs_rounds_frame rounds g :
  ∃ E', snd (bfs_rounds rounds g) = with_edges g E' ∧ same_shape (edges g) E'.
Proof.
  assert (Hid : ∃ E', g = with_edges g E' ∧ same_shape (edges g) E').
  { exists (edges g). now rewrite with_edges_id. }
  unfold bfs_rounds.
  destruct (bfs_search g) as [previous| |]; try exact Hid.
  destruct (py_get previous (sink g)) as [[a|]| |]; try exact Hid.
  destruct (bottleneck_loop _ _ _ _ _) as [b| |]; try exact Hid.
  pose proof (augment_loop_same_shape rounds previous b (Some a) (edges g)) as H.
  destruct (augment_loop rounds previous b (Some a) (edges g)) as [[u|e|] E'];
    exists E'; auto.
Qed.

Lemma edmonds_karp_loop_frame fuel : ∀ g max_flow flow,
  ∃ E', snd (edmonds_karp_loop fuel g max_flow flow) = with_edges g E'
        ∧ same_shape (edges g) E'.
Proof.
  induction fuel as [|fuel IH]; intros g m f; simpl.
  - exists (edges g). rewrite with_edges_id. now destruct (0 <? f).
  - destruct (0 <? f); [|exists (edges g); now rewrite with_edges_id].
    destruct (bfs_rounds_frame (Z.to_nat (num_nodes g)) g) as (E1 & HE1 & HS1).
    fold (bfs g) in HE1.
    destruct (bfs g) as [[fl|e|] g1]; simpl in *; subst g1; eauto.
    destruct (IH (with_edges g E1) (m + fl) fl) as (E' & -> & HS').
    exists E'. split; [reflexivity|]. now apply (same_shape_trans _ E1).
Qed.

(** X1: whatever the graph and however it ends (returning, raising or
    cut off), [edmonds_karp] changes nothing but flows: the node count,
    the source, the sink and the adjacency lists are the same, no edge
    is created or lost, and each edge keeps its capacity, its endpoints
    and its residual. *)
Theorem edmonds_karp_changes_flows_only (fuel : nat) (g : Graph) :
  num_nodes (snd (edmonds_karp fuel g)) = num_nodes g
  ∧ source (snd (edmonds_karp fuel g)) = source g
  ∧ sink (snd (edmonds_karp fuel g)) = sink g
  ∧ graph (snd (edmonds_karp fuel g)) = graph g
  ∧ length (edges (snd (edmonds_karp fuel g))) = length (edges g)
  ∧ ∀ a e, edges g !! a = Some e →
      ∃ e', edges (snd (edmonds_karp fuel g)) !! a = Some e'
            ∧ capacity e' = capacity e ∧ from_node e' = from_node e
            ∧ to_node e' = to_node e ∧ residual e' = residual e.
Proof.
  unfold edmonds_karp.
  destruct (edmonds_karp_loop_frame fuel g 0 1) as (E' & -> & HS). simpl.
  repeat split; try reflexivity.
  - symmetry. now apply same_shape_length.
  - intros a e He. now apply (same_shape_lookup (edges g)).
Qed.

(** ** Solving a graph whose source or sink is not a node *)

Lemma py_set_Raise {A} (l : list A) i x :
  ¬ subscript_ok (length l) i → py_set l i x = Raise IndexError.
Proof.
  intros Hi. unfold py_set. now rewrite (proj2 (py_index_None (length l) i) Hi).
Qed.

(** X2: when [source - 1], as stored by the constructor, is not a
    subscript Python accepts for a list of [num_nodes] elements (always
    so when [num_nodes <= 0]), [bfs] raises [IndexError] before it looks
    at any edge, and so does [edmonds_karp]; the graph is left as it
    was. *)
Theorem solving_raises_on_bad_source (fuel : nat) (g : Graph) :
  ¬ subscript_ok (Z.to_nat (num_nodes g)) (source g) →
  bfs g = (Raise IndexError, g)
  ∧ edmonds_karp (S fuel) g = (Raise IndexError, g).
Proof.
  intros Hbad.
  assert (Hbfs : bfs g = (Raise IndexError, g)).
  { unfold bfs, bfs_rounds, bfs_search, bfs_start, py_repeat.
    rewrite py_set_Raise; [reflexivity|]. now rewrite length_replicate. }
  split; [exact Hbfs|]. unfold edmonds_karp. simpl. now rewrite Hbfs.
Qed.

Lemma solving_raises_on_bad_source_witness :
  bfs (Graph_init 3 7 2) = (Raise IndexError, Graph_init 3 7 2)
  ∧ edmonds_karp 1 (Graph_init 3 7 2) = (Raise IndexError, Graph_init 3 7 2).
Proof.
  apply (solving_raises_on_bad_source 0 (Graph_init 3 7 2)).
  unfold subscript_ok. simpl. lia.
Defined.

(** X3: when the source is also the sink (and is a subscript Python
    accepts), the search stops at the first node it takes from the
    queue: [bfs] returns 0 and [edmonds_karp] returns 0 after one
    search, whatever the edges, and the graph is left as it was. *)
Theorem source_is_sink_gives_zero (fuel : nat) (g : Graph) :
  subscript_ok (Z.to_nat (num_nodes g)) (source g) → source g = sink g →
  bfs g = (Return 0, g) ∧ edmonds_karp (S fuel) g = (Return 0, g).
Proof.
  intros Hok Heq.
  assert (Hbfs : bfs g = (Return 0, g)).
  { unfold bfs, bfs_rounds, bfs_search, bfs_start, py_repeat.
    destruct (py_index (Z.to_nat (num_nodes g)) (source g)) as [k|] eqn:Hk.
    2:{ apply py_index_None in Hk. contradiction. }
    unfold py_set. rewrite length_replicate, Hk. simpl.
    apply py_index_Some in Hk as [Hk _].
    destruct (Z.to_nat (num_nodes g)) as [|n] eqn:Hn; [lia|].
    cbn [bfs_loop bfs_queue]. rewrite <- Heq, Z.eqb_refl. cbn [bind previous].
    unfold py_get. rewrite length_replicate.
    destruct (py_index (S n) (source g)) as [j|] eqn:Hj.
    2:{ apply py_index_None in Hj. contradiction. }
    apply py_index_Some in Hj as [Hj _].
    now rewrite lookup_replicate_2. }
  split; [exact Hbfs|]. unfold edmonds_karp. simpl. rewrite Hbfs.
  now destruct fuel.
Qed.

Lemma source_is_sink_gives_zero_witness :
  bfs (snd (add_edge (Graph_init 3 2 2) 2 3 5))
  = (Return 0, snd (add_edge (Graph_init 3 2 2) 2 3 5))
  ∧ edmonds_karp 1 (snd (add_edge (Graph_init 3 2 2) 2 3 5))
    = (Return 0, snd (add_edge (Graph_init 3 2 2) 2 3 5)).
Proof.
  apply (source_is_sink_gives_zero 0 (snd (add_edge (Graph_init 3 2 2) 2 3 5))).
  - unfold subscript_ok. simpl. lia.
  - reflexivity.
Defined.

(** ** [add_edge] with endpoints that are not nodes *)

Lemma py_index_negative (len : nat) (i : Z) :
  - Z.of_nat len <= i < 0 → py_index len i = Some (Z.to_nat (i + Z.of_nat len)).
Proof.
  intros Hi. unfold py_index.
  destruct (0 <=? i) eqn:H0; [lia|]. simpl.
  destruct (- Z.of_nat len <=? i) eqn:H1; [|lia].
  destruct (i <? 0) eqn:H2; [reflexivity|lia].
Qed.

(** X4: [add_edge] is not all or nothing.  When [from_node - 1] is not
    an accepted subscript it raises [IndexError] with the adjacency
    lists as they were; when [from_node - 1] is accepted and
    [to_node - 1] is not, it raises [IndexError] after the forward edge
    has been appended to the list of its start node: both edges have
    been created, the forward edge is in that list and, in a graph
    whose adjacency lists held edges created before the call only, its
    residual is in no adjacency list. *)
Theorem add_edge_raises_half_way (g : Graph) (u v c : Z) :
  (¬ subscript_ok (length (graph g)) (u - 1) →
   fst (add_edge g u v c) = Raise IndexError
   ∧ graph (snd (add_edge g u v c)) = graph g)
  ∧ (∀ k, py_index (length (graph g)) (u - 1) = Some k →
     ¬ subscript_ok (length (graph g)) (v - 1) →
     (∀ row a, row ∈ graph g → a ∈ row → (a < length (edges g))%nat) →
     fst (add_edge g u v c) = Raise IndexError
     ∧ graph (snd (add_edge g u v c))
       = alter (fun row => row ++ [length (edges g)]) k (graph g)
     ∧ (∃ row, graph (snd (add_edge g u v c)) !! k = Some row
               ∧ length (edges g) ∈ row)
     ∧ edges (snd (add_edge g u v c)) !! length (edges g)
       = Some {| capacity := c; from_node := u - 1; to_node := v - 1;
                 flow := 0; residual := Some (S (length (edges g))) |}
     ∧ edges (snd (add_edge g u v c)) !! S (length (edges g))
       = Some {| capacity := 0; from_node := v - 1; to_node := u - 1;
                 flow := 0; residual := Some (length (edges g)) |}
     ∧ ∀ row, row ∈ graph (snd (add_edge g u v c)) →
              S (length (edges g)) ∉ row).
Proof.
  split.
  - intros Hu.
    assert (H : add_edge g u v c
                = (Raise IndexError,
                   with_edges g
                     (edges g ++
                      [set_residual (Edge_init c u v) (S (length (edges g)));
                       set_residual (Edge_init 0 v u) (length (edges g))]))).
    { unfold add_edge. cbn [graph with_edges].
      now rewrite (append_at_Raise _ _ _ Hu). }
    rewrite H. split; reflexivity.
  - intros k Hk Hv Hrows.
    assert (H : add_edge g u v c
                = (Raise IndexError,
                   with_graph
                     (with_edges g
                        (edges g ++
                         [set_residual (Edge_init c u v) (S (length (edges g)));
                          set_residual (Edge_init 0 v u) (length (edges g))]))
                     (alter (fun row => row ++ [length (edges g)]) k (graph g)))).
    { unfold add_edge. cbn [graph with_edges].
      unfold append_at at 1. rewrite Hk. cbn [graph with_graph].
      now rewrite append_at_Raise by (now rewrite length_alter). }
    rewrite H. cbn [fst snd graph edges with_graph with_edges].
    apply py_index_Some in Hk as [Hk _].
    destruct (lookup_lt_is_Some_2 (graph g) k Hk) as [row0 Hrow0].
    split; [reflexivity|]. split; [reflexivity|]. split; [|split; [|split]].
    + exists (row0 ++ [length (edges g)]). split.
      * now rewrite list_lookup_alter_eq, Hrow0.
      * apply elem_of_app. right. left.
    + rewrite lookup_app_r, Nat.sub_diag by lia. reflexivity.
    + rewrite lookup_app_r by lia.
      replace (S (length (edges g)) - length (edges g))%nat with 1%nat by lia.
      reflexivity.
    + intros row Hrow Hin. apply list_elem_of_lookup_1 in Hrow as [i Hi].
      destruct (decide (i = k)) as [->|Hik].
      * rewrite list_lookup_alter_eq, Hrow0 in Hi. injection Hi as <-.
        apply elem_of_app in Hin as [Hin|Hin].
        -- assert (Hmem : row0 ∈ graph g) by (now apply list_elem_of_lookup_2 with k).
           pose proof (Hrows row0 _ Hmem Hin). lia.
        -- apply list_elem_of_singleton in Hin. lia.
      * rewrite list_lookup_alter_ne in Hi by congruence.
        assert (Hmem : row ∈ graph g) by (now apply list_elem_of_lookup_2 with i).
        pose proof (Hrows row _ Hmem Hin). lia.
Qed.

Lemma add_edge_raises_half_way_witness :
  fst (add_edge (build 2 1 2 [(1, 2, 5)]) 1 3 7) = Raise IndexError
  ∧ graph (snd (add_edge (build 2 1 2 [(1, 2, 5)]) 1 3 7))
    = alter (fun row => row ++ [length (edges (build 2 1 2 [(1, 2, 5)]))]) 0%nat
        (graph (build 2 1 2 [(1, 2, 5)]))
  ∧ (∃ row, graph (snd (add_edge (build 2 1 2 [(1, 2, 5)]) 1 3 7)) !! 0%nat
            = Some row
            ∧ length (edges (build 2 1 2 [(1, 2, 5)])) ∈ row)
  ∧ edges (snd (add_edge (build 2 1 2 [(1, 2, 5)]) 1 3 7))
      !! length (edges (build 2 1 2 [(1, 2, 5)]))
    = Some {| capacity := 7; from_node := 1 - 1; to_node := 3 - 1; flow := 0;
              residual := Some (S (length (edges (build 2 1 2 [(1, 2, 5)])))) |}
  ∧ edges (snd (add_edge (build 2 1 2 [(1, 2, 5)]) 1 3 7))
      !! S (length (edges (build 2 1 2 [(1, 2, 5)])))
    = Some {| capacity := 0; from_node := 3 - 1; to_node := 1 - 1; flow := 0;
              residual := Some (length (edges (build 2 1 2 [(1, 2, 5)]))) |}
  ∧ ∀ row, row ∈ graph (snd (add_edge (build 2 1 2 [(1, 2, 5)]) 1 3 7)) →
           S (length (edges (build 2 1 2 [(1, 2, 5)]))) ∉ row.
Proof.
  apply (proj2 (add_edge_raises_half_way (build 2 1 2 [(1, 2, 5)]) 1 3 7) 0%nat).
  - reflexivity.
  - unfold subscript_ok. simpl. lia.
  - intros row a Hrow Ha.
    change (graph (build 2 1 2 [(1, 2, 5)])) with [[0%nat]; [1%nat]] in Hrow.
    change (length (edges (build 2 1 2 [(1, 2, 5)]))) with 2%nat.
    apply elem_of_cons in Hrow as [->|Hrow].
    + apply list_elem_of_singleton in Ha. lia.
    + apply list_elem_of_singleton in Hrow. subst row.
      apply list_elem_of_singleton in Ha. lia.
Defined.

(** X5: a node number from [1 - n] to [0], [n] being the number of
    adjacency lists, is accepted by [add_edge] as the start of an edge:
    Python counts the subscript from the end, so the edge goes to the
    adjacency list of node [from_node + n], while the edge itself
    records the negative start [from_node - 1]. *)
Theorem add_edge_counts_from_the_end (g : Graph) (u v c : Z) :
  - Z.of_nat (length (graph g)) <= u - 1 < 0 →
  subscript_ok (length (graph g)) (v - 1) →
  fst (add_edge g u v c) = Return tt
  ∧ (∃ row, graph (snd (add_edge g u v c))
              !! Z.to_nat (u - 1 + Z.of_nat (length (graph g))) = Some row
            ∧ length (edges g) ∈ row)
  ∧ ∃ e, edges (snd (add_edge g u v c)) !! length (edges g) = Some e
         ∧ from_node e = u - 1 ∧ from_node e < 0.
Proof.
  intros Hu Hv.
  destruct (append_at_Return
              (alter (fun row => row ++ [length (edges g)])
                 (Z.to_nat (u - 1 + Z.of_nat (length (graph g)))) (graph g))
              (v - 1) (S (length (edges g)))) as (adj2 & Hadj2 & _).
  { now rewrite length_alter. }
  assert (H : add_edge g u v c
              = (Return tt,
                 with_graph
                   (with_edges g
                      (edges g ++
                       [set_residual (Edge_init c u v) (S (length (edges g)));
                        set_residual (Edge_init 0 v u) (length (edges g))]))
                   adj2)).
  { unfold add_edge. cbn [graph with_edges].
    unfold append_at at 1. rewrite (py_index_negative _ _ Hu).
    cbn [graph with_graph]. now rewrite Hadj2. }
  rewrite H. cbn [fst snd graph edges with_graph with_edges].
  split; [reflexivity|]. split.
  - destruct (lookup_lt_is_Some_2 (graph g)
                (Z.to_nat (u - 1 + Z.of_nat (length (graph g))))) as [row Hrow];
      [lia|].
    destruct (alter_snoc_lookup (graph g)
                (Z.to_nat (u - 1 + Z.of_nat (length (graph g))))
                (length (edges g)) _ _ Hrow) as (row1 & Hrow1 & _ & Hin1).
    unfold append_at in Hadj2.
    destruct (py_index _ (v - 1)) as [j|]; [|discriminate].
    injection Hadj2 as <-.
    destruct (alter_snoc_lookup _ j (S (length (edges g))) _ _ Hrow1)
      as (row2 & Hrow2 & Hsub & _).
    exists row2. split; [assumption|]. apply Hsub, Hin1. reflexivity.
  - eexists. rewrite lookup_app_r, Nat.sub_diag by lia.
    split; [reflexivity|]. simpl. lia.
Qed.

Lemma add_edge_counts_from_the_end_witness :
  fst (add_edge (Graph_init 3 1 2) 0 2 5) = Return tt
  ∧ (∃ row, graph (snd (add_edge (Graph_init 3 1 2) 0 2 5))
              !! Z.to_nat (0 - 1 + Z.of_nat (length (graph (Graph_init 3 1 2))))
            = Some row
            ∧ length (edges (Graph_init 3 1 2)) ∈ row)
  ∧ ∃ e, edges (snd (add_edge (Graph_init 3 1 2) 0 2 5))
           !! length (edges (Graph_init 3 1 2)) = Some e
         ∧ from_node e = 0 - 1 ∧ from_node e < 0.
Proof.
  apply (add_edge_counts_from_the_end (Graph_init 3 1 2) 0 2 5).
  - simpl. lia.
  - unfold subscript_ok. simpl. lia.
Defined.

(** ** Accounts of flow while solving *)

Lemma build_source_slack n s t calls :
  valid_network n s t calls →
  source_slack (build n s t calls) = capacity_leaving s calls.
Proof.
  intros Hv. pose proof (build_sound _ _ _ _ Hv) as Hs.
  destruct (build_forward _ _ _ _ Hv) as [Hcalls Hzero].
  destruct (build_ends _ _ _ _ Hv) as (_ & Hsrc & _).
  unfold source_slack. rewrite (net_out_no_flow _ _ Hzero), Z.sub_0_r.
  rewrite (out_capacity_forward _ Hs), Hsrc, <- capacity_leaving_forward.
  now rewrite Hcalls.
Qed.

(** Between complete searches the network is sound, the net outflow of
    the source is the opposite of that of the sink, and every other node
    has none. *)
Lemma searched_balance n s t calls g :
  valid_network n s t calls → searched (build n s t calls) g →
  sound g ∧ source g = s - 1 ∧ sink g = t - 1
  ∧ net_out (edges g) (s - 1) = - net_out (edges g) (t - 1)
  ∧ ∀ x, x ≠ s - 1 → x ≠ t - 1 → net_out (edges g) x = 0.
Proof.
  intros Hv. destruct (build_forward _ _ _ _ Hv) as [_ Hzero].
  destruct (build_ends _ _ _ _ Hv) as (_ & Hsrc & Hsnk).
  induction 1 as [|g _ (Hs & Hsg & Htg & Hst & Hin)].
  - split; [now apply build_sound|]. split; [assumption|]. split; [assumption|].
    split; [|intros x _ _]; now rewrite !(net_out_no_flow _ _ Hzero).
  - destruct (bfs_returns g Hs) as (b & g' & Hbfs & _). rewrite Hbfs. simpl.
    destruct (bfs_step g b g' Hs Hbfs) as (Hs' & _ & (E' & -> & _) & Hnet).
    pose proof (wf_distinct g (sound_wf _ Hs)) as Hne.
    split; [assumption|]. split; [assumption|]. split; [assumption|].
    rewrite Hsg, Htg in Hnet, Hne. split.
    + rewrite !Hnet, !Z.eqb_refl.
      destruct (s - 1 =? t - 1) eqn:E1; [lia|].
      destruct (t - 1 =? s - 1) eqn:E2; lia.
    + intros x Hxs Hxt. rewrite Hnet, (Hin x Hxs Hxt).
      destruct (s - 1 =? x) eqn:E1; [lia|].
      destruct (t - 1 =? x) eqn:E2; lia.
Qed.

(** X6: in a network built with arguments in range, after any number
    of complete searches (not only when [edmonds_karp] has returned),
    the flow on the forward edges entering a node other than the source
    and the sink equals the flow on the forward edges leaving it, and
    what leaves the source, net, is what enters the sink, net. *)
Theorem every_search_keeps_conservation n s t calls g :
  valid_network n s t calls → searched (build n s t calls) g →
  (∀ node, node ≠ s → node ≠ t →
     inflow (edges g) (node - 1) = outflow (edges g) (node - 1))
  ∧ outflow (edges g) (s - 1) - inflow (edges g) (s - 1)
    = inflow (edges g) (t - 1) - outflow (edges g) (t - 1).
Proof.
  intros Hv Hg.
  destruct (searched_balance _ _ _ _ _ Hv Hg) as (Hs & _ & _ & Hst & Hin).
  split.
  - intros node Hns Hnt. specialize (Hin (node - 1)).
    rewrite (net_out_forward _ _ Hs) in Hin. lia.
  - rewrite !(net_out_forward _ _ Hs) in Hst. lia.
Qed.

Lemma every_search_keeps_conservation_witness :
  (∀ node, node ≠ 1 → node ≠ 10 →
     inflow (edges (snd (bfs (build 10 1 10 scenario1_calls)))) (node - 1)
     = outflow (edges (snd (bfs (build 10 1 10 scenario1_calls)))) (node - 1))
  ∧ outflow (edges (snd (bfs (build 10 1 10 scenario1_calls)))) (1 - 1)
    - inflow (edges (snd (bfs (build 10 1 10 scenario1_calls)))) (1 - 1)
    = inflow (edges (snd (bfs (build 10 1 10 scenario1_calls)))) (10 - 1)
      - outflow (edges (snd (bfs (build 10 1 10 scenario1_calls)))) (10 - 1).
Proof.
  apply (every_search_keeps_conservation 10 1 10 scenario1_calls _ scenario1_valid).
  apply searched_bfs, searched_start.
Defined.

(** X7: the value [edmonds_karp] returns on a network built with
    arguments in range is the flow it has put on the network: the flow
    on the forward edges leaving the source minus the flow on those
    entering it, and also the flow on the forward edges entering the
    sink minus the flow on those leaving it. *)
Theorem returned_value_is_the_flow n s t calls fuel v g' :
  valid_network n s t calls →
  edmonds_karp fuel (build n s t calls) = (Return v, g') →
  v = outflow (edges g') (s - 1) - inflow (edges g') (s - 1)
  ∧ v = inflow (edges g') (t - 1) - outflow (edges g') (t - 1).
Proof.
  intros Hv Hek. pose proof (build_sound _ _ _ _ Hv) as Hs.
  destruct (build_forward _ _ _ _ Hv) as [_ Hzero].
  destruct (build_ends _ _ _ _ Hv) as (_ & Hsrc & Hsnk).
  destruct (edmonds_karp_loop_spec _ _ _ _ _ _ Hs Hek) as (Hs' & _ & _ & Hnet).
  pose proof (wf_distinct _ (sound_wf _ Hs)) as Hne. rewrite Hsrc, Hsnk in Hne, Hnet.
  pose proof (Hnet (s - 1)) as H1. pose proof (Hnet (t - 1)) as H2.
  rewrite (net_out_no_flow _ _ Hzero), Z.eqb_refl, (net_out_forward _ _ Hs') in H1.
  rewrite (net_out_no_flow _ _ Hzero), Z.eqb_refl, (net_out_forward _ _ Hs') in H2.
  destruct (s - 1 =? t - 1) eqn:E1; [lia|].
  destruct (t - 1 =? s - 1) eqn:E2; lia.
Qed.

Lemma returned_value_is_the_flow_witness :
  7 = outflow (edges (snd (edmonds_karp 3 (build 10 1 10 scenario1_calls)))) (1 - 1)
      - inflow (edges (snd (edmonds_karp 3 (build 10 1 10 scenario1_calls)))) (1 - 1)
  ∧ 7 = inflow (edges (snd (edmonds_karp 3 (build 10 1 10 scenario1_calls)))) (10 - 1)
        - outflow (edges (snd (edmonds_karp 3 (build 10 1 10 scenario1_calls)))) (10 - 1).
Proof.
  apply (returned_value_is_the_flow 10 1 10 scenario1_calls 3 7 _ scenario1_valid).
  vm_compute. reflexivity.
Defined.

(** X8: at any point of solving a network built with arguments in
    range, the remaining capacity of a residual edge is the flow on its
    forward edge (what a later path may send back), and the remaining
    capacities of the two add up to the capacity asked for the forward
    edge. *)
Theorem residual_capacity_is_forward_flow n s t calls g k d r :
  valid_network n s t calls → solving (build n s t calls) g →
  edges g !! (2 * k)%nat = Some d → edges g !! S (2 * k) = Some r →
  remaining_capacity r = flow d
  ∧ remaining_capacity d + remaining_capacity r = capacity d.
Proof.
  intros Hv Hg Hd Hr.
  destruct (solving_sound _ _ (build_sound _ _ _ _ Hv) Hg) as [Hs _].
  destruct (sound_pair g k d Hs Hd) as (r' & Hr' & _ & _ & Hc & Hfl & _).
  assert (r' = r) by congruence. subst r'.
  unfold remaining_capacity. lia.
Qed.

Lemma residual_capacity_is_forward_flow_witness :
  remaining_capacity
    {| capacity := 0; from_node := 1; to_node := 0; flow := -5;
       residual := Some 0%nat |}
  = flow {| capacity := 5; from_node := 0; to_node := 1; flow := 5;
            residual := Some 1%nat |}
  ∧ remaining_capacity
      {| capacity := 5; from_node := 0; to_node := 1; flow := 5;
         residual := Some 1%nat |}
    + remaining_capacity
        {| capacity := 0; from_node := 1; to_node := 0; flow := -5;
           residual := Some 0%nat |}
    = capacity {| capacity := 5; from_node := 0; to_node := 1; flow := 5;
                  residual := Some 1%nat |}.
Proof.
  apply (residual_capacity_is_forward_flow 2 1 2 [(1, 2, 5)]
           (snd (edmonds_karp 2 (build 2 1 2 [(1, 2, 5)]))) 0).
  - exact one_edge_valid.
  - apply solving_edmonds_karp, solving_start.
  - reflexivity.
  - reflexivity.
Defined.

(** ** Solves that stop at the first search *)

(** X9: at any point of solving a network built with arguments in
    range, when no chain of edges with remaining capacity leads from the
    source to the sink (a sink that cannot be reached, for one),
    [edmonds_karp] makes exactly one search: allowed one search or more,
    it returns 0 and leaves the graph as it was. *)
Theorem no_path_one_search n s t calls g fuel :
  valid_network n s t calls → solving (build n s t calls) g →
  (∀ p, ¬ augmenting g p) →
  edmonds_karp (S fuel) g = (Return 0, g).
Proof.
  intros Hv Hg Hnone.
  destruct (solving_sound _ _ (build_sound _ _ _ _ Hv) Hg) as [[Hwf HP HF] _].
  assert (Hbfs : bfs g = (Return 0, g)).
  { destruct (bfs_rounds_spec g Hwf HP)
      as (st & _ & Hinv & [[_ H]|(p & b & Hw & _ & Hl & Hb & H)]).
    - apply H.
    - destruct (Hnone p). apply (walk_chain g st Hinv _ _ Hw). }
  unfold edmonds_karp. simpl. rewrite Hbfs. now destruct fuel.
Qed.

Lemma no_edges_no_path q : ¬ augmenting (build 3 1 3 [(1, 2, 4)]) q.
Proof.
  intros [Hch Hpos]. inversion Hch as [|v a e p He Hto Hrest]; subst.
  destruct a as [|[|a]]; vm_compute in He; [| |discriminate];
    injection He as <-; vm_compute in Hto; discriminate.
Defined.

Lemma no_path_one_search_witness :
  edmonds_karp 1 (build 3 1 3 [(1, 2, 4)]) = (Return 0, build 3 1 3 [(1, 2, 4)]).
Proof.
  apply (no_path_one_search 3 1 3 [(1, 2, 4)] _ 0).
  - valid_network_tac.
  - apply solving_start.
  - exact no_edges_no_path.
Defined.

(** X10: when the capacities asked for the edges leaving the source add
    up to 0, [edmonds_karp] on the network just built returns 0 after
    one search and leaves every flow at 0. *)
Theorem no_capacity_at_source_gives_zero n s t calls fuel :
  valid_network n s t calls → capacity_leaving s calls = 0 →
  edmonds_karp (S fuel) (build n s t calls) = (Return 0, build n s t calls).
Proof.
  intros Hv Hzero. pose proof (build_sound _ _ _ _ Hv) as Hs.
  destruct (bfs_returns _ Hs) as (b & g' & Hbfs & [[-> ->]|Hb]).
  - unfold edmonds_karp. simpl. rewrite Hbfs. now destruct fuel.
  - exfalso.
    destruct (bfs_step _ b g' Hs Hbfs) as (Hs' & _ & (E' & -> & HS) & Hnet).
    pose proof (source_slack_nonneg _ (sound_feasible _ Hs')) as Hnn.
    pose proof (build_source_slack _ _ _ _ Hv) as Hslack.
    pose proof (wf_distinct _ (sound_wf _ Hs)) as Hne.
    unfold source_slack in *. rewrite out_capacity_with_edges in Hnn by assumption.
    simpl in Hnn. rewrite Hnet, Z.eqb_refl in Hnn.
    destruct (sink (build n s t calls) =? source (build n s t calls)) eqn:E1; lia.
Qed.

Lemma no_capacity_at_source_gives_zero_witness :
  edmonds_karp 1 (build 3 1 3 [(1, 2, 0); (2, 3, 7)])
  = (Return 0, build 3 1 3 [(1, 2, 0); (2, 3, 7)]).
Proof.
  apply (no_capacity_at_source_gives_zero 3 1 3 [(1, 2, 0); (2, 3, 7)] 0).
  - valid_network_tac.
  - reflexivity.
Defined.

(** ** What [add_edge] builds *)

Lemma leaving_snoc E d r j :
  leaving (E ++ [d; r]) j
  = leaving E j
    ++ (if from_node d =? Z.of_nat j then [length E] else [])
    ++ (if from_node r =? Z.of_nat j then [S (length E)] else []).
Proof.
  unfold leaving. rewrite length_app. cbn [length].
  rewrite List.seq_app, List.filter_app. f_equal.
  - apply List.filter_ext_in. intros a Ha. apply List.in_seq in Ha.
    unfold leaves. now rewrite lookup_app_l by lia.
  - cbn [seq List.filter Nat.add]. unfold leaves.
    rewrite !lookup_app_r by lia. rewrite Nat.sub_diag.
    replace (S (length E) - length E)%nat with 1%nat by lia. cbn [lookup list_lookup].
    destruct (from_node d =? Z.of_nat j); destruct (from_node r =? Z.of_nat j);
      reflexivity.
Qed.

Lemma add_edge_rows_in_order g u v c :
  1 <= u <= Z.of_nat (length (graph g)) → 1 <= v <= Z.of_nat (length (graph g)) →
  (∀ j row, graph g !! j = Some row → row = leaving (edges g) j) →
  ∀ j row, graph (snd (add_edge g u v c)) !! j = Some row →
           row = leaving (edges (snd (add_edge g u v c))) j.
Proof.
  intros Hu Hv Hrows j row. rewrite add_edge_in_range by assumption.
  cbn [snd graph edges]. rewrite leaving_snoc. cbn [from_node set_residual Edge_init].
  rewrite !list_lookup_alter.
  destruct (decide (Z.to_nat (v - 1) = j)) as [Ev|Ev];
    destruct (decide (Z.to_nat (u - 1) = j)) as [Eu|Eu];
    destruct (decide (Z.to_nat (u - 1) = Z.to_nat (v - 1))) as [Euv|Euv];
    try lia;
    destruct (u - 1 =? Z.of_nat j) eqn:Hdu; try lia;
    destruct (v - 1 =? Z.of_nat j) eqn:Hdv; try lia;
    rewrite ?Eu, ?Ev;
    destruct (graph g !! j) as [row0|] eqn:Hj; simpl; try discriminate;
    intros [= <-]; rewrite <- (Hrows j row0 Hj);
    rewrite <- ?app_assoc, ?app_nil_r; reflexivity.
Qed.

Lemma add_edges_rows_in_order calls : ∀ g,
  sound g → Forall (valid_call (num_nodes g)) calls →
  (∀ j row, graph g !! j = Some row → row = leaving (edges g) j) →
  (∀ j row, graph (add_edges g calls) !! j = Some row →
            row = leaving (edges (add_edges g calls)) j)
  ∧ length (edges (add_edges g calls))
    = (length (edges g) + 2 * length calls)%nat.
Proof.
  induction calls as [|[[u v] c] calls IH]; intros g Hs Hcalls Hrows.
  - simpl. split; [assumption|lia].
  - apply Forall_cons in Hcalls as [Hcall Hcalls].
    destruct (add_edge_sound g u v c Hs Hcall) as (_ & Hs1 & Hn & _ & _ & HE).
    pose proof (wf_rows g (sound_wf _ Hs)) as Hlen.
    destruct Hcall as (Hu & Hv & _). simpl in Hu, Hv.
    unfold add_edges. simpl. fold (add_edges (snd (add_edge g u v c)) calls).
    destruct (IH (snd (add_edge g u v c)) Hs1) as [H1 H2].
    + now rewrite Hn.
    + apply add_edge_rows_in_order; [lia|lia|assumption].
    + split; [assumption|]. rewrite H2, HE, length_app. simpl. lia.
Qed.

(** X11: a network built with arguments in range holds what the calls
    gave it, in their order.  Read back by address, its forward edges
    are the [add_edge] calls, one for one (parallel edges are not
    merged), with no flow; the store holds two edges per call; and the
    adjacency list of each node holds the edges that leave the node,
    forward and residual alike, in the order they were created, which
    is the order the search tries them in. *)
Theorem build_keeps_calls_in_order n s t calls :
  valid_network n s t calls →
  call_of <$> forward_edges (edges (build n s t calls)) = calls
  ∧ length (edges (build n s t calls)) = (2 * length calls)%nat
  ∧ Forall (fun e => flow e = 0) (edges (build n s t calls))
  ∧ length (graph (build n s t calls)) = Z.to_nat n
  ∧ ∀ j row, graph (build n s t calls) !! j = Some row →
             row = leaving (edges (build n s t calls)) j.
Proof.
  intros Hv. destruct (build_forward _ _ _ _ Hv) as [Hcalls Hzero].
  pose proof (build_sound _ _ _ _ Hv) as Hs.
  destruct (build_ends _ _ _ _ Hv) as (Hn & _ & _).
  destruct Hv as (Hn0 & Hs0 & Ht0 & Hst & Hvalid).
  destruct (add_edges_rows_in_order calls (Graph_init n s t)) as [H1 H2].
  - now apply Graph_init_sound.
  - assumption.
  - intros j row Hj. simpl in Hj. apply lookup_replicate in Hj as [-> _].
    reflexivity.
  - split; [assumption|]. split; [exact H2|]. split; [assumption|].
    split; [|exact H1].
    pose proof (wf_rows _ (sound_wf _ Hs)) as Hrows. now rewrite Hn in Hrows.
Qed.

Lemma build_keeps_calls_in_order_witness :
  call_of <$> forward_edges (edges (build 10 1 10 scenario1_calls))
  = scenario1_calls
  ∧ length (edges (build 10 1 10 scenario1_calls))
    = (2 * length scenario1_calls)%nat
  ∧ Forall (fun e => flow e = 0) (edges (build 10 1 10 scenario1_calls))
  ∧ length (graph (build 10 1 10 scenario1_calls)) = Z.to_nat 10
  ∧ ∀ j row, graph (build 10 1 10 scenario1_calls) !! j = Some row →
             row = leaving (edges (build 10 1 10 scenario1_calls)) j.
Proof.
  apply (build_keeps_calls_in_order 10 1 10 scenario1_calls scenario1_valid).
Defined.

(** ** The flow found is a maximum flow *)

Lemma marked_seen vis v : marked vis v = true ↔ seen vis v.
Proof.
  unfold marked, seen. destruct (0 <=? v) eqn:H0; simpl.
  - destruct (vis !! Z.to_nat v) as [[]|]; split; try discriminate;
      try (intros [_ ?]; discriminate); intros; split; (lia || reflexivity).
  - split; [discriminate|]. intros [? _]. lia.
Qed.

Lemma node_sum_ext n f f' :
  (∀ x, 0 <= x < Z.of_nat n → f x = f' x) → node_sum n f = node_sum n f'.
Proof.
  induction n as [|n IH]; intros H; simpl; [reflexivity|].
  rewrite IH, H by (intros; try apply H; lia). reflexivity.
Qed.

Lemma node_sum_add n f f' :
  node_sum n (fun x => f x + f' x) = node_sum n f + node_sum n f'.
Proof. induction n as [|n IH]; simpl; [reflexivity|]. rewrite IH. lia. Qed.

Lemma node_sum_zero n : node_sum n (fun _ => 0) = 0.
Proof. induction n as [|n IH]; simpl; [reflexivity|]. rewrite IH. lia. Qed.

Lemma node_sum_at n y c :
  0 <= y < Z.of_nat n → node_sum n (fun x => if y =? x then c else 0) = c.
Proof.
  induction n as [|n IH]; intros Hy; [lia|]. simpl.
  destruct (decide (y = Z.of_nat n)) as [->|Hne].
  - rewrite Z.eqb_refl.
    rewrite (node_sum_ext n _ (fun _ => 0)), node_sum_zero; [lia|].
    intros x Hx. destruct (Z.of_nat n =? x) eqn:E; [lia|reflexivity].
  - rewrite IH by lia. destruct (y =? Z.of_nat n) eqn:E; lia.
Qed.

(** Summing, over the nodes of [S], what leaves each node minus what
    enters it counts each edge once for its start and once for its
    end. *)
Lemma node_sum_cut n (S : Z → bool) L :
  (∀ d, d ∈ L → 0 <= from_node d < Z.of_nat n ∧ 0 <= to_node d < Z.of_nat n) →
  node_sum n (fun x =>
    if S x
    then total (fun d => if from_node d =? x then flow d else 0) L
         - total (fun d => if to_node d =? x then flow d else 0) L
    else 0)
  = total (fun d => (if S (from_node d) then flow d else 0)
                    - (if S (to_node d) then flow d else 0)) L.
Proof.
  induction L as [|d L IH]; intros Hin; simpl.
  - rewrite (node_sum_ext n _ (fun _ => 0)), node_sum_zero; [reflexivity|].
    intros x _. now destruct (S x).
  - destruct (Hin d) as [Hf Ht]; [left|].
    rewrite <- IH by (intros d' Hd'; apply Hin; now right).
    transitivity
      (node_sum n (fun x => if from_node d =? x
                            then if S (from_node d) then flow d else 0 else 0)
       + (node_sum n (fun x => if to_node d =? x
                               then if S (to_node d) then - flow d else 0 else 0)
          + node_sum n (fun x =>
              if S x
              then total (fun d0 => if from_node d0 =? x then flow d0 else 0) L
                   - total (fun d0 => if to_node d0 =? x then flow d0 else 0) L
              else 0))).
    + rewrite <- !node_sum_add. apply node_sum_ext. intros x _.
      destruct (from_node d =? x) eqn:E1; destruct (to_node d =? x) eqn:E2;
        try (apply Z.eqb_eq in E1; rewrite E1);
        try (apply Z.eqb_eq in E2; rewrite E2);
        destruct (S x); lia.
    + rewrite (node_sum_at n (from_node d) _ Hf), (node_sum_at n (to_node d) _ Ht).
      destruct (S (to_node d)); lia.
Qed.

Lemma total_forward_same_shape f E F :
  same_shape E F → (∀ e, f (erase e) = f e) →
  total f (forward_edges E) = total f (forward_edges F).
Proof.
  intros HS Hf.
  rewrite <- (total_ext (fun e => f (erase e)) f (forward_edges E)) by auto.
  rewrite <- (total_ext (fun e => f (erase e)) f (forward_edges F)) by auto.
  rewrite <- (total_fmap f erase (forward_edges E)).
  rewrite <- (total_fmap f erase (forward_edges F)).
  rewrite <- !forward_edges_fmap. unfold same_shape in HS. now rewrite HS.
Qed.

Lemma cut_capacity_same_shape S E F :
  same_shape E F → cut_capacity S E = cut_capacity S F.
Proof. intros HS. unfold cut_capacity. now apply total_forward_same_shape. Qed.

Lemma forward_edges_in_range g F d :
  well_formed g → same_shape (edges g) F → d ∈ forward_edges F →
  0 <= from_node d < num_nodes g ∧ 0 <= to_node d < num_nodes g.
Proof.
  intros Hwf HS Hd. apply list_elem_of_lookup_1 in Hd as [k Hk].
  apply forward_edges_lookup in Hk as [Hk _].
  destruct (same_shape_lookup _ _ _ _ (same_shape_sym _ _ HS) Hk)
    as (d' & Hd' & _ & Hf & Ht & _).
  destruct (wf_edge g Hwf _ _ Hd') as (H1 & H2 & _). rewrite Hf, Ht in *. auto.
Qed.

(** The value of a flow is the flow across any set of nodes that holds
    the source and not the sink. *)
Lemma flow_value_across_cut g F (S : Z → bool) :
  well_formed g → flow_on g F →
  S (source g) = true → S (sink g) = false →
  flow_value g F = cut_flow S F.
Proof.
  intros Hwf [HS Hcap Hcons] Hs Ht. unfold flow_value, cut_flow.
  pose proof (wf_nodes g Hwf) as Hn. pose proof (wf_source g Hwf) as Hsrc.
  rewrite <- (node_sum_cut (Z.to_nat (num_nodes g)) S).
  2:{ intros d Hd. rewrite Z2Nat.id by lia.
      now apply (forward_edges_in_range g F). }
  rewrite <- (node_sum_at (Z.to_nat (num_nodes g)) (source g)
                (outflow F (source g) - inflow F (source g))) by lia.
  apply node_sum_ext. intros x Hx. fold (outflow F x) (inflow F x).
  destruct (source g =? x) eqn:E1.
  - apply Z.eqb_eq in E1. subst x. now rewrite Hs.
  - destruct (decide (x = sink g)) as [->|Hne]; [now rewrite Ht|].
    rewrite (Hcons x) by lia. destruct (S x); lia.
Qed.

(** No flow sends more across a cut than the capacity of the cut. *)
Lemma cut_flow_le_capacity g F (S : Z → bool) :
  flow_on g F → cut_flow S F <= cut_capacity S F.
Proof.
  intros [HS Hcap Hcons]. apply total_le. intros d Hd.
  specialize (Hcap d Hd).
  destruct (S (from_node d)); destruct (S (to_node d)); simpl; lia.
Qed.

(** Across the marks of a search that found no path, the flow of a
    sound network fills the cut: the forward edges leaving the marked
    nodes are full and those entering them are empty. *)
Lemma closed_marks_saturated g vis :
  sound g → closed_marks g vis →
  cut_flow (marked vis) (edges g) = cut_capacity (marked vis) (edges g).
Proof.
  intros Hs (_ & _ & Hclosed). apply total_ext. intros d Hd.
  apply list_elem_of_lookup_1 in Hd as [k Hk].
  apply forward_edges_lookup in Hk as [Hd _].
  destruct (sound_pair g k d Hs Hd) as (r & Hr & Hf & Ht & Hc & Hfl & Hbounds).
  pose proof (Hclosed _ _ Hd) as Hfwd. pose proof (Hclosed _ _ Hr) as Hback.
  rewrite Hf, Ht in Hback. unfold remaining_capacity in *.
  destruct (marked vis (from_node d)) eqn:E1;
    destruct (marked vis (to_node d)) eqn:E2; simpl; lia.
Qed.

(** One round of the [while] loop of the search, on a node that is not
    the sink, keeps the invariants. *)
Lemma bfs_round_layered g st done u rest row st2 :
  well_formed g → bfs_inv g st → layered g done st →
  bfs_queue st = u :: rest → u ≠ sink g →
  graph g !! Z.to_nat u = Some row →
  visit_edges (edges g)
    {| bfs_queue := rest; visited := visited st; previous := previous st |} row
  = Return st2 →
  bfs_inv g st2 ∧ layered g (fun v => done v ∨ v = u) st2.
Proof.
  intros Hwf Hinv Hla Hq Hsink Hrow Hvisit.
  assert (Hu : seen (visited st) u).
  { apply (inv_queue _ _ Hinv). rewrite Hq. left. }
  destruct (depth_of_seen g st u Hinv Hu) as (h & Hh).
  destruct Hu as [Hu0 Hu].
  set (st1 := {| bfs_queue := rest; visited := visited st; previous := previous st |}) in *.
  assert (Hinv1 : bfs_inv g st1).
  { destruct Hinv as [Hlv Hlp Hqs Hs Hsp Hp Hw]. split; simpl; try assumption.
    intros v Hv. apply Hqs. rewrite Hq. now right. }
  assert (Hsc1 : scanning g u h done row st1).
  { pose proof (la_sorted _ _ _ Hla) as Hasc. rewrite Hq in Hasc.
    destruct Hasc as [Hhead Hasc]. split; simpl; try assumption.
    - intros v k Hv Hk. now apply (Hhead v h k).
    - intros v k Hk. now apply (la_bound _ _ _ Hla u rest h v k).
    - apply Hla.
    - intros v Hv. destruct (la_cover _ _ _ Hla v Hv) as [Hin|Hd]; [|auto].
      rewrite Hq in Hin. apply elem_of_cons in Hin as [->|Hin]; auto.
    - intros a e He Hf _ Hnot. exfalso. apply Hnot.
      destruct (wf_edge g Hwf a e He) as (_ & _ & row' & Hrow' & Hin).
      rewrite Hf in Hrow'. congruence. }
  destruct (scan_edges g u h done row st1 st2 Hwf Hinv1 Hsc1) as [Hsc2 Hinv2];
    [|assumption|].
  { intros a Ha. destruct (wf_row g Hwf _ _ _ Hrow Ha) as (e & He & Hf).
    exists e. split; [assumption|lia]. }
  split; [assumption|].
  destruct Hsc2 as [H1 H2 H3 H4 H5 H6 H7]. split.
  - assumption.
  - intros u2 rest2 h2 v k Hq2 Hh2 Hk.
    assert (h <= h2)%nat by (apply (H2 u2); [rewrite Hq2; left|assumption]).
    specialize (H4 v k Hk). lia.
  - intros v [Hv| ->]; [now apply H5|].
    intros a e He Hf Hcap. destruct (H7 a e He Hf Hcap) as (k & Hk).
    { intros Hin. now apply elem_of_nil in Hin. }
    exists h, k. repeat split; try assumption. now apply (H4 (to_node e)).
  - intros v Hv. destruct (H6 v Hv) as [?|[?|?]]; auto.
  - intros [Hd|Heq]; [now apply (la_sink _ _ _ Hla)|]. congruence.
Qed.

(** The search ends with a predecessor for the sink, or with marks that
    no edge with remaining capacity leaves. *)
Lemma bfs_loop_marks g : ∀ fuel st done st',
  well_formed g → bfs_inv g st → layered g done st →
  bfs_loop fuel g st = Return st' →
  (∃ a, previous st' !! Z.to_nat (sink g) = Some (Some a))
  ∨ closed_marks g (visited st').
Proof.
  assert (Hempty : ∀ st done, bfs_inv g st → layered g done st →
            bfs_queue st = [] → closed_marks g (visited st)).
  { intros st done Hinv Hla Hq. split; [|split].
    - apply marked_seen, (inv_source _ _ Hinv).
    - destruct (marked (visited st) (sink g)) eqn:E; [|reflexivity].
      apply marked_seen in E.
      destruct (la_cover _ _ _ Hla _ E) as [Hin|Hdone].
      + rewrite Hq in Hin. now apply elem_of_nil in Hin.
      + now destruct (la_sink _ _ _ Hla).
    - intros a e He Hcap Hfrom. apply marked_seen in Hfrom. apply marked_seen.
      destruct (la_cover _ _ _ Hla _ Hfrom) as [Hin|Hdone].
      + rewrite Hq in Hin. now apply elem_of_nil in Hin.
      + destruct (la_done _ _ _ Hla _ Hdone a e He eq_refl Hcap)
          as (k1 & k2 & _ & Hk2 & _).
        now apply (depth_seen g st _ k2). }
  induction fuel as [|fuel IH]; intros st done st' Hwf Hinv Hla Hloop;
    simpl in Hloop;
    destruct (bfs_queue st) as [|u rest] eqn:Hq; try discriminate;
    try (injection Hloop as <-; right; now apply (Hempty st done)).
  assert (Hu : seen (visited st) u).
  { apply (inv_queue _ _ Hinv). rewrite Hq. left. }
  destruct (u =? sink g) eqn:Hsink.
  - injection Hloop as <-. simpl. apply Z.eqb_eq in Hsink. subst u. left.
    destruct (inv_walk _ _ Hinv _ Hu) as (p & Hp & _).
    inversion Hp as [Hs|v a e p' Hv Ha He Hw]; subst; [|eauto].
    pose proof (wf_distinct g Hwf). congruence.
  - apply bind_Return in Hloop as (row & Hrow & Hloop).
    apply bind_Return in Hloop as (st2 & Hvisit & Hloop).
    destruct Hu as [Hu0 Hu].
    apply py_get_Return in Hrow as (j & Hj & Hrow).
    rewrite py_index_in_range in Hj.
    2:{ apply lookup_lt_Some in Hu. rewrite (inv_len_vis _ _ Hinv) in Hu.
        rewrite (wf_rows g Hwf). lia. }
    injection Hj as <-. apply Z.eqb_neq in Hsink.
    destruct (bfs_round_layered g st done u rest row st2 Hwf Hinv Hla Hq Hsink
                Hrow Hvisit) as [Hinv2 Hla2].
    now apply (IH st2 (fun v => done v ∨ v = u) st' Hwf Hinv2 Hla2).
Qed.

(** A search that returns 0 on a sound network leaves marks that no
    edge with remaining capacity leaves. *)
Lemma bfs_zero_marks g g' :
  sound g → bfs g = (Return 0, g') → ∃ vis, closed_marks g vis.
Proof.
  intros [Hwf HP HF] Hbfs.
  destruct (bfs_start_inv g Hwf) as (st0 & Hstart & Hinv0 & Hfuel).
  destruct (bfs_loop_inv g _ st0 Hwf Hinv0 Hfuel) as (st & Hloop & Hinv).
  destruct (bfs_loop_marks g _ st0 (fun _ => False) st Hwf Hinv0
              (bfs_start_layered g st0 Hwf Hstart) Hloop) as [[a Ha]|Hmarks];
    [|now exists (visited st)].
  exfalso.
  destruct (bfs_rounds_spec g Hwf HP)
    as (st2 & Hsearch & _ & [[Hnone _]|(p & b & _ & _ & _ & Hb & H)]).
  - unfold bfs_search in Hsearch. rewrite Hstart in Hsearch. simpl in Hsearch.
    rewrite Hloop in Hsearch. simpl in Hsearch. injection Hsearch as Heq.
    rewrite <- Heq in Hnone. congruence.
  - unfold bfs in Hbfs. rewrite H in Hbfs. case_decide; [|discriminate].
    injection Hbfs as Hb0 _. lia.
Qed.

(** What [edmonds_karp] leaves when it returns on a network built with
    arguments in range: a flow on the network, of the value returned,
    and a last search that found no path. *)
Lemma edmonds_karp_solved n s t calls fuel v g' :
  valid_network n s t calls →
  edmonds_karp fuel (build n s t calls) = (Return v, g') →
  sound g' ∧ source g' = s - 1 ∧ sink g' = t - 1
  ∧ flow_on (build n s t calls) (edges g')
  ∧ flow_on g' (edges g')
  ∧ flow_value g' (edges g') = v
  ∧ bfs g' = (Return 0, g').
Proof.
  intros Hv Hek. pose proof (build_sound _ _ _ _ Hv) as Hs.
  destruct (build_forward _ _ _ _ Hv) as [_ Hzero].
  destruct (build_ends _ _ _ _ Hv) as (Hnum & Hsrc & Hsnk).
  destruct (edmonds_karp_loop_spec _ _ _ _ _ _ Hs Hek)
    as (Hs' & _ & (E' & HE' & HS) & Hnet).
  assert (Hlast : bfs g' = (Return 0, g')).
  { apply (edmonds_karp_loop_last _ _ _ _ _ _ Hek). lia. }
  assert (Hedges : edges g' = E') by (now rewrite HE').
  assert (Hsrc' : source g' = s - 1) by (now rewrite HE').
  assert (Hsnk' : sink g' = t - 1) by (now rewrite HE').
  assert (Hnum' : num_nodes g' = n) by (now rewrite HE').
  assert (Hcons : ∀ x, x ≠ s - 1 → x ≠ t - 1 →
            inflow (edges g') x = outflow (edges g') x).
  { intros x H1 H2. pose proof (Hnet x) as Hx.
    rewrite (net_out_no_flow _ _ Hzero), (net_out_forward _ _ Hs'), Hsrc, Hsnk in Hx.
    destruct (s - 1 =? x) eqn:E1; [lia|]. destruct (t - 1 =? x) eqn:E2; lia. }
  split; [assumption|]. split; [assumption|]. split; [assumption|].
  split; [|split; [|split; [|assumption]]].
  - split.
    + now rewrite Hedges.
    + intros d Hd. now apply (forward_flow_bounds g').
    + intros x _. rewrite Hsrc, Hsnk. apply Hcons.
  - split.
    + reflexivity.
    + intros d Hd. now apply (forward_flow_bounds g').
    + intros x _. rewrite Hsrc', Hsnk'. apply Hcons.
  - unfold flow_value. pose proof (Hnet (s - 1)) as Hx.
    pose proof (wf_distinct _ (sound_wf _ Hs)) as Hne. rewrite Hsrc, Hsnk in Hne.
    rewrite (net_out_no_flow _ _ Hzero), (net_out_forward _ _ Hs'), Hsrc, Hsnk,
      Z.eqb_refl in Hx.
    rewrite Hsrc'. destruct (t - 1 =? s - 1) eqn:E; lia.
Qed.

(** The marks of the last search of [edmonds_karp] are a cut whose
    capacity is the value returned. *)
Lemma edmonds_karp_cut n s t calls fuel v g' :
  valid_network n s t calls →
  edmonds_karp fuel (build n s t calls) = (Return v, g') →
  ∃ vis, marked vis (s - 1) = true ∧ marked vis (t - 1) = false
         ∧ cut_capacity (marked vis) (edges (build n s t calls)) = v.
Proof.
  intros Hv Hek.
  destruct (edmonds_karp_solved _ _ _ _ _ _ _ Hv Hek)
    as (Hs' & Hsrc & Hsnk & Hflow & Hflow' & Hval & Hlast).
  destruct (bfs_zero_marks g' g' Hs' Hlast) as (vis & Hmarks).
  exists vis. pose proof Hmarks as (Hms & Hmt & _). rewrite Hsrc in Hms.
  rewrite Hsnk in Hmt. split; [assumption|]. split; [assumption|].
  rewrite (cut_capacity_same_shape _ _ _ (fo_shape _ _ Hflow)).
  rewrite <- (closed_marks_saturated g' vis Hs' Hmarks).
  rewrite <- (flow_value_across_cut g' (edges g') (marked vis) (sound_wf _ Hs') Hflow');
    [assumption|now rewrite Hsrc|now rewrite Hsnk].
Qed.

(** The value of a flow on a network built with arguments in range is
    at most the capacity of a cut between the source and the sink. *)
Lemma flow_value_le_cut n s t calls F (S : Z → bool) :
  valid_network n s t calls → flow_on (build n s t calls) F →
  S (s - 1) = true → S (t - 1) = false →
  flow_value (build n s t calls) F <= cut_capacity S (edges (build n s t calls)).
Proof.
  intros Hv HF Hs Ht. pose proof (build_sound _ _ _ _ Hv) as Hsound.
  destruct (build_ends _ _ _ _ Hv) as (_ & Hsrc & Hsnk).
  rewrite (flow_value_across_cut _ F S (sound_wf _ Hsound) HF)
    by (now rewrite ?Hsrc, ?Hsnk).
  rewrite (cut_capacity_same_shape S _ F (fo_shape _ _ HF)).
  now apply (cut_flow_le_capacity (build n s t calls)).
Qed.

(** X12: on a network built with arguments in range [edmonds_karp]
    finds a maximum flow. As soon as the bound on the number of searches
    exceeds the sum of the capacities asked for the edges leaving the
    source it returns, and what it leaves on the edges is a flow on the
    network (between 0 and the capacity on each forward edge, as much
    into as out of every node but the source and the sink) whose value
    is the number returned; no flow on the network has a greater
    value. *)
Theorem edmonds_karp_finds_a_maximum_flow n s t calls :
  valid_network n s t calls →
  ∃ v g',
    (∀ fuel, (Z.to_nat (capacity_leaving s calls) < fuel)%nat →
       edmonds_karp fuel (build n s t calls) = (Return v, g'))
    ∧ flow_on (build n s t calls) (edges g')
    ∧ flow_value (build n s t calls) (edges g') = v
    ∧ ∀ F, flow_on (build n s t calls) F →
           flow_value (build n s t calls) F <= v.
Proof.
  intros Hv.
  destruct (edmonds_karp_returns n s t calls
              (S (Z.to_nat (capacity_leaving s calls))) Hv) as (v & g' & Hek); [lia|].
  exists v, g'. split.
  { intros fuel Hfuel. apply (edmonds_karp_more_fuel _ fuel _ _ _ Hek). lia. }
  destruct (edmonds_karp_solved _ _ _ _ _ _ _ Hv Hek)
    as (Hs' & Hsrc & Hsnk & Hflow & Hflow' & Hval & Hlast).
  destruct (build_ends _ _ _ _ Hv) as (_ & Hsrc0 & _).
  split; [assumption|]. split.
  - unfold flow_value in *. now rewrite Hsrc0, <- Hsrc.
  - intros F HF.
    destruct (edmonds_karp_cut _ _ _ _ _ _ _ Hv Hek) as (vis & Hms & Hmt & <-).
    now apply flow_value_le_cut.
Qed.

Lemma edmonds_karp_finds_a_maximum_flow_witness :
  valid_network 10 1 10 scenario1_calls
  ∧ ∃ v g',
    (∀ fuel, (Z.to_nat (capacity_leaving 1 scenario1_calls) < fuel)%nat →
       edmonds_karp fuel (build 10 1 10 scenario1_calls) = (Return v, g'))
    ∧ flow_on (build 10 1 10 scenario1_calls) (edges g')
    ∧ flow_value (build 10 1 10 scenario1_calls) (edges g') = v
    ∧ ∀ F, flow_on (build 10 1 10 scenario1_calls) F →
           flow_value (build 10 1 10 scenario1_calls) F <= v.
Proof.
  split; [exact scenario1_valid|].
  apply (edmonds_karp_finds_a_maximum_flow 10 1 10 scenario1_calls scenario1_valid).
Defined.

(** X13: the number [edmonds_karp] returns on a network built with
    arguments in range is the capacity of a minimum cut: some set of
    nodes holding the source and not the sink is left by forward edges
    of that total capacity, and no such set by less. *)
Theorem edmonds_karp_returns_the_minimum_cut n s t calls fuel v g' :
  valid_network n s t calls →
  edmonds_karp fuel (build n s t calls) = (Return v, g') →
  (∃ S : Z → bool, S (s - 1) = true ∧ S (t - 1) = false
     ∧ cut_capacity S (edges (build n s t calls)) = v)
  ∧ ∀ S : Z → bool, S (s - 1) = true → S (t - 1) = false →
      v <= cut_capacity S (edges (build n s t calls)).
Proof.
  intros Hv Hek. split.
  - destruct (edmonds_karp_cut _ _ _ _ _ _ _ Hv Hek) as (vis & Hms & Hmt & Hcut).
    now exists (marked vis).
  - intros S Hs Ht.
    destruct (edmonds_karp_solved _ _ _ _ _ _ _ Hv Hek)
      as (_ & Hsrc & _ & Hflow & _ & Hval & _).
    destruct (build_ends _ _ _ _ Hv) as (_ & Hsrc0 & _).
    rewrite <- Hval. unfold flow_value. rewrite Hsrc, <- Hsrc0.
    now apply (flow_value_le_cut n s t calls (edges g') S).
Qed.

Lemma edmonds_karp_returns_the_minimum_cut_witness :
  (∃ S : Z → bool, S (1 - 1) = true ∧ S (10 - 1) = false
     ∧ cut_capacity S (edges (build 10 1 10 scenario1_calls)) = 7)
  ∧ ∀ S : Z → bool, S (1 - 1) = true → S (10 - 1) = false →
      7 <= cut_capacity S (edges (build 10 1 10 scenario1_calls)).
Proof.
  apply (edmonds_karp_returns_the_minimum_cut 10 1 10 scenario1_calls 3 7
           (snd (edmonds_karp 3 (build 10 1 10 scenario1_calls)))
           scenario1_valid).
  vm_compute. reflexivity.
Defined.

(** ** The value returned and the [add_edge] calls *)

Lemma cut_capacity_calls S E :
  cut_capacity S E = cut_of_calls S (call_of <$> forward_edges E).
Proof.
  unfold cut_capacity, cut_of_calls, total.
  induction (forward_edges E) as [|d L IH]; [reflexivity|].
  simpl. rewrite IH, !Z.add_simpl_r. reflexivity.
Qed.

Lemma cut_of_calls_app S calls more :
  cut_of_calls S (calls ++ more) = cut_of_calls S calls + cut_of_calls S more.
Proof.
  unfold cut_of_calls. induction calls as [|c calls IH]; simpl; [reflexivity|].
  rewrite IH. lia.
Qed.

Lemma cut_of_calls_nonneg S n calls :
  Forall (valid_call n) calls → 0 <= cut_of_calls S calls.
Proof.
  unfold cut_of_calls. induction 1 as [|c calls (_ & _ & Hc) _ IH]; simpl; [lia|].
  destruct (S (c.1.1 - 1) && negb (S (c.1.2 - 1))); lia.
Qed.

Lemma cut_of_calls_permutation S calls calls' :
  calls ≡ₚ calls' → cut_of_calls S calls = cut_of_calls S calls'.
Proof.
  unfold cut_of_calls. induction 1; simpl; lia.
Qed.

(** The value returned is the least capacity, counted on the calls, of
    a cut between the source and the sink. *)
Lemma edmonds_karp_cut_of_calls n s t calls fuel v g' :
  valid_network n s t calls →
  edmonds_karp fuel (build n s t calls) = (Return v, g') →
  (∃ S : Z → bool, S (s - 1) = true ∧ S (t - 1) = false
     ∧ cut_of_calls S calls = v)
  ∧ ∀ S : Z → bool, S (s - 1) = true → S (t - 1) = false →
      v <= cut_of_calls S calls.
Proof.
  intros Hv Hek. destruct (build_forward _ _ _ _ Hv) as [Hcalls _]. split.
  - destruct (edmonds_karp_cut _ _ _ _ _ _ _ Hv Hek) as (vis & Hms & Hmt & Hcut).
    exists (marked vis). rewrite cut_capacity_calls, Hcalls in Hcut. auto.
  - intros S Hs Ht.
    destruct (edmonds_karp_solved _ _ _ _ _ _ _ Hv Hek)
      as (_ & Hsrc & _ & Hflow & _ & Hval & _).
    destruct (build_ends _ _ _ _ Hv) as (_ & Hsrc0 & _).
    rewrite <- Hval, <- Hcalls, <- cut_capacity_calls.
    unfold flow_value. rewrite Hsrc, <- Hsrc0.
    now apply (flow_value_le_cut n s t calls (edges g') S).
Qed.

(** Two sequences of calls of which the second asks at least as much
    capacity across every cut: the value returned for the second is at
    least the value returned for the first. *)
Lemma edmonds_karp_value_le n s t calls calls' fuel fuel' v v' g g' :
  valid_network n s t calls → valid_network n s t calls' →
  (∀ S, cut_of_calls S calls <= cut_of_calls S calls') →
  edmonds_karp fuel (build n s t calls) = (Return v, g) →
  edmonds_karp fuel' (build n s t calls') = (Return v', g') →
  v <= v'.
Proof.
  intros Hv Hv' Hle Hek Hek'.
  destruct (edmonds_karp_cut_of_calls _ _ _ _ _ _ _ Hv Hek) as [_ Hmin].
  destruct (edmonds_karp_cut_of_calls _ _ _ _ _ _ _ Hv' Hek')
    as [(S & Hs & Ht & <-) _].
  specialize (Hmin S Hs Ht). specialize (Hle S). lia.
Qed.

(** X14: the value [edmonds_karp] returns does not depend on the order
    of the [add_edge] calls: on a network built with arguments in range,
    making the same calls in another order gives a network on which
    [edmonds_karp] returns, and returns the same value. *)
Theorem edge_order_is_immaterial n s t calls calls' fuel fuel' v g :
  valid_network n s t calls → calls ≡ₚ calls' →
  edmonds_karp fuel (build n s t calls) = (Return v, g) →
  (Z.to_nat (capacity_leaving s calls') < fuel')%nat →
  fst (edmonds_karp fuel' (build n s t calls')) = Return v.
Proof.
  intros Hv Hperm Hek Hfuel.
  assert (Hv' : valid_network n s t calls').
  { destruct Hv as (? & ? & ? & ? & Hall). unfold valid_network.
    rewrite <- Hperm. auto. }
  destruct (edmonds_karp_returns _ _ _ _ _ Hv' Hfuel) as (v' & g' & Hek').
  rewrite Hek'. simpl. f_equal. apply Z.le_antisymm.
  - apply (edmonds_karp_value_le n s t calls' calls fuel' fuel v' v g' g);
      try assumption.
    intros S. now rewrite (cut_of_calls_permutation S calls calls').
  - apply (edmonds_karp_value_le n s t calls calls' fuel fuel' v v' g g');
      try assumption.
    intros S. now rewrite (cut_of_calls_permutation S calls calls').
Qed.

Lemma edge_order_is_immaterial_witness :
  fst (edmonds_karp 7 (build 3 1 3 [(2, 3, 3); (1, 3, 1); (1, 2, 4)])) = Return 4.
Proof.
  apply (edge_order_is_immaterial 3 1 3 [(1, 2, 4); (2, 3, 3); (1, 3, 1)]
           [(2, 3, 3); (1, 3, 1); (1, 2, 4)] 3 7 4
           (snd (edmonds_karp 3 (build 3 1 3 [(1, 2, 4); (2, 3, 3); (1, 3, 1)])))).
  - valid_network_tac.
  - apply (Permutation_cons_append [(2, 3, 3); (1, 3, 1)] (1, 2, 4)).
  - vm_compute. reflexivity.
  - vm_compute. lia.
Defined.

(** X15: more [add_edge] calls never lower the value [edmonds_karp]
    returns: on networks built with arguments in range, the value
    returned after further calls is at least the value returned without
    them. *)
Theorem more_edges_never_lower_the_value n s t calls more fuel fuel' v g :
  valid_network n s t (calls ++ more) →
  edmonds_karp fuel (build n s t calls) = (Return v, g) →
  (Z.to_nat (capacity_leaving s (calls ++ more)) < fuel')%nat →
  ∃ v' g', edmonds_karp fuel' (build n s t (calls ++ more)) = (Return v', g')
           ∧ v <= v'.
Proof.
  intros Hv' Hek Hfuel.
  assert (Hmore : Forall (valid_call n) more).
  { destruct Hv' as (_ & _ & _ & _ & Hall). now apply Forall_app in Hall as [_ ?]. }
  assert (Hv : valid_network n s t calls).
  { destruct Hv' as (? & ? & ? & ? & Hall). apply Forall_app in Hall as [? _].
    unfold valid_network. auto. }
  destruct (edmonds_karp_returns _ _ _ _ _ Hv' Hfuel) as (v' & g' & Hek').
  exists v', g'. split; [assumption|].
  apply (edmonds_karp_value_le n s t calls (calls ++ more) fuel fuel' v v' g g');
    try assumption.
  intros S. rewrite cut_of_calls_app.
  pose proof (cut_of_calls_nonneg S n more Hmore). lia.
Qed.

Lemma more_edges_never_lower_the_value_witness :
  ∃ v' g', edmonds_karp 7 (build 3 1 3 ([(1, 2, 4); (2, 3, 3)] ++ [(1, 3, 1)]))
           = (Return v', g')
           ∧ 3 <= v'.
Proof.
  apply (more_edges_never_lower_the_value 3 1 3 [(1, 2, 4); (2, 3, 3)] [(1, 3, 1)]
           3 7 3 (snd (edmonds_karp 3 (build 3 1 3 [(1, 2, 4); (2, 3, 3)])))).
  - valid_network_tac.
  - vm_compute. reflexivity.
  - vm_compute. lia.
Defined.

(** ** Searches made by hand before solving *)

Lemma searched_solving g0 g : searched g0 g → solving g0 g.
Proof.
  induction 1 as [|g _ IH]; [constructor|]. unfold bfs. now constructor.
Qed.

(** What [edmonds_karp] leaves when it returns after complete searches
    made by hand on a network built with arguments in range. *)
Lemma searched_then_solved n s t calls g fuel v g' :
  valid_network n s t calls → searched (build n s t calls) g →
  edmonds_karp fuel g = (Return v, g') →
  sound g' ∧ source g' = s - 1 ∧ sink g' = t - 1
  ∧ flow_on (build n s t calls) (edges g')
  ∧ flow_on g' (edges g')
  ∧ flow_value g' (edges g') = flow_value g (edges g) + v
  ∧ bfs g' = (Return 0, g').
Proof.
  intros Hv Hg Hek. pose proof (build_sound _ _ _ _ Hv) as Hs0.
  destruct (build_ends _ _ _ _ Hv) as (Hnum & Hsrc0 & Hsnk0).
  destruct (searched_balance _ _ _ _ _ Hv Hg) as (Hs & Hsg & Htg & Hst & Hin).
  destruct (solving_sound _ _ Hs0 (searched_solving _ _ Hg)) as (_ & E & HE & HS).
  destruct (edmonds_karp_loop_spec _ _ _ _ _ _ Hs Hek)
    as (Hs' & _ & (E' & HE' & HS') & Hnet).
  assert (Hlast : bfs g' = (Return 0, g')).
  { apply (edmonds_karp_loop_last _ _ _ _ _ _ Hek). lia. }
  assert (Hedges : edges g = E) by (now rewrite HE).
  assert (Hedges' : edges g' = E') by (now rewrite HE').
  assert (Hsrc' : source g' = s - 1) by (now rewrite HE').
  assert (Hsnk' : sink g' = t - 1) by (now rewrite HE').
  assert (Hcons : ∀ x, x ≠ s - 1 → x ≠ t - 1 →
            inflow (edges g') x = outflow (edges g') x).
  { intros x H1 H2. pose proof (Hnet x) as Hx.
    rewrite (Hin x H1 H2), (net_out_forward _ _ Hs'), Hsg, Htg in Hx.
    destruct (s - 1 =? x) eqn:E1; [lia|]. destruct (t - 1 =? x) eqn:E2; lia. }
  split; [assumption|]. split; [assumption|]. split; [assumption|].
  split; [|split; [|split; [|assumption]]].
  - split.
    + rewrite Hedges'. apply (same_shape_trans _ E); [assumption|].
      now rewrite <- Hedges.
    + intros d Hd. now apply (forward_flow_bounds g').
    + intros x _. rewrite Hsrc0, Hsnk0. apply Hcons.
  - split.
    + reflexivity.
    + intros d Hd. now apply (forward_flow_bounds g').
    + intros x _. rewrite Hsrc', Hsnk'. apply Hcons.
  - unfold flow_value. pose proof (Hnet (s - 1)) as Hx.
    pose proof (wf_distinct _ (sound_wf _ Hs)) as Hne. rewrite Hsg, Htg in Hne.
    rewrite (net_out_forward _ _ Hs), (net_out_forward _ _ Hs'), Hsg, Htg,
      Z.eqb_refl in Hx.
    rewrite Hsrc', Hsg. destruct (t - 1 =? s - 1) eqn:E1; lia.
Qed.

(** X16: searches made by hand count. When [edmonds_karp] returns after
    complete [bfs] calls made on a network built with arguments in
    range, it still leaves a maximum flow on the edges, but the number
    it returns is only what it has added to the flow the searches had
    already put there. *)
Theorem edmonds_karp_after_searches n s t calls g fuel v g' :
  valid_network n s t calls → searched (build n s t calls) g →
  edmonds_karp fuel g = (Return v, g') →
  flow_on (build n s t calls) (edges g')
  ∧ flow_value (build n s t calls) (edges g')
    = flow_value (build n s t calls) (edges g) + v
  ∧ ∀ F, flow_on (build n s t calls) F →
         flow_value (build n s t calls) F
         <= flow_value (build n s t calls) (edges g').
Proof.
  intros Hv Hg Hek.
  destruct (searched_then_solved _ _ _ _ _ _ _ _ Hv Hg Hek)
    as (Hs' & Hsrc & Hsnk & Hflow & Hflow' & Hval & Hlast).
  destruct (searched_balance _ _ _ _ _ Hv Hg) as (_ & Hsg & _).
  destruct (build_ends _ _ _ _ Hv) as (_ & Hsrc0 & _).
  assert (Hsame : ∀ F, flow_value (build n s t calls) F = flow_value g' F).
  { intros F. unfold flow_value. now rewrite Hsrc0, Hsrc. }
  split; [assumption|]. split.
  - rewrite Hsame, Hval. unfold flow_value. now rewrite Hsrc0, Hsg.
  - intros F HF.
    destruct (bfs_zero_marks g' g' Hs' Hlast) as (vis & Hmarks).
    pose proof Hmarks as (Hms & Hmt & _). rewrite Hsrc in Hms. rewrite Hsnk in Hmt.
    rewrite (Hsame (edges g')).
    rewrite (flow_value_across_cut g' (edges g') (marked vis) (sound_wf _ Hs') Hflow')
      by (now rewrite ?Hsrc, ?Hsnk).
    rewrite (closed_marks_saturated g' vis Hs' Hmarks).
    rewrite <- (cut_capacity_same_shape _ _ _ (fo_shape _ _ Hflow)).
    now apply flow_value_le_cut.
Qed.

Lemma edmonds_karp_after_searches_witness :
  flow_on (build 10 1 10 scenario1_calls)
    (edges (snd (edmonds_karp 3 (snd (bfs (build 10 1 10 scenario1_calls))))))
  ∧ flow_value (build 10 1 10 scenario1_calls)
      (edges (snd (edmonds_karp 3 (snd (bfs (build 10 1 10 scenario1_calls))))))
    = flow_value (build 10 1 10 scenario1_calls)
        (edges (snd (bfs (build 10 1 10 scenario1_calls)))) + 2
  ∧ ∀ F, flow_on (build 10 1 10 scenario1_calls) F →
         flow_value (build 10 1 10 scenario1_calls) F
         <= flow_value (build 10 1 10 scenario1_calls)
              (edges (snd (edmonds_karp 3 (snd (bfs (build 10 1 10 scenario1_calls)))))).
Proof.
  apply (edmonds_karp_after_searches 10 1 10 scenario1_calls
           (snd (bfs (build 10 1 10 scenario1_calls))) 3 2 _ scenario1_valid).
  - apply searched_bfs, searched_start.
  - vm_compute. reflexivity.
Defined.
